(** * Tessera: tile layout, ingestion queue, migration copier, tile read API

    A shallow embedding of the Go sources of trillian-tessera:
    - [Layout]: api/layout ([partialTileSize], [NodeCoordsToTileAddress]);
    - [Storage]: storage/queue.go ([Queue], [queueItem], futures);
    - [Migrate]: migrate.go, a worker on its own ([migrateWorker],
      [retry.Do]) and the goroutines of [Migrate] run one after the other;
    - [MigrateSched]: migrate.go, the goroutines of [Migrate] under every
      schedule ([Migrate], [populateWork], [migrateWorker], [eg.Wait]);
    - [TilesAPI]: cmd/conformance/mysql ([configureTilesReadAPI]);
    - [Conformance]: cmd/conformance/mysql, the handlers for the checkpoint,
      the entry bundles and [POST /add];
    - [Hammer]: the clients of the load generator ([newLogClientsFromFlags],
      [roundRobinFetcher], [httpLeafWriter]).

    Go's [uint64] is modelled as [Z] with the wrap-around written out. *)

From Stdlib Require Import ZArith Lia List Bool String DecimalString DecimalN.
From stdpp Require Import gmap strings list fin_maps.

Local Open Scope Z_scope.

(** ** Machine integers *)

Definition u64 (x : Z) : Z := x mod 2 ^ 64.

(** Go's [x >> s] on [uint64]: a shift count of 64 or more gives 0. *)
Definition shr64 (x s : Z) : Z := if s <? 64 then Z.shiftr x s else 0.

(** Go's [x << s] on [uint64]: bits shifted out are lost. *)
Definition shl64 (x s : Z) : Z := if s <? 64 then u64 (Z.shiftl x s) else 0.

Definition is_u64 (x : Z) : Prop := 0 <= x < 2 ^ 64.

Module Layout.

(** [partialTileSize] returns the expected number of leaves in a tile at the
    given location within a tree of the specified logSize, or 0 if the tile
    is expected to be fully populated. *)
Definition partialTileSize (level index logSize : Z) : Z :=
  let sizeAtLevel := shr64 logSize (u64 (level * 8)) in
  let fullTiles := sizeAtLevel / 256 in
  if index <? fullTiles then 0 else sizeAtLevel mod 256.

(** [NodeCoordsToTileAddress] returns (TileLevel, TileIndex, NodeLevel,
    NodeIndex).  [nodeLevel] has Go type [uint]; its value is below 8, so the
    conversion is the identity whatever the width of [uint]. *)
Definition NodeCoordsToTileAddress (treeLevel treeIndex : Z) : Z * Z * Z * Z :=
  let tileRowWidth := shl64 1 (u64 (8 - treeLevel mod 8)) in
  let tileLevel := treeLevel / 8 in
  let tileIndex := treeIndex / tileRowWidth in
  let nodeLevel := treeLevel mod 8 in
  let nodeIndex := treeIndex mod tileRowWidth in
  (tileLevel, tileIndex, nodeLevel, nodeIndex).

(** The recombination the round-trip property uses. *)
Definition recombine (treeLevel : Z) (a : Z * Z * Z * Z) : Z * Z :=
  let '(tileLevel, tileIndex, nodeLevel, nodeIndex) := a in
  (tileLevel * 8 + nodeLevel,
   tileIndex * Z.shiftl 1 (8 - treeLevel mod 8) + nodeIndex).

End Layout.

(** ** Go values shared by the packages below *)

Definition bytes := list Byte.byte.

(** The [error] values the modelled code creates or passes on.  An error
    built with [fmt.Errorf] keeps its arguments instead of the formatted
    text. *)
#[warnings="-register-all"]
Inductive error : Type :=
| ErrExternal (msg : string)
    (* an error returned by a collaborator: storage, fetcher, buffer *)
| ErrSize (cause : error)
    (* fmt.Errorf("size: %v", err) *)
| ErrTargetSize (targetSize sourceSize : Z)
    (* fmt.Errorf("target size %d > source size %d", ...) *)
| ErrMigrationFailed (cause : error)
    (* fmt.Errorf("migration failed: %v", err) *)
| ErrRootMismatch (root sourceRoot : bytes)
    (* fmt.Errorf("migration completed, but local root hash %x != ...") *)
| ErrFetch (index partial : Z) (cause : error)
    (* fmt.Errorf("failed to fetch entrybundle %d (p=%d): %v", ...) *)
| ErrStore (index partial : Z) (cause : error)
    (* fmt.Errorf("failed to store entrybundle %d (p=%d): %v", ...) *)
| ErrRetry (log : list error).
    (* what retry.Do returns once its attempts are used up *)

Module Tessera.

(** Modelled from the spec: the [Entry] type of package tessera, whose
    declaration is not among the sources.  A leaf entry is an opaque byte
    string with a caller-derived identity used as dedup key; once integrated
    it carries an assigned index.  An [*Entry] is modelled by the address of
    the struct together with its immutable fields; the assigned index, which
    the flush function sets through [MarshalBundleData], lives in the store
    ([entryIndex] below), keyed by the address. *)
Record Entry : Type := mkEntry {
  addr : nat;
  Data : string;
  Identity : string;
}.

End Tessera.

Module Storage.
Import Tessera.

(** Addresses of heap-allocated [queueItem]s. *)
Abbreviation loc := nat (only parsing).

(** The func literal that [notify] sends down the channel: it captures the
    error and the item whose entry it will read. *)
Record closure : Type := Closure {
  cl_err : option error;
  cl_e : loc;
}.

(** A Go channel of capacity 1. *)
Record chan : Type := Chan {
  ch_buf : option closure;
  ch_closed : bool;
}.

Definition make_chan : chan := Chan None false.

(** What a call of an [IndexFuture] gives its caller. *)
Inductive futureResult : Type :=
| Returned (index : Z) (err : option error)
| Panicked.

(** The state of a [sync.OnceValues] function: not yet run, or run with its
    result (or panic) kept for every later call. *)
Inductive onceValues : Type :=
| NotRun
| Ran (r : futureResult).

(** [queueItem] represents an in-flight item in the queue. *)
Record queueItem : Type := QueueItem {
  entry : Entry;
  c : chan;
  f : onceValues;
}.

(** An [IndexFuture] handed out by [Add] is the [f] field of one item. *)
Inductive IndexFuture : Type := FutureOf (item : loc).

(** A computation returns a value, panics, or blocks. *)
Inductive Outcome (A : Type) : Type :=
| Ok (a : A)
| Panic
| Block.
Arguments Ok {A} a.
Arguments Panic {A}.
Arguments Block {A}.

Section WithFlush.

(** [W] is whatever the flush function closes over (the storage). *)
Context {W : Type}.

(** [FlushFunc]: receives the queued entries; it may assign indices to
    entries and returns an error or nil. *)
Definition FlushFunc : Type :=
  list Entry -> W -> gmap nat Z -> W * gmap nat Z * option error.

Variable flush : FlushFunc.

(** The [Queue] ([buf], [inFlight]) with the heap it works on and the
    goroutines that are inside one of its functions. *)
Record State : Type := mkState {
  buf : list loc;              (* contents of Queue.buf, oldest first *)
  inFlight : gmap string loc;  (* Queue.inFlight *)
  work : option (list loc);    (* the channel [work], of capacity 1 *)
  items : list queueItem;      (* allocated queueItems, by address *)
  entryIndex : gmap nat Z;     (* Entry.Index() of each Entry, nil if absent *)
  world : W;
  adding : gset loc;
    (* the goroutines inside [Add], past [squashDupes] and before [Push],
       by the new item each of them holds *)
  flushing : option (list loc * option error);
    (* the worker inside [doFlush], past [q.flush] and before the
       notifications: its batch and the error [q.flush] returned *)
}.

Definition set_buf (b : list loc) (s : State) : State :=
  mkState b (inFlight s) (work s) (items s) (entryIndex s) (world s)
    (adding s) (flushing s).
Definition set_inFlight (m : gmap string loc) (s : State) : State :=
  mkState (buf s) m (work s) (items s) (entryIndex s) (world s)
    (adding s) (flushing s).
Definition set_work (w : option (list loc)) (s : State) : State :=
  mkState (buf s) (inFlight s) w (items s) (entryIndex s) (world s)
    (adding s) (flushing s).
Definition set_items (l : list queueItem) (s : State) : State :=
  mkState (buf s) (inFlight s) (work s) l (entryIndex s) (world s)
    (adding s) (flushing s).
Definition set_storage (idx : gmap nat Z) (w : W) (s : State) : State :=
  mkState (buf s) (inFlight s) (work s) (items s) idx w
    (adding s) (flushing s).
Definition set_adding (a : gset loc) (s : State) : State :=
  mkState (buf s) (inFlight s) (work s) (items s) (entryIndex s) (world s)
    a (flushing s).
Definition set_flushing (fl : option (list loc * option error)) (s : State)
  : State :=
  mkState (buf s) (inFlight s) (work s) (items s) (entryIndex s) (world s)
    (adding s) fl.

Definition M (A : Type) : Type := State -> Outcome (A * State).

Definition ret {A} (a : A) : M A := fun s => Ok (a, s).

Definition bind {A B} (m : M A) (k : A -> M B) : M B :=
  fun s => match m s with
           | Ok (a, s') => k a s'
           | Panic => Panic
           | Block => Block
           end.

Notation "'let*' x ':=' m 'in' k" := (bind m (fun x => k))
  (at level 10, x pattern, m at level 100, k at level 200).
Notation "m ';;' k" := (bind m (fun _ => k))
  (at level 100, right associativity).

Definition modify (g : State -> State) : M unit := fun s => Ok (tt, g s).

(** Dereferencing an item pointer; a nil or dangling pointer panics. *)
Definition getItem (l : loc) : M queueItem :=
  fun s => match items s !! l with
           | Some it => Ok (it, s)
           | None => Panic
           end.

Definition putItem (l : loc) (it : queueItem) : M unit :=
  fun s => Ok (tt, set_items (<[l := it]> (items s)) s).

(** [newEntry] creates a new entry for the provided data. *)
Definition newEntry (data : Entry) : M loc :=
  fun s => Ok (length (items s),
               set_items (items s ++ [QueueItem data make_chan NotRun]) s).

(** [e.c <- v]: panics on a closed channel, blocks on a full one. *)
Definition chan_send (v : closure) (ch : chan) : Outcome chan :=
  if ch_closed ch then Panic
  else match ch_buf ch with
       | Some _ => Block
       | None => Ok (Chan (Some v) false)
       end.

(** [close(e.c)]: panics on a closed channel. *)
Definition chan_close (ch : chan) : Outcome chan :=
  if ch_closed ch then Panic else Ok (Chan (ch_buf ch) true).

(** [<-e.c]: a buffered value if there is one, else the zero value (nil) on
    a closed channel, else the receiver blocks. *)
Definition chan_recv (ch : chan) : Outcome (option closure * chan) :=
  match ch_buf ch with
  | Some v => Ok (Some v, Chan None (ch_closed ch))
  | None => if ch_closed ch then Ok (None, ch) else Block
  end.

(** [notify] sets the assigned log index (or an error) to the entry. *)
Definition notify (e : loc) (err : option error) : M unit :=
  let* it := getItem e in
  fun s =>
    match chan_send (Closure err e) (c it) with
    | Ok ch1 =>
        match chan_close ch1 with
        | Ok ch2 => putItem e (QueueItem (entry it) ch2 (f it)) s
        | Panic => Panic
        | Block => Block
        end
    | Panic => Panic
    | Block => Block
    end.

(** Running the func literal of [notify]. *)
Definition call_closure (cl : closure) (s : State) : futureResult :=
  match cl_err cl with
  | Some err => Returned 0 (Some err)
  | None =>
      match items s !! cl_e cl with
      | None => Panicked
      | Some it =>
          match entryIndex s !! addr (entry it) with
          | None => Panicked
          | Some i => Returned i None
          end
      end
  end.

(** Calling the future [e.f]: the first call that gets through receives the
    closure and runs it; every later call gets the kept result.  Calling the
    nil func received from a closed and drained channel panics. *)
Definition call_future (fut : IndexFuture) : M futureResult :=
  let 'FutureOf l := fut in
  let* it := getItem l in
  match f it with
  | Ran r => ret r
  | NotRun =>
      fun s =>
        match chan_recv (c it) with
        | Ok (v, ch') =>
            let r := match v with
                     | Some cl => call_closure cl s
                     | None => Panicked
                     end in
            (putItem l (QueueItem (entry it) ch' (Ran r)) ;; ret r) s
        | Panic => Panic
        | Block => Block
        end
  end.

(** [squashDupes] keeps track of all in-flight requests.  Returns an entry
    struct, and a bool which is true if the provided entry is a dupe and
    should NOT be added to the queue. *)
Definition squashDupes (e : Entry) : M (loc * bool) :=
  fun s =>
    let k := Identity e in
    match inFlight s !! k with
    | Some entry => Ok ((entry, true), s)
    | None =>
        (let* entry := newEntry e in
         modify (fun s' => set_inFlight (<[k := entry]> (inFlight s')) s') ;;
         ret (entry, false)) s
    end.

(** [q.buf.Push(entry)] when the buffer takes the item. *)
Definition push (l : loc) : M unit :=
  modify (fun s => set_buf (buf s ++ [l]) s).

(** What [Add] does after [squashDupes]: [pushErr] is what [q.buf.Push]
    returns (nil, or the buffer's error: closed, timed out). *)
Definition Add_rest (entry : loc) (isDupe : bool) (pushErr : option error)
  : M IndexFuture :=
  if isDupe then ret (FutureOf entry)
  else
    match pushErr with
    | None => push entry
    | Some err => notify entry (Some err)
    end ;;
    ret (FutureOf entry).

(** [Add] places e into the queue, and returns a func which may be called to
    retrieve the assigned index. *)
Definition Add (e : Entry) (pushErr : option error) : M IndexFuture :=
  let* (entry, isDupe) := squashDupes e in
  Add_rest entry isDupe pushErr.

Definition entryOf (l : loc) : M Entry :=
  let* it := getItem l in ret (entry it).

Fixpoint entriesData (entries : list loc) : M (list Entry) :=
  match entries with
  | [] => ret []
  | e :: es => let* d := entryOf e in let* ds := entriesData es in ret (d :: ds)
  end.

Definition call_flush (data : list Entry) : M (option error) :=
  fun s =>
    let '(w', idx', err) := flush data (world s) (entryIndex s) in
    Ok (err, set_storage idx' w' s).

(** The second loop of [doFlush], run with [q.inFlightMu] held. *)
Fixpoint notifyAll (entries : list loc) (err : option error) : M unit :=
  match entries with
  | [] => ret tt
  | e :: es =>
      notify e err ;;
      let* d := entryOf e in
      modify (fun s => set_inFlight (delete (Identity d) (inFlight s)) s) ;;
      notifyAll es err
  end.

(** [doFlush] handles the queue flush, and sending notifications of assigned
    log indices. *)
Definition doFlush (entries : list loc) : M unit :=
  let* data := entriesData entries in
  let* err := call_flush data in
  notifyAll entries err.

(** [toWork]: the buffer hands everything it holds to the channel [work].
    When it does so (its size has reached [maxSize], its oldest item the age
    [maxAge]) is the buffer's business and is not modelled: here the
    hand-over may come at any time, so the queue below has every hand-over
    the buffer makes, and more (of an empty buffer, of more than [maxSize]
    items). *)
Definition toWork : M unit :=
  fun s => match work s with
           | Some _ => Block
           | None => Ok (tt, set_work (Some (buf s)) (set_buf [] s))
           end.

(** One turn of the worker goroutine: [entries := <-work], then [doFlush]. *)
Definition worker : M unit :=
  fun s => match work s, flushing s with
           | Some entries, None => doFlush entries (set_work None s)
           | _, _ => Block
           end.

(** [NewQueue]: nothing buffered, nothing in flight. *)
Definition NewQueue (w : W) : State := mkState [] ∅ None [] ∅ w ∅ None.

(** *** Interleavings

    [Add] and [doFlush] are not atomic: between [squashDupes] and [Push],
    and between the call of [q.flush] and the notifications, other
    goroutines run.  Each function is therefore also given in two halves;
    the goroutine between its halves is recorded in [adding] or
    [flushing]. *)

(** [Add] up to and including [squashDupes]; a dupe is done here. *)
Definition Add_begin (e : Entry) : M (loc * bool) :=
  let* (entry, isDupe) := squashDupes e in
  (if (isDupe : bool) then ret tt
   else modify (fun s => set_adding ({[entry]} ∪ adding s) s)) ;;
  ret (entry, isDupe).

(** The rest of [Add], for the goroutine that holds the new item [entry]. *)
Definition Add_end (entry : loc) (pushErr : option error) : M IndexFuture :=
  fun s =>
    if decide (entry ∈ adding s)
    then Add_rest entry false pushErr (set_adding (adding s ∖ {[entry]}) s)
    else Block.

(** The worker up to the return of [q.flush]. *)
Definition worker_flush : M unit :=
  fun s => match work s, flushing s with
           | Some entries, None =>
               (let* data := entriesData entries in
                let* err := call_flush data in
                modify (set_flushing (Some (entries, err))))
                 (set_work None s)
           | _, _ => Block
           end.

(** The worker from there: the notifications. *)
Definition worker_notify : M unit :=
  fun s => match flushing s with
           | Some (entries, err) => notifyAll entries err (set_flushing None s)
           | None => Block
           end.

(** What can happen to a queue, one step at a time; the steps of different
    goroutines interleave in any order.  A whole [Add] and a whole turn of
    the worker are steps too: the schedule in which nothing comes between
    their halves.  The triggers of the hand-over of the buffer (size
    reached, age reached) are not modelled: it may happen at any time. *)
Inductive op : Type :=
| OpAdd (e : Entry) (pushErr : option error)
| OpAddBegin (e : Entry)
| OpAddEnd (entry : loc) (pushErr : option error)
| OpToWork
| OpWorker
| OpWorkerFlush
| OpWorkerNotify
| OpCall (fut : IndexFuture).

(** What a step does to the queue.  A call of a future whose func literal
    panics leaves the panic in the [sync.OnceValues] of the item and unwinds
    the caller only; the queue and the other goroutines go on when the caller
    recovers (as [net/http] does for its handlers).  [exec] therefore gives
    the queue after the call whatever the call gave its caller; what the
    caller gets is [step], below. *)
Definition exec (o : op) : M unit :=
  match o with
  | OpAdd e pushErr => Add e pushErr ;; ret tt
  | OpAddBegin e => Add_begin e ;; ret tt
  | OpAddEnd entry pushErr => Add_end entry pushErr ;; ret tt
  | OpToWork => toWork
  | OpWorker => worker
  | OpWorkerFlush => worker_flush
  | OpWorkerNotify => worker_notify
  | OpCall fut => call_future fut ;; ret tt
  end.

Fixpoint run (ops : list op) : M unit :=
  match ops with
  | [] => ret tt
  | o :: os => exec o ;; run os
  end.

(** What a step does to the goroutine that takes it: as [exec], but a call
    of a future that panics is a panic of the step. *)
Definition step (o : op) : M unit :=
  match o with
  | OpCall fut =>
      let* r := call_future fut in
      match r with
      | Panicked => fun _ => Panic
      | Returned _ _ => ret tt
      end
  | _ => exec o
  end.

End WithFlush.

Arguments State W : clear implicits.
Arguments M W A : clear implicits.
Arguments FlushFunc W : clear implicits.

Notation "'let*' x ':=' m 'in' k" := (bind m (fun x => k))
  (at level 10, x pattern, m at level 100, k at level 200).
Notation "m ';;' k" := (bind m (fun _ => k))
  (at level 100, right associativity).

(** *** Vocabulary for the properties of the queue *)

Section Invariant.
Context {W : Type}.
Implicit Types s : State W.

Definition batch (fl : option (list loc * option error)) : list loc :=
  match fl with Some (entries, _) => entries | None => [] end.

(** The items handed to the buffer and not yet notified: those in the
    buffer, those travelling to the worker, those being flushed. *)
Definition queued s : list loc :=
  buf s ++ default [] (work s) ++ batch (flushing s).

(** The life of a [queueItem]: waiting for its batch, notified (the closure
    sits in the closed channel), resolved (the future has run). *)
Inductive item_phase (l : loc) (it : queueItem) : Prop :=
| Waiting : c it = make_chan -> f it = NotRun -> item_phase l it
| Notified (err : option error) :
    c it = Chan (Some (Closure err l)) true -> f it = NotRun ->
    item_phase l it
| Resolved (r : futureResult) :
    c it = Chan None true -> f it = Ran r -> item_phase l it.

(** [p] lists the queued items. *)
Record InvOn (p : list loc) s : Prop := mkInvOn {
  inv_items : forall l it, items s !! l = Some it -> item_phase l it;
  inv_held : forall l, l ∈ adding s \/ l ∈ p ->
    exists it, items s !! l = Some it /\ c it = make_chan /\ f it = NotRun
               /\ inFlight s !! Identity (entry it) = Some l;
  inv_nodup : NoDup p;
  inv_adding : forall l, l ∈ adding s -> l ∉ p;
}.

Definition Inv s : Prop := InvOn (queued s) s.

(** [s'] has every item of [s], with the same entry and, once the future
    has run, the same kept result. *)
Definition keeps s s' : Prop :=
  forall l it, items s !! l = Some it ->
    exists it', items s' !! l = Some it' /\ entry it' = entry it
                /\ (forall r, f it = Ran r -> f it' = Ran r).

(** The entries of a batch, as [doFlush] passes them to the flush function. *)
Definition dataOf s (entries : list loc) : list Entry :=
  omap (fun l => entry <$> items s !! l) entries.

(** The item was notified with the error [err]: the closure carrying it is
    in the channel, or the future has run and keeps it. *)
Definition failed s (l : loc) (err : error) : Prop :=
  exists it, items s !! l = Some it
    /\ (c it = Chan (Some (Closure (Some err) l)) true /\ f it = NotRun
        \/ c it = Chan None true /\ f it = Ran (Returned 0 (Some err))).

(** The batch of the future has been notified: its channel is closed. *)
Definition notified s (fut : IndexFuture) : Prop :=
  let 'FutureOf l := fut in
  exists it, items s !! l = Some it /\ ch_closed (c it) = true.

End Invariant.

(** *** Sample flush functions and queues, for the examples *)

(** Assigns the next free indices, in order, and succeeds. *)
Definition seqFlush : FlushFunc nat :=
  fun data next idx =>
    let assign acc e :=
      (S (fst acc), <[addr e := Z.of_nat (fst acc)]> (snd acc)) in
    let '(next', idx') := fold_left assign data (next, idx) in
    (next', idx', None).

(** Fails with [err] and assigns nothing. *)
Definition failFlush (err : error) : FlushFunc nat :=
  fun _ next idx => (next, idx, Some err).

(** Succeeds but assigns an index to the first entry of the batch only: a
    storage that forgot to call [MarshalBundleData] on the others. *)
Definition firstFlush : FlushFunc nat :=
  fun data next idx =>
    match data with
    | [] => (next, idx, None)
    | e :: _ => (S next, <[addr e := Z.of_nat next]> idx, None)
    end.

Definition stateAfter {W} (flush : FlushFunc W) (ops : list op) (w0 : W)
  : State W :=
  match run flush ops (NewQueue w0) with
  | Ok (_, s) => s
  | _ => NewQueue w0
  end.

Definition leaf_a : Entry := mkEntry 0 "a" "id-a".
Definition leaf_a' : Entry := mkEntry 1 "a" "id-a".
Definition leaf_b : Entry := mkEntry 2 "b" "id-b".
Definition leaf_c : Entry := mkEntry 3 "c" "id-c".

(** Three submissions, then the buffer hands its batch to the worker.  The
    second submission, a duplicate of the first, arrives while the first is
    still between [squashDupes] and [Push]. *)
Definition sample_ops : list op :=
  [OpAddBegin leaf_a; OpAdd leaf_a' None; OpAddEnd 0%nat None;
   OpAdd leaf_b None; OpToWork].

(** What other goroutines do while the worker is between the flush and the
    notifications: a duplicate of the first leaf is submitted, and a new
    leaf starts to be added. *)
Definition sample_meanwhile : list op :=
  [OpAdd leaf_a' None; OpAddBegin leaf_c].

(** *** More vocabulary: who holds an item, and the order of a batch *)

Section Held.
Context {W : Type}.
Implicit Types s : State W.

(** The item is in the hands of an [Add] or queued: it has not been
    notified. *)
Definition held s (l : loc) : Prop := l ∈ adding s \/ l ∈ queued s.

(** The dedup map files every item under the identity of its entry. *)
Definition Registered s : Prop :=
  forall k l, inFlight s !! k = Some l ->
    exists it, items s !! l = Some it /\ Identity (entry it) = k.

(** An item whose channel is still open is held. *)
Definition WaitingHeld s : Prop :=
  forall l it, items s !! l = Some it -> ch_closed (c it) = false -> held s l.

(** The dedup map holds held items only. *)
Definition OnlyHeld s : Prop :=
  forall k l, inFlight s !! k = Some l -> held s l.

(** The future called by a step was handed out by an earlier [Add]. *)
Definition allocated s (o : op) : Prop :=
  match o with
  | OpCall (FutureOf l) => (l < length (items s))%nat
  | _ => True
  end.

(** The flush function assigns an index to every entry of a batch for which
    it returns nil. *)
Definition assigns_all (flush : FlushFunc W) : Prop :=
  forall data w idx w' idx',
    flush data w idx = (w', idx', None) ->
    forall e, e ∈ data -> is_Some (idx' !! addr e).

(** The flush function does not take an index away from an entry: it may
    set the index of an entry, or set it again. *)
Definition keeps_indices (flush : FlushFunc W) : Prop :=
  forall data w idx w' idx' err,
    flush data w idx = (w', idx', err) ->
    forall a, is_Some (idx !! a) -> is_Some (idx' !! a).

(** No future panics, now or later: an item notified without error has an
    entry with an index, no future has run into the panic, and the entries
    of a batch flushed without error have an index. *)
Definition Indexed s : Prop :=
  (forall l it, items s !! l = Some it ->
     (c it = Chan (Some (Closure None l)) true ->
      is_Some (entryIndex s !! addr (entry it)))
     /\ f it <> Ran Panicked)
  /\ (forall es l it,
        flushing s = Some (es, None) -> l ∈ es -> items s !! l = Some it ->
        is_Some (entryIndex s !! addr (entry it))).

(** What the func literal sent by [notify err] gives when it runs while the
    entry has the index [i] (nil if [None]). *)
Definition closure_result (err : option error) (i : option Z) : futureResult :=
  match err, i with
  | Some e, _ => Returned 0 (Some e)
  | None, Some i => Returned i None
  | None, None => Panicked
  end.

End Held.

(** What [q.buf.Push] returns in a step that pushes. *)
Definition pushErrOf (o : op) : option error :=
  match o with
  | OpAdd _ pushErr | OpAddEnd _ pushErr => pushErr
  | _ => None
  end.

End Storage.

(** ** Migration copier (migrate.go) *)

Module Migrate.

(** [bundle] represents the address of an individual entry bundle. *)
Record bundle : Type := Bundle {
  Index : Z;
  Partial : Z;   (* uint8 *)
}.

(** What the copier does to its collaborators, in order.  The log is not
    part of the Go state; it is kept to speak about the calls made. *)
Inductive event : Type :=
| EvIntegratedSize
| EvEnqueue (b : bundle)                     (* m.todo <- b *)
| EvGetEntries (index partial : Z) (ok : bool)
| EvSetEntryBundle (index partial : Z) (data : bytes) (ok : bool)
| EvBackOffDelay (n : nat)                   (* wait retry.BackOffDelay(n) *)
| EvAwaitIntegration (sourceSize : Z).

Section WithStorage.

(** [W] is the state of the world the collaborators live in: the target
    storage and the source log. *)
Context {W : Type}.

(** [MigrationStorage] describes the required functionality from the target
    storage driver. *)
Record MigrationStorage : Type := {
  SetEntryBundle : Z -> Z -> bytes -> W -> option error * W;
  AwaitIntegration : Z -> W -> (bytes + error) * W;
  IntegratedSize : W -> (Z + error) * W;
}.

(** [client.EntryBundleFetcherFunc]. *)
Definition EntryBundleFetcherFunc : Type := Z -> Z -> W -> (bytes + error) * W.

(** [layout.Range(from, N, treeSize)] is not among the sources; the bundle
    addresses it yields are a parameter. *)
Variable layout_Range : Z -> Z -> Z -> list bundle.

(** [copier] controls the migration work.  [todo] holds the work items sent
    and not yet taken by a worker. *)
Record copier : Type := mkCopier {
  world : W;
  todo : list bundle;
  bundlesMigrated : Z;
  calls : list event;
}.

Definition M (A : Type) : Type := copier -> A * copier.

Definition ret {A} (a : A) : M A := fun m => (a, m).

Definition bind {A B} (x : M A) (k : A -> M B) : M B :=
  fun m => let '(a, m') := x m in k a m'.

Notation "'let*' x ':=' m 'in' k" := (bind m (fun x => k))
  (at level 10, x pattern, m at level 100, k at level 200).
Notation "m ';;' k" := (bind m (fun _ => k))
  (at level 100, right associativity).

Definition emit (ev : event) : M unit :=
  fun m => (tt, mkCopier (world m) (todo m) (bundlesMigrated m) (calls m ++ [ev])).

(** A call into the world. *)
Definition call {A} (op : W -> A * W) : M A :=
  fun m => let '(a, w') := op (world m) in
           (a, mkCopier w' (todo m) (bundlesMigrated m) (calls m)).

Definition is_ok {A} (r : A + error) : bool :=
  match r with inl _ => true | inr _ => false end.

Definition is_nil (r : option error) : bool :=
  match r with None => true | Some _ => false end.

Variable storage : MigrationStorage.
Variable getEntries : EntryBundleFetcherFunc.

(** The function handed to [retry.Do] in [migrateWorker]: fetch, then store,
    then count the bundle. *)
Definition fetchAndStore (b : bundle) : M (option error) :=
  let* d := call (getEntries (Index b) (Partial b)) in
  emit (EvGetEntries (Index b) (Partial b) (is_ok d)) ;;
  match d with
  | inr err => ret (Some (ErrFetch (Index b) (Partial b) err))
  | inl d =>
      let* r := call (SetEntryBundle storage (Index b) (Partial b) d) in
      emit (EvSetEntryBundle (Index b) (Partial b) d (is_nil r)) ;;
      match r with
      | Some err => ret (Some (ErrStore (Index b) (Partial b) err))
      | None =>
          (fun m => (tt, mkCopier (world m) (todo m)
                           (u64 (bundlesMigrated m + 1)) (calls m))) ;;
          ret None
      end
  end.

(** [retry.Do(f, retry.Attempts(attempts), retry.DelayType(retry.BackOffDelay))]
    for [attempts > 0]: [f] is run until it returns nil or [attempts] runs
    have failed; after a failed run that is not the last the library
    increments its counter [n] and waits [BackOffDelay(n)], so the waits are
    [BackOffDelay(1)], [BackOffDelay(2)], ...; when the attempts are used up
    the errors of all runs are returned as one error.  [n] (the runs that
    have failed) and [log] are the loop variables of the library. *)
Fixpoint retry_loop (f : M (option error)) (attempts : nat) (n : nat)
    (log : list error) : M (option error) :=
  match attempts with
  | O => ret (Some (ErrRetry log))
  | S more =>
      let* err := f in
      match err with
      | None => ret None
      | Some e =>
          match more with
          | O => ret (Some (ErrRetry (log ++ [e])))
          | S _ => emit (EvBackOffDelay (S n)) ;;
                   retry_loop f more (S n) (log ++ [e])
          end
      end
  end.

Definition retry_Do (f : M (option error)) (attempts : nat) : M (option error) :=
  retry_loop f attempts 0 [].

(** The loop [for b := range m.todo] of one worker, over the work items it
    finds; it gives back the items it leaves behind. *)
Fixpoint migrateItems (bs : list bundle) : M (option error * list bundle) :=
  match bs with
  | [] => ret (None, [])
  | b :: rest =>
      let* err := retry_Do (fetchAndStore b) 10 in
      match err with
      | Some e => ret (Some e, rest)
      | None => migrateItems rest
      end
  end.

(** [migrateWorker] undertakes work items from the [todo] channel. *)
Definition migrateWorker : M (option error) :=
  fun m =>
    let '((err, rest), m') := migrateItems (todo m) m in
    (err, mkCopier (world m') rest (bundlesMigrated m') (calls m')).

(** [populateWork] sends entries to the [todo] work channel. *)
Definition populateWork (from treeSize : Z) : M unit :=
  fun m =>
    let bs := layout_Range from (u64 (treeSize - from)) treeSize in
    (tt, mkCopier (world m) (todo m ++ bs) (bundlesMigrated m)
           (calls m ++ map EvEnqueue bs)).

(** The goroutines [eg.Go(m.migrateWorker)], run one after the other, each
    to its end before the next starts.  The schedules in which their steps
    interleave are those of [MigrateSched]. *)
Fixpoint runWorkers (numWorkers : nat) : M (list (option error)) :=
  match numWorkers with
  | O => ret []
  | S n =>
      let* r := migrateWorker in
      let* rs := runWorkers n in
      ret (r :: rs)
  end.

(** [eg.Wait()]: the first non-nil error returned by a goroutine. *)
Fixpoint eg_Wait (results : list (option error)) : option error :=
  match results with
  | [] => None
  | Some e :: _ => Some e
  | None :: rs => eg_Wait rs
  end.

Definition bytes_Equal (a b : bytes) : bool :=
  if List.list_eq_dec Byte.byte_eq_dec a b then true else false.

(** The goroutine that waits for the integration, for a storage whose
    [AwaitIntegration] returns when it is called; it leaves the root in
    [root] (nil unless it succeeded).  A call that blocks is in
    [MigrateSched]. *)
Definition awaitIntegration (sourceSize : Z) : M (bytes * option error) :=
  let* r := call (AwaitIntegration storage sourceSize) in
  emit (EvAwaitIntegration sourceSize) ;;
  match r with
  | inr err => ret ([], Some (ErrMigrationFailed err))
  | inl r => ret (r, None)
  end.

(** [Migrate] starts the work of copying sourceSize entries from the source
    to the target log.  This is [Migrate] with its goroutines run one after
    the other: [populateWork] to its end (the channel is taken to hold all
    the work), then each worker to its end, then [AwaitIntegration], which
    returns; the goroutine that prints statistics gets no turn.
    [numWorkers] is a count: with a negative [int] the
    [make(chan bundle, numWorkers)] of the first statement panics.  What
    [Migrate] does under every schedule, with a negative [numWorkers] and
    with an [AwaitIntegration] that blocks, is [MigrateSched.Migrate]. *)
Definition Migrate (numWorkers : nat) (sourceSize : Z) (sourceRoot : bytes)
  : M (option error) :=
  let* sz := call (IntegratedSize storage) in
  emit EvIntegratedSize ;;
  match sz with
  | inr err => ret (Some (ErrSize err))
  | inl targetSize =>
      if sourceSize <? targetSize
      then ret (Some (ErrTargetSize targetSize sourceSize))
      else
        populateWork targetSize sourceSize ;;
        let* results := runWorkers numWorkers in
        let* (root, aerr) := awaitIntegration sourceSize in
        match eg_Wait (results ++ [aerr]) with
        | Some err => ret (Some (ErrMigrationFailed err))
        | None =>
            if bytes_Equal root sourceRoot then ret None
            else ret (Some (ErrRootMismatch root sourceRoot))
        end
  end.

(** A fresh copier, as [Migrate] builds it. *)
Definition newCopier (w : W) : copier := mkCopier w [] 0 [].

(** The copier once the size check has passed and the work is sent; [w1] is
    the world [IntegratedSize] left. *)
Definition started (m : copier) (w1 : W) (targetSize sourceSize : Z) : copier :=
  let bs := layout_Range targetSize (u64 (sourceSize - targetSize)) sourceSize in
  mkCopier w1 (todo m ++ bs) (bundlesMigrated m)
    ((calls m ++ [EvIntegratedSize]) ++ map EvEnqueue bs).

End WithStorage.

Arguments MigrationStorage W : clear implicits.
Arguments EntryBundleFetcherFunc W : clear implicits.
Arguments copier W : clear implicits.
Arguments M W A : clear implicits.

(** *** Vocabulary for the properties of the copier *)

Definition is_fetch (ev : event) : bool :=
  match ev with EvGetEntries _ _ _ => true | _ => false end.

Definition is_store (ev : event) : bool :=
  match ev with EvSetEntryBundle _ _ _ _ => true | _ => false end.

Definition is_enqueue (ev : event) : bool :=
  match ev with EvEnqueue _ => true | _ => false end.

Definition backoffs (evs : list event) : list nat :=
  omap (fun ev => match ev with EvBackOffDelay n => Some n | _ => None end) evs.

(** A fetch that succeeded followed by a store that succeeded, for [b]. *)
Definition copied (b : bundle) (evs : list event) : Prop :=
  exists d, [EvGetEntries (Index b) (Partial b) true;
             EvSetEntryBundle (Index b) (Partial b) d true] `suffix_of` evs.

Definition count (p : event -> bool) (evs : list event) : nat :=
  length (List.filter p evs).

(** The error of one failed run for [b]: the fetch or the store failed. *)
Definition attempt_error (b : bundle) (e : error) : Prop :=
  exists cause, e = ErrFetch (Index b) (Partial b) cause
                \/ e = ErrStore (Index b) (Partial b) cause.

(** *** Sample collaborators, for the examples *)

(** The world counts the calls made so far. *)
Definition sample_root : bytes := [Byte.x2a].

(** A target of size [size] that stores every bundle and integrates to
    [sample_root]. *)
Definition sample_storage (size : Z) : MigrationStorage nat := {|
  SetEntryBundle := fun _ _ _ w => (None, S w);
  AwaitIntegration := fun _ w => (inl sample_root, S w);
  IntegratedSize := fun w => (inl size, S w);
|}.

(** A target whose stores always fail. *)
Definition broken_storage : MigrationStorage nat := {|
  SetEntryBundle := fun _ _ _ w => (Some (ErrExternal "disk full"), S w);
  AwaitIntegration := fun _ w => (inl sample_root, S w);
  IntegratedSize := fun w => (inl 0, S w);
|}.

(** A source that answers from the third call on. *)
Definition flaky_source : EntryBundleFetcherFunc nat :=
  fun _ _ w =>
    (if (w <? 3)%nat then inr (ErrExternal "timeout") else inl [Byte.x01], S w).

(** A source that always answers, with an empty bundle. *)
Definition steady_source : EntryBundleFetcherFunc nat :=
  fun _ _ w => (inl [], S w).

(** Bundle addresses for a log of 257 entries copied from scratch. *)
Definition sample_Range (from n treeSize : Z) : list bundle :=
  [Bundle 0 0; Bundle 1 1].

(** The bundles stored with success, in the order of the stores. *)
Definition stored (evs : list event) : list bundle :=
  omap (fun ev => match ev with
                  | EvSetEntryBundle i p _ true => Some (Bundle i p)
                  | _ => None
                  end) evs.

(** What a worker does to a bundle when nothing fails: one fetch, one store
    of the data fetched. *)
Definition copy_events (b : bundle) (d : bytes) : list event :=
  [EvGetEntries (Index b) (Partial b) true;
   EvSetEntryBundle (Index b) (Partial b) d true].

(** Starting in the world [w], the bundles [bs] are fetched and stored one
    after the other and nothing fails: [ds] are the data the fetches
    return, each stored as fetched, and [w'] is the world left. *)
Inductive copies {W} (storage : MigrationStorage W)
    (getEntries : EntryBundleFetcherFunc W)
  : W -> list bundle -> list bytes -> W -> Prop :=
| copies_nil w : copies storage getEntries w [] [] w
| copies_cons w b bs d ds w1 w2 w3 :
    getEntries (Index b) (Partial b) w = (inl d, w1) ->
    SetEntryBundle storage (Index b) (Partial b) d w1 = (None, w2) ->
    copies storage getEntries w2 bs ds w3 ->
    copies storage getEntries w (b :: bs) (d :: ds) w3.

(** A source that always answers, with two bytes. *)
Definition full_source : EntryBundleFetcherFunc nat :=
  fun _ _ w => (inl [Byte.x01; Byte.x02], S w).

(** The copier of the examples once the size check has passed: the two
    bundles of [sample_Range] are in the channel. *)
Definition sample_started : copier nat :=
  started sample_Range (newCopier 0%nat) 1%nat 0 257.

End Migrate.

(** ** The goroutines of Migrate (migrate.go)

    [Migrate] starts [populateWork], the statistics loop, [numWorkers]
    workers and the wait for the integration as goroutines, and waits in
    [eg.Wait()] for the workers and the wait for the integration.  Here the
    goroutines take their steps in the order a schedule names: the calls
    into the source and the target are the steps of a worker, a send or the
    [close] of the channel is a step of [populateWork]. *)

Module MigrateSched.
Import Migrate.

(** The goroutines [Migrate] starts. *)
Inductive goroutine : Type :=
| Populate              (* go m.populateWork(targetSize, sourceSize) *)
| Stats                 (* the goroutine that prints statistics *)
| Worker (i : nat)      (* the i-th eg.Go(m.migrateWorker) *)
| Await.                (* eg.Go(... m.storage.AwaitIntegration ...) *)

(** Where a worker is in [migrateWorker].  Inside [retry.Do], [n] is the
    number of runs for [b] that have failed and [log] their errors. *)
Inductive worker : Type :=
| Receiving
    (* at [for b := range m.todo] *)
| Fetching (b : bundle) (n : nat) (log : list error)
    (* about to call [m.getEntries] *)
| Storing (b : bundle) (n : nat) (log : list error) (d : bytes)
    (* [getEntries] returned [d]; about to call [SetEntryBundle] *)
| Done (r : option error).
    (* [migrateWorker] has returned [r] *)

(** Where the goroutine of [AwaitIntegration] is. *)
Inductive waiter : Type :=
| NotCalled
| Calling                          (* inside [AwaitIntegration] *)
| Answered (r : bytes + error).    (* [AwaitIntegration] has returned *)

(** What [Migrate] does for its caller. *)
Inductive outcome : Type :=
| Returns (err : option error)
| Panics     (* [make(chan bundle, numWorkers)] panics *)
| Waits.     (* in [eg.Wait()]: a goroutine of the group has not returned *)

Definition is_await (ev : event) : bool :=
  match ev with EvAwaitIntegration _ => true | _ => false end.

Section WithStorage.

Context {W : Type}.

(** [MigrationStorage].  A call of [AwaitIntegration] takes its time: it
    "should block until the storage driver has received and integrated all
    outstanding entry bundles implied by sourceSize", integrating in the
    background or in-line.  The call is therefore given in turns: a turn may
    change the world, and the call returns at the end of a turn ([Some]) or
    goes on ([None]). *)
Record MigrationStorage : Type := {
  SetEntryBundle : Z -> Z -> bytes -> W -> option error * W;
  AwaitIntegration : Z -> W -> option (bytes + error) * W;
  IntegratedSize : W -> (Z + error) * W;
}.

(** [layout.Range] and [layout.EntryBundleWidth] are not among the sources:
    parameters. *)
Variable layout_Range : Z -> Z -> Z -> list bundle.
Variable EntryBundleWidth : Z.

(** The largest capacity for which [make(chan bundle, _)] returns on the
    platform; for a negative capacity, and beyond this one, it panics. *)
Variable maxChan : Z.

Variable storage : MigrationStorage.
Variable getEntries : EntryBundleFetcherFunc W.

(** The [copier], its channel, and the goroutines around it. *)
Record copier : Type := mkCopier {
  world : W;
  pending : list bundle;    (* what [populateWork] has still to send *)
  closed : bool;            (* [close(m.todo)] has run *)
  todo : list bundle;       (* the items in the channel [m.todo] *)
  workers : list worker;
  await : waiter;
  err : option error;       (* [eg]: the first non-nil error returned *)
  bundlesMigrated : Z;
  calls : list event;
}.

Definition set_world (w : W) (m : copier) : copier :=
  mkCopier w (pending m) (closed m) (todo m) (workers m) (await m) (err m)
    (bundlesMigrated m) (calls m).
Definition set_pending (p : list bundle) (m : copier) : copier :=
  mkCopier (world m) p (closed m) (todo m) (workers m) (await m) (err m)
    (bundlesMigrated m) (calls m).
Definition set_closed (c : bool) (m : copier) : copier :=
  mkCopier (world m) (pending m) c (todo m) (workers m) (await m) (err m)
    (bundlesMigrated m) (calls m).
Definition set_todo (t : list bundle) (m : copier) : copier :=
  mkCopier (world m) (pending m) (closed m) t (workers m) (await m) (err m)
    (bundlesMigrated m) (calls m).
Definition set_workers (ws : list worker) (m : copier) : copier :=
  mkCopier (world m) (pending m) (closed m) (todo m) ws (await m) (err m)
    (bundlesMigrated m) (calls m).
Definition set_await (a : waiter) (m : copier) : copier :=
  mkCopier (world m) (pending m) (closed m) (todo m) (workers m) a (err m)
    (bundlesMigrated m) (calls m).
Definition set_err (e : option error) (m : copier) : copier :=
  mkCopier (world m) (pending m) (closed m) (todo m) (workers m) (await m) e
    (bundlesMigrated m) (calls m).
Definition set_bundlesMigrated (n : Z) (m : copier) : copier :=
  mkCopier (world m) (pending m) (closed m) (todo m) (workers m) (await m)
    (err m) n (calls m).

Definition emit (ev : event) (m : copier) : copier :=
  mkCopier (world m) (pending m) (closed m) (todo m) (workers m) (await m)
    (err m) (bundlesMigrated m) (calls m ++ [ev]).

(** A call into the world. *)
Definition call {A} (op : W -> A * W) (m : copier) : A * copier :=
  let '(a, w') := op (world m) in (a, set_world w' m).

(** A goroutine of [eg] returns [e]: the group keeps the first error. *)
Definition eg_return (e : error) (m : copier) : copier :=
  match err m with
  | None => set_err (Some e) m
  | Some _ => m
  end.

(** One step of [populateWork]: the next send, which blocks while the
    channel is full (with capacity 0 it needs a receiver, and then there is
    no worker), or, after the last send, the deferred [close(m.todo)]. *)
Definition populate_step (numWorkers : Z) (m : copier) : copier :=
  match pending m with
  | b :: rest =>
      if Z.of_nat (length (todo m)) <? numWorkers
      then emit (EvEnqueue b) (set_todo (todo m ++ [b]) (set_pending rest m))
      else m
  | [] => if closed m then m else set_closed true m
  end.

(** One step of the statistics goroutine: it leaves at once when
    [bundlesToMigrate] is 0; else each round of its loop calls
    [IntegratedSize] and logs. *)
Definition stats_step (targetSize sourceSize : Z) (m : copier) : copier :=
  let bundlesToMigrate :=
    u64 (u64 (sourceSize / EntryBundleWidth - targetSize / EntryBundleWidth)
         + 1) in
  if bundlesToMigrate =? 0 then m
  else let '(_, m1) := call (IntegratedSize storage) m in
       emit EvIntegratedSize m1.

(** [retry.Do] after a run for [b] has failed with [e], [n] runs having
    failed before: the tenth failure ends it with the errors of all runs;
    before that it waits [BackOffDelay(n + 1)] and runs the function
    again. *)
Definition failed_run (b : bundle) (n : nat) (log : list error) (e : error)
    (m : copier) : worker * copier :=
  if (S n =? 10)%nat
  then (Done (Some (ErrRetry (log ++ [e]))), m)
  else (Fetching b (S n) (log ++ [e]), emit (EvBackOffDelay (S n)) m).

(** One step of a worker: a receive from the channel (which blocks while
    the channel is empty and open), a call of [getEntries], or a call of
    [SetEntryBundle] with what follows it up to the next call or receive. *)
Definition worker_step (wk : worker) (m : copier) : worker * copier :=
  match wk with
  | Receiving =>
      match todo m with
      | b :: rest => (Fetching b 0 [], set_todo rest m)
      | [] => if closed m then (Done None, m) else (Receiving, m)
      end
  | Fetching b n log =>
      let '(d, m1) := call (getEntries (Index b) (Partial b)) m in
      let m2 := emit (EvGetEntries (Index b) (Partial b) (is_ok d)) m1 in
      match d with
      | inl d => (Storing b n log d, m2)
      | inr e => failed_run b n log (ErrFetch (Index b) (Partial b) e) m2
      end
  | Storing b n log d =>
      let '(r, m1) := call (SetEntryBundle storage (Index b) (Partial b) d) m in
      let m2 := emit (EvSetEntryBundle (Index b) (Partial b) d (is_nil r)) m1 in
      match r with
      | None =>
          (Receiving, set_bundlesMigrated (u64 (bundlesMigrated m2 + 1)) m2)
      | Some e => failed_run b n log (ErrStore (Index b) (Partial b) e) m2
      end
  | Done r => (Done r, m)
  end.

(** One step of the goroutine of [AwaitIntegration]: the call, or one more
    turn of it. *)
Definition await_step (sourceSize : Z) (m : copier) : copier :=
  match await m with
  | Answered _ => m
  | a =>
      let m0 := match a with
                | NotCalled => emit (EvAwaitIntegration sourceSize) m
                | _ => m
                end in
      let '(r, m1) := call (AwaitIntegration storage sourceSize) m0 in
      match r with
      | None => set_await Calling m1
      | Some (inl root) => set_await (Answered (inl root)) m1
      | Some (inr e) =>
          eg_return (ErrMigrationFailed e) (set_await (Answered (inr e)) m1)
      end
  end.

(** The step of the goroutine [g]; a goroutine that is blocked or has
    returned leaves everything as it is. *)
Definition step (numWorkers targetSize sourceSize : Z) (g : goroutine)
    (m : copier) : copier :=
  match g with
  | Populate => populate_step numWorkers m
  | Stats => stats_step targetSize sourceSize m
  | Worker i =>
      match workers m !! i with
      | None | Some (Done _) => m
      | Some wk =>
          let '(wk', m1) := worker_step wk m in
          let m2 := set_workers (<[i := wk']> (workers m1)) m1 in
          match wk' with
          | Done (Some e) => eg_return e m2
          | _ => m2
          end
      end
  | Await => await_step sourceSize m
  end.

Fixpoint run (numWorkers targetSize sourceSize : Z) (sched : list goroutine)
    (m : copier) : copier :=
  match sched with
  | [] => m
  | g :: gs =>
      run numWorkers targetSize sourceSize gs
        (step numWorkers targetSize sourceSize g m)
  end.

Definition is_done (wk : worker) : bool :=
  match wk with Done _ => true | _ => false end.

Definition is_answered (a : waiter) : bool :=
  match a with Answered _ => true | _ => false end.

Definition is_storing (wk : worker) : bool :=
  match wk with Storing _ _ _ _ => true | _ => false end.

(** [eg.Wait()] returns once every goroutine of the group has returned. *)
Definition eg_done (m : copier) : bool :=
  forallb is_done (workers m) && is_answered (await m).

(** The variable [root] of [Migrate]: set by the goroutine of
    [AwaitIntegration] when the call succeeds. *)
Definition root (m : copier) : bytes :=
  match await m with
  | Answered (inl r) => r
  | _ => []
  end.

(** A fresh copier, as [Migrate] builds it. *)
Definition newCopier (w : W) : copier :=
  mkCopier w [] false [] [] NotCalled None 0 [].

(** The copier when the goroutines start. *)
Definition start (numWorkers targetSize sourceSize : Z) (m : copier) : copier :=
  set_workers (replicate (Z.to_nat numWorkers) Receiving)
    (set_pending
       (layout_Range targetSize (u64 (sourceSize - targetSize)) sourceSize) m).

(** [Migrate], with the steps its goroutines take until it returns, or as
    far as the schedule goes: at the end of [sched] it has returned if the
    goroutines of the group have, and is waiting in [eg.Wait()] if not. *)
Definition Migrate (sched : list goroutine) (numWorkers : Z) (sourceSize : Z)
    (sourceRoot : bytes) (w : W) : outcome * copier :=
  if (numWorkers <? 0) || (maxChan <? numWorkers)
  then (Panics, newCopier w)
  else
    let '(sz, m0) := call (IntegratedSize storage) (newCopier w) in
    let m1 := emit EvIntegratedSize m0 in
    match sz with
    | inr e => (Returns (Some (ErrSize e)), m1)
    | inl targetSize =>
        if sourceSize <? targetSize
        then (Returns (Some (ErrTargetSize targetSize sourceSize)), m1)
        else
          let m2 := run numWorkers targetSize sourceSize sched
                      (start numWorkers targetSize sourceSize m1) in
          if eg_done m2 then
            match err m2 with
            | Some e => (Returns (Some (ErrMigrationFailed e)), m2)
            | None =>
                if bytes_Equal (root m2) sourceRoot then (Returns None, m2)
                else (Returns (Some (ErrRootMismatch (root m2) sourceRoot)), m2)
            end
          else (Waits, m2)
    end.

(** The copier when [Migrate] returns before it starts a goroutine. *)
Definition early (w1 : W) : copier :=
  mkCopier w1 [] false [] [] NotCalled None 0 [EvIntegratedSize].

(** The paths through [Migrate]: what it gives its caller and the copier it
    leaves, by what happens on the way. *)
Inductive path (sched : list goroutine) (numWorkers sourceSize : Z)
    (sourceRoot : bytes) (w : W) : outcome -> copier -> Prop :=
| path_panic :
    numWorkers < 0 \/ maxChan < numWorkers ->
    path sched numWorkers sourceSize sourceRoot w Panics (newCopier w)
| path_size e w1 :
    0 <= numWorkers <= maxChan ->
    IntegratedSize storage w = (inr e, w1) ->
    path sched numWorkers sourceSize sourceRoot w
      (Returns (Some (ErrSize e))) (early w1)
| path_ahead targetSize w1 :
    0 <= numWorkers <= maxChan ->
    IntegratedSize storage w = (inl targetSize, w1) ->
    sourceSize < targetSize ->
    path sched numWorkers sourceSize sourceRoot w
      (Returns (Some (ErrTargetSize targetSize sourceSize))) (early w1)
| path_group targetSize w1 m :
    0 <= numWorkers <= maxChan ->
    IntegratedSize storage w = (inl targetSize, w1) ->
    targetSize <= sourceSize ->
    m = run numWorkers targetSize sourceSize sched
          (start numWorkers targetSize sourceSize (early w1)) ->
    path sched numWorkers sourceSize sourceRoot w
      (if eg_done m then
         match err m with
         | Some e => Returns (Some (ErrMigrationFailed e))
         | None => if bytes_Equal (root m) sourceRoot then Returns None
                   else Returns (Some (ErrRootMismatch (root m) sourceRoot))
         end
       else Waits) m.

(** *** Where the bundles are *)

(** The bundle a worker has taken from the channel and not yet stored. *)
Definition holding (wk : worker) : option bundle :=
  match wk with
  | Fetching b _ _ | Storing b _ _ _ => Some b
  | _ => None
  end.

(** While no goroutine has returned an error, every bundle of [range] is in
    one place: stored, in the hands of a worker, in the channel, or still to
    be sent.  The counter counts the bundles stored.  The channel is closed
    after the last send, and a worker returns nil only from the closed and
    empty channel. *)
Definition Copying (range : list bundle) (m : copier) : Prop :=
  (err m = None ->
   stored (calls m) ++ omap holding (workers m) ++ todo m ++ pending m
   ≡ₚ range)
  /\ bundlesMigrated m = u64 (Z.of_nat (length (stored (calls m))))
  /\ (closed m = true -> pending m = [])
  /\ (forall i, workers m !! i = Some (Done None) ->
        todo m = [] /\ closed m = true).

(** *** Invariants of the group *)

(** The error the group holds is an error a goroutine has returned, and the
    group holds one as soon as a goroutine has returned one. *)
Definition Recorded (m : copier) : Prop :=
  match err m with
  | None =>
      (forall i e, workers m !! i <> Some (Done (Some e)))
      /\ (forall e, await m <> Answered (inr e))
  | Some e =>
      (exists i, workers m !! i = Some (Done (Some e)))
      \/ (exists e0, await m = Answered (inr e0) /\ e = ErrMigrationFailed e0)
  end.

(** [AwaitIntegration] is called once, when its goroutine starts. *)
Definition CalledOnce (m : copier) : Prop :=
  count is_await (calls m)
  = match await m with NotCalled => 0%nat | _ => 1%nat end.

End WithStorage.

Arguments MigrationStorage W : clear implicits.
Arguments copier W : clear implicits.

(** *** Vocabulary for the properties of the goroutines *)

Definition gave_up (wk : worker) : Prop := exists e, wk = Done (Some e).

(** A worker inside [retry.Do] is in one of its ten runs for its bundle and
    has logged the error of each run that failed; a worker that gave up
    returns the errors of ten failed runs for one bundle. *)
Definition in_attempts (wk : worker) : Prop :=
  match wk with
  | Fetching b n log | Storing b n log _ =>
      (n < 10)%nat /\ length log = n /\ Forall (attempt_error b) log
  | Done (Some e) =>
      exists b log, e = ErrRetry log /\ length log = 10%nat
                    /\ Forall (attempt_error b) log
  | _ => True
  end.

(** *** Sample collaborators, for the examples *)

(** The world counts the bundles stored. *)

(** A target of size 0 that stores every bundle; its [AwaitIntegration]
    returns [sample_root] once two bundles are stored, and goes on waiting
    until then. *)
Definition patient_storage : MigrationStorage nat := {|
  SetEntryBundle := fun _ _ _ w => (None, S w);
  AwaitIntegration := fun _ w =>
    (if (2 <=? w)%nat then Some (inl sample_root) else None, w);
  IntegratedSize := fun w => (inl 0, w);
|}.

(** A target that is ahead of the source. *)
Definition ahead_storage : MigrationStorage nat := {|
  SetEntryBundle := fun _ _ _ w => (None, S w);
  AwaitIntegration := fun _ w => (Some (inl sample_root), w);
  IntegratedSize := fun w => (inl 300, w);
|}.

(** A source that always answers. *)
Definition good_source : EntryBundleFetcherFunc nat :=
  fun _ _ w => (inl [Byte.x01], w).

(** A source that never answers. *)
Definition dead_source : EntryBundleFetcherFunc nat :=
  fun _ _ w => (inr (ErrExternal "unreachable"), w).

Definition sample_maxChan : Z := 2 ^ 32.

(** Two workers copy the two bundles of [sample_Range], their steps
    interleaved; the wait for the integration starts first and returns
    last. *)
Definition sample_sched : list goroutine :=
  [Await; Populate; Populate; Worker 0; Worker 1; Worker 1; Worker 0;
   Worker 1; Await; Stats; Worker 0; Populate; Worker 0; Worker 1; Await].

(** One worker makes its ten attempts for the first bundle. *)
Definition give_up_sched : list goroutine :=
  Populate :: Await :: repeat (Worker 0) 11.

End MigrateSched.


(** ** Tile read API (cmd/conformance/mysql) *)

Module TilesAPI.

(** An [http.ResponseWriter]: the header map the handler edits, and what has
    gone out: the status line with the headers as they were when it was
    written, and the body. *)
Record ResponseWriter : Type := mkResponse {
  Header : gmap string string;
  status : option Z;
  sentHeader : gmap string string;
  body : bytes;
}.

Definition newResponse : ResponseWriter := mkResponse ∅ None ∅ [].

(** [w.Header().Set(k, v)]. *)
Definition Header_Set (k v : string) (w : ResponseWriter) : ResponseWriter :=
  mkResponse (<[k := v]> (Header w)) (status w) (sentHeader w) (body w).

(** [w.WriteHeader(code)]: the first call sends the status and the headers;
    later calls do nothing. *)
Definition WriteHeader (code : Z) (w : ResponseWriter) : ResponseWriter :=
  match status w with
  | Some _ => w
  | None => mkResponse (Header w) (Some code) (Header w) (body w)
  end.

(** [w.Write(b)]: sends status 200 first if no status has been sent. *)
Definition Write (b : bytes) (w : ResponseWriter) : ResponseWriter :=
  let w := WriteHeader 200 w in
  mkResponse (Header w) (status w) (sentHeader w) (body w ++ b).

Definition StatusBadRequest : Z := 400.
Definition StatusNotFound : Z := 404.
Definition StatusInternalServerError : Z := 500.

Definition immutable : string := "public, max-age=31536000, immutable".

Section Handlers.

(** [layout.ParseTileLevelIndexWidth] is not among the sources: it gives
    level, index and width of the requested tile, or an error. *)
Variable ParseTileLevelIndexWidth : string -> string -> (Z * Z * Z) + error.

(** [storage.ReadTile]: the tile bytes, nil (here [None]) if there is no
    such tile, or an error. *)
Variable ReadTile : Z -> Z -> Z -> option bytes + error.

(** [err.Error()]. *)
Variable Error : error -> string.

(** The handler that [configureTilesReadAPI] registers for
    [GET /tile/{level}/{index...}]; [level] and [index] are the path values
    of the request.  A failing [w.Write] is only logged. *)
Definition tileHandler (level index : string) (w : ResponseWriter)
  : ResponseWriter :=
  match ParseTileLevelIndexWidth level index with
  | inr err =>
      let w := WriteHeader StatusBadRequest w in
      Write (list_byte_of_string ("Malformed URL: " ++ Error err)) w
  | inl (level, index, width) =>
      match ReadTile level index width with
      | inr err => WriteHeader StatusInternalServerError w
      | inl None => WriteHeader StatusNotFound w
      | inl (Some tile) =>
          let w := Header_Set "Cache-Control" immutable w in
          Write tile w
      end
  end.

End Handlers.

(** A request for a partial tile names a width strictly between 0 and the
    full width of 256. *)
Definition partialTile (width : Z) : Prop := 0 < width < 256.

(** *** A sample request, for the examples: the partial tile of width 5 at
    level 0, index 0, which the storage holds. *)
Definition sample_parse (level index : string) : (Z * Z * Z) + error :=
  if String.eqb index "000.p/5" then inl (0, 0, 5)
  else inr (ErrExternal "bad path").

Definition sample_tile : bytes := [Byte.x68; Byte.x69].

Definition sample_ReadTile (level index width : Z) : option bytes + error :=
  if (level =? 0) && (index =? 0) && (width =? 5) then inl (Some sample_tile)
  else inl None.

Definition sample_Error (e : error) : string := "error".

End TilesAPI.

(** ** The other handlers of the conformance server (cmd/conformance/mysql) *)

Module Conformance.
Import TilesAPI.

(** [fmt.Sprintf("%d", idx)] for a [uint64]: its decimal digits. *)
Definition Sprintf_d (idx : Z) : string :=
  NilZero.string_of_uint (N.to_uint (Z.to_N idx)).

Section Handlers.

(** What [storage.ReadCheckpoint] returns to the request: the checkpoint,
    nil (here [None]) if there is none, or an error. *)
Variable ReadCheckpoint : option bytes + error.

(** [layout.ParseTileIndexWidth] is not among the sources: it gives index
    and width of the requested bundle, or an error. *)
Variable ParseTileIndexWidth : string -> (Z * Z) + error.

(** [storage.ReadEntryBundle]. *)
Variable ReadEntryBundle : Z -> option bytes + error.

(** [storage.Add(ctx, tessera.NewEntry(b))()]: the entry is added and its
    future called at once; the index and the error are what the future
    returns.  A future that panics is not modelled here. *)
Variable Add : bytes -> Z * option error.

(** [err.Error()]. *)
Variable Error : error -> string.

(** The handler for [GET /checkpoint]. *)
Definition checkpointHandler (w : ResponseWriter) : ResponseWriter :=
  match ReadCheckpoint with
  | inr err => WriteHeader StatusInternalServerError w
  | inl None => WriteHeader StatusNotFound w
  | inl (Some checkpoint) => Write checkpoint w
  end.

(** The handler for [GET /tile/entries/{index...}]; [index] is the path
    value of the request.  The width that was parsed is dropped. *)
Definition entriesHandler (index : string) (w : ResponseWriter)
  : ResponseWriter :=
  match ParseTileIndexWidth index with
  | inr err =>
      let w := WriteHeader StatusBadRequest w in
      Write (list_byte_of_string ("Malformed URL: " ++ Error err)) w
  | inl (index, _) =>
      match ReadEntryBundle index with
      | inr err => WriteHeader StatusInternalServerError w
      | inl None => WriteHeader StatusNotFound w
      | inl (Some entryBundle) => Write entryBundle w
      end
  end.

(** The handler for [POST /add]; [b] is what [io.ReadAll(r.Body)]
    returns. *)
Definition addHandler (b : bytes + error) (w : ResponseWriter)
  : ResponseWriter :=
  match b with
  | inr err => WriteHeader StatusInternalServerError w
  | inl b =>
      match Add b with
      | (_, Some err) =>
          let w := WriteHeader StatusInternalServerError w in
          Write (list_byte_of_string (Error err)) w
      | (idx, None) => Write (list_byte_of_string (Sprintf_d idx)) w
      end
  end.

End Handlers.

(** The status the client gets: net/http sends 200 for a handler that
    returns without having sent a status. *)
Definition sentStatus (w : ResponseWriter) : Z := default 200 (status w).

(** *** A sample server, for the examples *)

Definition sample_ParseTileIndexWidth (index : string) : (Z * Z) + error :=
  if String.eqb index "000" then inl (0, 256)
  else if String.eqb index "000.p/5" then inl (0, 5)
  else inr (ErrExternal "bad path").

Definition sample_ReadEntryBundle (index : Z) : option bytes + error :=
  if index =? 0 then inl (Some sample_tile) else inl None.

(** Assigns index 42 to everything but the empty leaf. *)
Definition sample_Add (b : bytes) : Z * option error :=
  match b with
  | [] => (0, Some (ErrExternal "empty leaf"))
  | _ => (42, None)
  end.

End Conformance.

(** ** The clients of the load generator (hammer) *)

Module Hammer.

(** *** Round robin over the configured clients *)

Section RoundRobin.
Context {A : Type}.

(** [roundRobinFetcher] and [roundRobinLeafWriter] are the same struct but
    for the type of the clients ([f], [ws]).  [idx] is a Go [int]: it starts
    at 0 and [next], the only code that writes it, leaves it below
    [len(rr.f)], so it is never negative and [idx + 1] never overflows. *)
Record roundRobin : Type := RoundRobin {
  idx : nat;
  f : list A;
}.

(** [next]: [rr.f[rr.idx]] panics (here [None]) on an index out of range. *)
Definition next (rr : roundRobin) : option (A * roundRobin) :=
  match f rr !! idx rr with
  | None => None
  | Some x => Some (x, RoundRobin ((idx rr + 1) mod length (f rr)) (f rr))
  end.

(** [n] calls of [next], one after the other, and the clients they
    return. *)
Fixpoint nexts (n : nat) (rr : roundRobin) : option (list A * roundRobin) :=
  match n with
  | O => Some ([], rr)
  | S n' =>
      match next rr with
      | None => None
      | Some (x, rr1) =>
          match nexts n' rr1 with
          | None => None
          | Some (xs, rr') => Some (x :: xs, rr')
          end
      end
  end.

End RoundRobin.

Arguments roundRobin A : clear implicits.

(** *** The clients built from the flags *)

(** A call returns, ends the process ([klog.Exitf]), or panics. *)
Inductive Exit (A : Type) : Type :=
| Returns (a : A)
| Exits
| Panics.
Arguments Returns {A} a.
Arguments Exits {A}.
Arguments Panics {A}.

Definition andThen {A B} (x : Exit A) (k : A -> Exit B) : Exit B :=
  match x with
  | Returns a => k a
  | Exits => Exits
  | Panics => Panics
  end.

(** The loops [for _, s := range ... { xs = append(xs, g(s)) }]. *)
Fixpoint forRange {A B} (g : A -> Exit B) (l : list A) : Exit (list B) :=
  match l with
  | [] => Returns []
  | s :: l' =>
      andThen (g s) (fun x =>
      andThen (forRange g l') (fun xs => Returns (x :: xs)))
  end.

(** [strings.HasSuffix]. *)
Definition HasSuffix (s suffix : string) : bool :=
  (String.length suffix <=? String.length s)%nat
  && String.eqb
       (substring (String.length s - String.length suffix)
          (String.length suffix) s)
       suffix.

Definition supportedScheme (scheme : string) : bool :=
  String.eqb scheme "http" || String.eqb scheme "https"
  || String.eqb scheme "file".

Section Flags.

(** A URL, with what the code uses of package net/url: [url.Parse] and the
    method [Parse] of a URL, which fail on some strings, and the scheme. *)
Variable URL : Type.
Variable url_Parse : string -> option URL.
Variable URL_Parse : URL -> string -> option URL.
Variable Scheme : URL -> string.

(** A [client.Fetcher] made by [newFetcher] is a closure over the root. *)
Inductive Fetcher : Type := FetcherOf (root : URL).

Record httpLeafWriter : Type := HttpLeafWriter { u : URL }.

(** The func literal [rootUrlOrDie]. *)
Definition rootUrlOrDie (s : string) : Exit URL :=
  let s := if HasSuffix s "/" then s else (s ++ "/")%string in
  match url_Parse s with
  | Some rootURL => Returns rootURL
  | None => Exits
  end.

(** [newFetcher] creates a Fetcher for the log at the given root
    location. *)
Definition newFetcher (root : URL) : Exit Fetcher :=
  if supportedScheme (Scheme root) then Returns (FetcherOf root) else Panics.

Definition newLogClientsFromFlags (logURL writeLogURL : list string)
  : Exit (roundRobin Fetcher * roundRobin httpLeafWriter) :=
  match logURL with
  | [] => Exits
  | _ =>
      let writeLogURL :=
        match writeLogURL with [] => logURL | _ => writeLogURL end in
      andThen (forRange (fun s => andThen (rootUrlOrDie s) newFetcher) logURL)
        (fun fetchers =>
      andThen (forRange
                 (fun s => andThen (rootUrlOrDie s) (fun root =>
                    match URL_Parse root "add" with
                    | Some addURL => Returns (HttpLeafWriter addURL)
                    | None => Exits
                    end)) writeLogURL)
        (fun writers =>
      Returns (RoundRobin 0 fetchers, RoundRobin 0 writers)))
  end.

End Flags.

(** A log URL with the slash that [rootUrlOrDie] adds when it is missing. *)
Definition withSlash (s : string) : string :=
  if HasSuffix s "/" then s else (s ++ "/")%string.

(** *** Writing a leaf *)

(** What [Write] looks at in the HTTP response: the status code, method
    and URL of the request that was answered (they differ from those of
    the request sent after a redirect), the header [RetryAfter], and the
    body. *)
Record Response : Type := HTTPResponse {
  StatusCode : Z;
  Method : string;
  RequestURL : string;
  RetryAfter : string;
  Body : bytes;
}.

(** The errors [Write] makes, each with the arguments of its
    [fmt.Errorf]. *)
Inductive writeError : Type :=
| ErrCreateRequest (cause : string)  (* "failed to create request: %v" *)
| ErrWriteLeaf (cause : string)      (* "failed to write leaf: %v" *)
| ErrReadBody (cause : string)       (* "failed to read body: %v" *)
| ErrRedirected (url : string)       (* "write leaf was redirected to %s" *)
| ErrNotAvailable (code : Z) (body : bytes)
    (* "log not available. Status code: %d. Body: %q %w", with ErrRetry *)
| ErrNotOK (code : Z) (body : bytes)
    (* "write leaf was not OK. Status code: %d. Body: %q" *)
| ErrParseResponse (body : bytes).
    (* "write leaf failed to parse response: %v" *)

(** [errors.Is(err, ErrRetry)]: only the error built with [%w] wraps
    [ErrRetry]. *)
Definition Is_ErrRetry (e : writeError) : bool :=
  match e with ErrNotAvailable _ _ => true | _ => false end.

(** [bytes.Split(body, []byte("\n"))[0]]: the body up to its first newline. *)
Fixpoint firstPart (body : bytes) : bytes :=
  match body with
  | [] => []
  | b :: rest => if Byte.eqb b Byte.x0a then [] else b :: firstPart rest
  end.

(** [strconv.ParseUint(s, 10, 64)]: decimal digits only, at least one, and a
    value that fits 64 bits; [None] is its error. *)
Definition ParseUint (s : string) : option Z :=
  match NilZero.uint_of_string s with
  | None => None
  | Some d =>
      let n := Z.of_N (N.of_uint d) in
      if n <? 2 ^ 64 then Some n else None
  end.

(** [httpLeafWriter.Write], from the results of its three calls:
    [http.NewRequest] ([reqErr]), [hc.Do] ([resp]) and [io.ReadAll]
    ([readErr]).  The third component is the header value handed to
    [retryDelay] when [Write] sleeps before it returns. *)
Definition Write (reqErr : option string) (resp : Response + string)
    (readErr : option string) : Z * option writeError * option string :=
  match reqErr with
  | Some err => (0, Some (ErrCreateRequest err), None)
  | None =>
      match resp with
      | inr err => (0, Some (ErrWriteLeaf err), None)
      | inl resp =>
          match readErr with
          | Some err => (0, Some (ErrReadBody err), None)
          | None =>
              if StatusCode resp =? 200 then
                if negb (String.eqb (Method resp) "POST")
                then (0, Some (ErrRedirected (RequestURL resp)), None)
                else
                  match ParseUint (string_of_list_byte (firstPart (Body resp))) with
                  | None => (0, Some (ErrParseResponse (Body resp)), None)
                  | Some index => (index, None, None)
                  end
              else if (StatusCode resp =? 503) || (StatusCode resp =? 502)
                      || (StatusCode resp =? 504)
              then (0, Some (ErrNotAvailable (StatusCode resp) (Body resp)),
                    Some (RetryAfter resp))
              else (0, Some (ErrNotOK (StatusCode resp) (Body resp)), None)
          end
      end
  end.

(** The response a client gets when nothing comes between it and the
    handler: no redirect, no proxy. *)
Definition delivered (url : string) (w : TilesAPI.ResponseWriter) : Response :=
  HTTPResponse (Conformance.sentStatus w) "POST" url
    (default ""%string (TilesAPI.sentHeader w !! "RetryAfter"%string))
    (TilesAPI.body w).

(** *** Sample flags, for the examples *)

Definition sample_url_Parse (s : string) : option string :=
  if String.eqb s "" then None else Some s.

Definition sample_URL_Parse (root ref : string) : option string :=
  Some (root ++ ref)%string.

Definition sample_Scheme (url : string) : string :=
  if String.prefix "https:" url then "https"
  else if String.prefix "http:" url then "http"
  else "".

End Hammer.

(** * Proofs *)

(** ** Layout *)

Module LayoutFacts.
Import Layout.

Lemma u64_small x : is_u64 x -> u64 x = x.
Proof. intros H. unfold u64. apply Z.mod_small. exact H. Qed.

Lemma shr64_small_count x s : 0 <= s < 64 -> shr64 x s = x / 2 ^ s.
Proof.
  intros Hs. unfold shr64.
  destruct (Z.ltb_spec s 64) as [_|Hge]; [|lia].
  apply Z.shiftr_div_pow2. lia.
Qed.

Lemma shr64_big_count x s : 64 <= s -> shr64 x s = 0.
Proof.
  intros Hs. unfold shr64.
  destruct (Z.ltb_spec s 64) as [Hlt|_]; [lia|reflexivity].
Qed.

Lemma pow256 l : 0 <= l -> 256 ^ l = 2 ^ (l * 8).
Proof.
  intros Hl. replace (l * 8) with (8 * l) by lia.
  rewrite Z.pow_mul_r by lia. reflexivity.
Qed.

Lemma shiftr_u64_far n s : is_u64 n -> 64 <= s -> Z.shiftr n s = 0.
Proof.
  intros [Hn0 Hn] Hs. rewrite Z.shiftr_div_pow2 by lia.
  apply Z.div_small. split; [lia|].
  apply Z.lt_le_trans with (2 ^ 64); [exact Hn|].
  apply Z.pow_le_mono_r; lia.
Qed.

(** What the code computes as [sizeAtLevel], when [level * 8] does not wrap. *)
Lemma sizeAtLevel_shiftr level n :
  0 <= level < 2 ^ 61 -> is_u64 n ->
  shr64 n (u64 (level * 8)) = Z.shiftr n (level * 8).
Proof.
  intros Hl Hn.
  rewrite u64_small by (unfold is_u64; lia).
  destruct (Z.lt_ge_cases (level * 8) 64) as [Hlt|Hge].
  - rewrite shr64_small_count by lia. symmetry. apply Z.shiftr_div_pow2. lia.
  - rewrite shr64_big_count by lia. symmetry. apply shiftr_u64_far; assumption.
Qed.

Lemma fullTiles_div level n :
  0 <= level -> 0 <= n ->
  Z.shiftr n (level * 8) / 256 = n / 256 ^ (level + 1).
Proof.
  intros Hl Hn.
  rewrite Z.shiftr_div_pow2 by lia.
  rewrite Z.pow_add_r by lia. rewrite (pow256 level) by lia.
  rewrite Z.pow_1_r.
  rewrite Z.div_div; [reflexivity | | lia].
  apply Z.pow_nonzero; lia.
Qed.

Lemma partialTileSize_unfold level index n :
  0 <= level < 2 ^ 61 -> is_u64 n ->
  partialTileSize level index n =
  if index <? n / 256 ^ (level + 1) then 0
  else Z.shiftr n (level * 8) mod 256.
Proof.
  intros Hl Hn. unfold partialTileSize.
  rewrite sizeAtLevel_shiftr by assumption.
  rewrite fullTiles_div by (unfold is_u64 in Hn; lia).
  reflexivity.
Qed.

(** C1, as stated, fails: in a log of exactly 256 leaves the level-0 tile of
    index 1 holds nothing, [partialTileSize] returns 0, yet index 1 is not
    below the number of full tiles. *)
Lemma partialTileSize_zero_not_full :
  partialTileSize 0 1 256 = 0 /\ ~ (1 < 256 / 256 ^ (0 + 1)).
Proof. split; [reflexivity | vm_compute; discriminate]. Qed.

(** C1, amended: for a level whose [level * 8] does not wrap,
    [partialTileSize] returns 0 exactly when the tile is full or the size at
    that level is a multiple of 256; a non-zero result is
    [(logSize >> (level*8)) mod 256]. *)
Theorem partialTileSize_spec level index n :
  0 <= level < 2 ^ 61 -> is_u64 n ->
  (partialTileSize level index n = 0 <->
     index < n / 256 ^ (level + 1) \/ Z.shiftr n (level * 8) mod 256 = 0)
  /\ (partialTileSize level index n <> 0 ->
      partialTileSize level index n = Z.shiftr n (level * 8) mod 256).
Proof.
  intros Hl Hn. rewrite partialTileSize_unfold by assumption.
  destruct (Z.ltb_spec index (n / 256 ^ (level + 1))) as [Hlt|Hge].
  - split; [split; auto | congruence].
  - split; [split; [auto | intros [H|H]; [lia | exact H]] | reflexivity].
Qed.

Lemma partialTileSize_spec_witness :
  (partialTileSize 1 3 1000000 = 0 <->
     3 < 1000000 / 256 ^ (1 + 1) \/ Z.shiftr 1000000 (1 * 8) mod 256 = 0)
  /\ (partialTileSize 1 15 1000000 <> 0 ->
      partialTileSize 1 15 1000000 = Z.shiftr 1000000 (1 * 8) mod 256).
Proof.
  split.
  - apply (partialTileSize_spec 1 3 1000000); unfold is_u64; lia.
  - apply (partialTileSize_spec 1 15 1000000); unfold is_u64; lia.
Defined.

(** Beyond level [2^61 - 1] the product [level * 8] wraps, and the code no
    longer computes [logSize >> (level*8)] of the mathematical product. *)
Example partialTileSize_wraps :
  partialTileSize (2 ^ 61) 0 1 = 1 /\ Z.shiftr 1 (2 ^ 61 * 8) mod 256 = 0.
Proof.
  split; [reflexivity|].
  rewrite shiftr_u64_far; [reflexivity | unfold is_u64; lia | lia].
Qed.

Lemma tileRowWidth_eq treeLevel :
  0 <= treeLevel ->
  shl64 1 (u64 (8 - treeLevel mod 8)) = Z.shiftl 1 (8 - treeLevel mod 8)
  /\ 0 < Z.shiftl 1 (8 - treeLevel mod 8).
Proof.
  intros Hl.
  assert (Hm : 0 <= treeLevel mod 8 < 8) by (apply Z.mod_pos_bound; lia).
  set (k := treeLevel mod 8) in *.
  rewrite u64_small by (unfold is_u64; lia).
  unfold shl64. destruct (Z.ltb_spec (8 - k) 64) as [_|Hge]; [|lia].
  assert (Hp : 0 < 2 ^ (8 - k) <= 2 ^ 8).
  { split; [apply Z.pow_pos_nonneg; lia | apply Z.pow_le_mono_r; lia]. }
  rewrite Z.shiftl_1_l. split; [|lia].
  apply u64_small. unfold is_u64. change (2 ^ 8) with 256 in Hp. lia.
Qed.

(** C5: splitting tree coordinates into a tile address and recombining gives
    the original coordinates back. *)
Theorem NodeCoordsToTileAddress_roundtrip treeLevel treeIndex :
  0 <= treeLevel < 64 -> 0 <= treeIndex < 2 ^ 48 ->
  recombine treeLevel (NodeCoordsToTileAddress treeLevel treeIndex)
  = (treeLevel, treeIndex).
Proof.
  intros Hl Hi. unfold NodeCoordsToTileAddress, recombine.
  destruct (tileRowWidth_eq treeLevel) as [Hw Hpos]; [lia|].
  rewrite Hw. set (w := Z.shiftl 1 (8 - treeLevel mod 8)) in *.
  f_equal.
  - pose proof (Z.div_mod treeLevel 8). lia.
  - pose proof (Z.div_mod treeIndex w). lia.
Qed.

Lemma NodeCoordsToTileAddress_roundtrip_witness :
  recombine 13 (NodeCoordsToTileAddress 13 1000) = (13, 1000).
Proof. apply (NodeCoordsToTileAddress_roundtrip 13 1000); lia. Defined.

End LayoutFacts.

(** ** Further facts about the tile layout *)

Module LayoutMore.
Import Layout LayoutFacts.

Lemma NodeCoordsToTileAddress_unfold treeLevel treeIndex :
  0 <= treeLevel ->
  NodeCoordsToTileAddress treeLevel treeIndex =
  (treeLevel / 8, treeIndex / 2 ^ (8 - treeLevel mod 8),
   treeLevel mod 8, treeIndex mod 2 ^ (8 - treeLevel mod 8)).
Proof.
  intros Hl. unfold NodeCoordsToTileAddress.
  destruct (tileRowWidth_eq treeLevel Hl) as [-> _].
  rewrite Z.shiftl_1_l. reflexivity.
Qed.

(** X1: the tile that follows the full tiles of a level holds exactly the
    nodes the full tiles leave over, the result is always below 256, and every
    tile further right is given the same size. *)
Theorem partialTileSize_remainder level n :
  0 <= level < 2 ^ 61 -> is_u64 n ->
  let fullTiles := n / 256 ^ (level + 1) in
  256 * fullTiles + partialTileSize level fullTiles n = n / 256 ^ level
  /\ (forall index, 0 <= partialTileSize level index n < 256)
  /\ (forall index, fullTiles <= index ->
      partialTileSize level index n = partialTileSize level fullTiles n).
Proof.
  intros Hl Hn fullTiles.
  assert (Hsz : Z.shiftr n (level * 8) = n / 256 ^ level).
  { rewrite Z.shiftr_div_pow2 by lia. rewrite pow256 by lia. reflexivity. }
  assert (Hfull : n / 256 ^ level / 256 = fullTiles).
  { rewrite <- Hsz. apply fullTiles_div; unfold is_u64 in Hn; lia. }
  split; [|split].
  - rewrite partialTileSize_unfold by assumption. fold fullTiles.
    rewrite Z.ltb_irrefl, Hsz.
    pose proof (Z.div_mod (n / 256 ^ level) 256). lia.
  - intros index. unfold partialTileSize.
    destruct (index <? _); [lia|]. apply Z.mod_pos_bound. lia.
  - intros index Hge. rewrite !partialTileSize_unfold by assumption.
    fold fullTiles. rewrite Z.ltb_irrefl.
    destruct (Z.ltb_spec index fullTiles); [lia | reflexivity].
Qed.

Lemma partialTileSize_remainder_witness :
  256 * (1000000 / 256 ^ (1 + 1))
  + partialTileSize 1 (1000000 / 256 ^ (1 + 1)) 1000000 = 1000000 / 256 ^ 1.
Proof.
  apply (partialTileSize_remainder 1 1000000); unfold is_u64; lia.
Defined.

(** X2: for all [uint64] coordinates the node lies inside the tile: the node
    level is below 8, the node index is below the width of its row, which is
    at most 256, and tile and node coordinates add up to the tree
    coordinates. *)
Theorem NodeCoordsToTileAddress_in_tile treeLevel treeIndex :
  is_u64 treeLevel -> is_u64 treeIndex ->
  match NodeCoordsToTileAddress treeLevel treeIndex with
  | (tileLevel, tileIndex, nodeLevel, nodeIndex) =>
      0 <= nodeLevel < 8
      /\ 0 <= nodeIndex < 2 ^ (8 - nodeLevel) /\ 2 ^ (8 - nodeLevel) <= 256
      /\ treeLevel = tileLevel * 8 + nodeLevel
      /\ treeIndex = tileIndex * 2 ^ (8 - nodeLevel) + nodeIndex
      /\ is_u64 tileLevel /\ is_u64 tileIndex
  end.
Proof.
  intros [Hl0 Hl] [Hi0 Hi].
  rewrite NodeCoordsToTileAddress_unfold by lia.
  assert (Hm : 0 <= treeLevel mod 8 < 8) by (apply Z.mod_pos_bound; lia).
  set (k := treeLevel mod 8) in *.
  assert (Hp : 0 < 2 ^ (8 - k) <= 2 ^ 8).
  { split; [apply Z.pow_pos_nonneg; lia | apply Z.pow_le_mono_r; lia]. }
  change (2 ^ 8) with 256 in Hp.
  pose proof (Z.mod_pos_bound treeIndex (2 ^ (8 - k)) ltac:(lia)) as Hni.
  pose proof (Z.div_mod treeLevel 8 ltac:(lia)) as Hdl. fold k in Hdl.
  pose proof (Z.div_mod treeIndex (2 ^ (8 - k)) ltac:(lia)) as Hdi.
  assert (Hq : 0 <= treeIndex / 2 ^ (8 - k) <= treeIndex).
  { split; [apply Z.div_pos; lia|].
    apply Z.div_le_upper_bound; [lia|]. nia. }
  unfold is_u64.
  split; [exact Hm|]. split; [lia|]. split; [lia|]. split; [lia|].
  split; [lia|]. split; lia.
Qed.

Lemma NodeCoordsToTileAddress_in_tile_witness :
  match NodeCoordsToTileAddress 13 1000 with
  | (tileLevel, tileIndex, nodeLevel, nodeIndex) =>
      0 <= nodeLevel < 8
      /\ 0 <= nodeIndex < 2 ^ (8 - nodeLevel) /\ 2 ^ (8 - nodeLevel) <= 256
      /\ 13 = tileLevel * 8 + nodeLevel
      /\ 1000 = tileIndex * 2 ^ (8 - nodeLevel) + nodeIndex
      /\ is_u64 tileLevel /\ is_u64 tileIndex
  end.
Proof.
  apply (NodeCoordsToTileAddress_in_tile 13 1000); unfold is_u64; lia.
Defined.

(** X3: no two tree nodes share a tile address: on [uint64] coordinates
    [NodeCoordsToTileAddress] is injective. *)
Theorem NodeCoordsToTileAddress_inj l1 i1 l2 i2 :
  is_u64 l1 -> is_u64 i1 -> is_u64 l2 -> is_u64 i2 ->
  NodeCoordsToTileAddress l1 i1 = NodeCoordsToTileAddress l2 i2 ->
  l1 = l2 /\ i1 = i2.
Proof.
  intros [Hl1 _] [Hi1 _] [Hl2 _] [Hi2 _].
  rewrite !NodeCoordsToTileAddress_unfold by lia.
  intros Heq. injection Heq as Htl Hti Hnl Hni.
  assert (Hl : l1 = l2).
  { pose proof (Z.div_mod l1 8 ltac:(lia)).
    pose proof (Z.div_mod l2 8 ltac:(lia)). lia. }
  split; [exact Hl|]. subst l2.
  assert (Hm : 0 <= l1 mod 8 < 8) by (apply Z.mod_pos_bound; lia).
  assert (Hp : 0 < 2 ^ (8 - l1 mod 8)) by (apply Z.pow_pos_nonneg; lia).
  rewrite (Z.div_mod i1 (2 ^ (8 - l1 mod 8))) by lia.
  rewrite (Z.div_mod i2 (2 ^ (8 - l1 mod 8))) by lia.
  rewrite Hti, Hni. reflexivity.
Qed.

Lemma NodeCoordsToTileAddress_inj_witness :
  NodeCoordsToTileAddress 77 1000 = NodeCoordsToTileAddress (13 + 64) (999 + 1)
  /\ (77 = 13 + 64 /\ 1000 = 999 + 1).
Proof.
  split; [reflexivity|].
  apply (NodeCoordsToTileAddress_inj 77 1000 (13 + 64) (999 + 1));
    [unfold is_u64; lia.. | reflexivity].
Defined.

End LayoutMore.

(** ** Queue *)

Module StorageFacts.
Import Tessera Storage.

Section Facts.
Context {W : Type} (flush : FlushFunc W).
Implicit Types s : State W.

(** Unfolds the state updates. *)
Ltac st :=
  cbn [buf inFlight work items entryIndex world adding flushing
       set_buf set_inFlight set_work set_items set_storage set_adding
       set_flushing].

Tactic Notation "st" "in" hyp(H) :=
  cbn [buf inFlight work items entryIndex world adding flushing
       set_buf set_inFlight set_work set_items set_storage set_adding
       set_flushing] in H.

Lemma bind_Ok {A B} (m : M W A) (k : A -> M W B) s b s' :
  bind m k s = Ok (b, s') ->
  exists a s1, m s = Ok (a, s1) /\ k a s1 = Ok (b, s').
Proof.
  unfold bind. destruct (m s) as [[a s1]| |]; [eauto | discriminate..].
Qed.

Lemma bind_eq {A B} (m : M W A) (k : A -> M W B) s a s1 :
  m s = Ok (a, s1) -> bind m k s = k a s1.
Proof. intros H. unfold bind. rewrite H. reflexivity. Qed.

Lemma getItem_Ok l s it s' :
  getItem l s = Ok (it, s') -> items s !! l = Some it /\ s' = s.
Proof.
  unfold getItem. destruct (items s !! l); [|discriminate].
  intros [= -> ->]. auto.
Qed.

Lemma getItem_eq l s it : items s !! l = Some it -> getItem l s = Ok (it, s).
Proof. intros H. unfold getItem. rewrite H. reflexivity. Qed.

(** *** What each primitive does *)

Lemma notify_waiting s e it err :
  items s !! e = Some it -> c it = make_chan ->
  notify e err s =
  Ok (tt, set_items
            (<[e := QueueItem (entry it) (Chan (Some (Closure err e)) true)
                      (f it)]> (items s)) s).
Proof.
  intros Hit Hc. unfold notify. rewrite (bind_eq _ _ _ _ _ (getItem_eq _ _ _ Hit)).
  rewrite Hc. reflexivity.
Qed.

Lemma notify_Ok s e err s' :
  notify e err s = Ok (tt, s') ->
  exists it ch, items s !! e = Some it
    /\ s' = set_items (<[e := QueueItem (entry it) ch (f it)]> (items s)) s.
Proof.
  unfold notify. intros H. apply bind_Ok in H as (it & s1 & Hg & H).
  apply getItem_Ok in Hg as [Hit ->].
  destruct (chan_send _ _) as [ch1| |]; try discriminate.
  destruct (chan_close _) as [ch2| |]; try discriminate.
  unfold putItem in H. injection H as <-. eauto.
Qed.

Lemma call_future_ran s l it r :
  items s !! l = Some it -> f it = Ran r ->
  call_future (FutureOf l) s = Ok (r, s).
Proof.
  intros Hit Hf. unfold call_future.
  rewrite (bind_eq _ _ _ _ _ (getItem_eq _ _ _ Hit)). rewrite Hf. reflexivity.
Qed.

Lemma call_future_notified s l it cl :
  items s !! l = Some it -> f it = NotRun -> c it = Chan (Some cl) true ->
  call_future (FutureOf l) s =
  Ok (call_closure cl s,
      set_items (<[l := QueueItem (entry it) (Chan None true)
                          (Ran (call_closure cl s))]> (items s)) s).
Proof.
  intros Hit Hf Hc. unfold call_future.
  rewrite (bind_eq _ _ _ _ _ (getItem_eq _ _ _ Hit)). rewrite Hf, Hc.
  reflexivity.
Qed.

Lemma call_future_waiting s l it :
  items s !! l = Some it -> f it = NotRun -> c it = make_chan ->
  call_future (FutureOf l) s = Block.
Proof.
  intros Hit Hf Hc. unfold call_future.
  rewrite (bind_eq _ _ _ _ _ (getItem_eq _ _ _ Hit)). rewrite Hf, Hc.
  reflexivity.
Qed.

Lemma call_future_Ok s l r s' :
  call_future (FutureOf l) s = Ok (r, s') ->
  exists it, items s !! l = Some it
    /\ (f it = Ran r /\ s' = s
        \/ f it = NotRun /\ exists ch,
             s' = set_items (<[l := QueueItem (entry it) ch (Ran r)]> (items s)) s).
Proof.
  unfold call_future. intros H. apply bind_Ok in H as (it & s1 & Hg & H).
  apply getItem_Ok in Hg as [Hit ->]. exists it. split; [exact Hit|].
  destruct (f it) as [|r0] eqn:Hf.
  - right. split; [reflexivity|].
    destruct (chan_recv (c it)) as [[v ch']| |]; try discriminate.
    unfold bind, putItem, ret in H. injection H as <- <-. eauto.
  - left. unfold ret in H. injection H as <- <-. auto.
Qed.

Lemma squashDupes_known s e l :
  inFlight s !! Identity e = Some l -> squashDupes e s = Ok ((l, true), s).
Proof. intros H. unfold squashDupes. rewrite H. reflexivity. Qed.

(** The state after [squashDupes] has registered a new item for [e]. *)
Lemma squashDupes_new s e :
  inFlight s !! Identity e = None ->
  squashDupes e s =
  Ok ((length (items s), false),
      set_inFlight (<[Identity e := length (items s)]> (inFlight s))
        (set_items (items s ++ [QueueItem e make_chan NotRun]) s)).
Proof. intros H. unfold squashDupes. rewrite H. reflexivity. Qed.

Lemma Add_rest_pushed s l :
  Add_rest l false None s = Ok (FutureOf l, set_buf (buf s ++ [l]) s).
Proof. reflexivity. Qed.

Lemma Add_rest_refused s l it err :
  items s !! l = Some it -> c it = make_chan ->
  Add_rest l false (Some err) s =
  Ok (FutureOf l,
      set_items (<[l := QueueItem (entry it)
                          (Chan (Some (Closure (Some err) l)) true) (f it)]>
                   (items s)) s).
Proof.
  intros Hit Hc. unfold Add_rest.
  rewrite (bind_eq _ _ _ _ _ (notify_waiting _ _ _ (Some err) Hit Hc)).
  reflexivity.
Qed.

Lemma Add_dupe s e pushErr l :
  inFlight s !! Identity e = Some l ->
  Add e pushErr s = Ok (FutureOf l, s).
Proof.
  intros H. unfold Add.
  rewrite (bind_eq _ _ _ _ _ (squashDupes_known _ _ _ H)). reflexivity.
Qed.

Lemma Add_new_pushed s e :
  inFlight s !! Identity e = None ->
  Add e None s =
  Ok (FutureOf (length (items s)),
      set_buf (buf s ++ [length (items s)])
        (set_inFlight (<[Identity e := length (items s)]> (inFlight s))
           (set_items (items s ++ [QueueItem e make_chan NotRun]) s))).
Proof.
  intros H. unfold Add.
  rewrite (bind_eq _ _ _ _ _ (squashDupes_new _ _ H)). reflexivity.
Qed.

Lemma Add_new_refused s e err :
  inFlight s !! Identity e = None ->
  Add e (Some err) s =
  Ok (FutureOf (length (items s)),
      set_inFlight (<[Identity e := length (items s)]> (inFlight s))
        (set_items
           (items s ++ [QueueItem e
                          (Chan (Some (Closure (Some err) (length (items s)))) true)
                          NotRun]) s)).
Proof.
  intros H. unfold Add.
  rewrite (bind_eq _ _ _ _ _ (squashDupes_new _ _ H)). cbv beta iota.
  erewrite Add_rest_refused;
    [| st; rewrite lookup_app_r by lia; rewrite Nat.sub_diag; reflexivity
     | reflexivity].
  unfold set_items, set_inFlight. st. cbn [entry f].
  rewrite insert_app_r_alt by lia. rewrite Nat.sub_diag. reflexivity.
Qed.

Lemma Add_begin_dupe s e l :
  inFlight s !! Identity e = Some l ->
  Add_begin e s = Ok ((l, true), s).
Proof.
  intros H. unfold Add_begin.
  rewrite (bind_eq _ _ _ _ _ (squashDupes_known _ _ _ H)). reflexivity.
Qed.

Lemma Add_begin_new s e :
  inFlight s !! Identity e = None ->
  Add_begin e s =
  Ok ((length (items s), false),
      set_adding ({[length (items s)]} ∪ adding s)
        (set_inFlight (<[Identity e := length (items s)]> (inFlight s))
           (set_items (items s ++ [QueueItem e make_chan NotRun]) s))).
Proof.
  intros H. unfold Add_begin.
  rewrite (bind_eq _ _ _ _ _ (squashDupes_new _ _ H)). reflexivity.
Qed.

Lemma Add_end_Ok s l pushErr fut s' :
  Add_end l pushErr s = Ok (fut, s') ->
  l ∈ adding s
  /\ Add_rest l false pushErr (set_adding (adding s ∖ {[l]}) s) = Ok (fut, s').
Proof.
  unfold Add_end. destruct (decide (l ∈ adding s)); [auto | discriminate].
Qed.

(** A whole [Add] is its two halves with nothing in between. *)
Lemma Add_halves s e pushErr :
  length (items s) ∉ adding s ->
  Add e pushErr s =
  (let* (entry, isDupe) := Add_begin e in
   if (isDupe : bool) then ret (FutureOf entry) else Add_end entry pushErr) s.
Proof.
  intros Hfresh. destruct (inFlight s !! Identity e) as [l|] eqn:Hk.
  - rewrite (Add_dupe _ _ _ _ Hk).
    rewrite (bind_eq _ _ _ _ _ (Add_begin_dupe _ _ _ Hk)). reflexivity.
  - rewrite (bind_eq _ _ _ _ _ (Add_begin_new _ _ Hk)). cbv beta iota.
    unfold Add. rewrite (bind_eq _ _ _ _ _ (squashDupes_new _ _ Hk)).
    cbv beta iota. unfold Add_end. st.
    destruct (decide _) as [_|Hn];
      [|exfalso; apply Hn, elem_of_union; left; apply elem_of_singleton; reflexivity].
    replace (({[length (items s)]} ∪ adding s) ∖ {[length (items s)]})
      with (adding s).
    2:{ apply set_eq. intros x.
        rewrite elem_of_difference, elem_of_union, elem_of_singleton.
        split; [|tauto]. intros Hx. split; [auto|]. congruence. }
    destruct s; reflexivity.
Qed.

(** *** Results, once kept, stay *)

Lemma keeps_refl s : keeps s s.
Proof. intros l it H. eauto. Qed.

Lemma keeps_trans s1 s2 s3 : keeps s1 s2 -> keeps s2 s3 -> keeps s1 s3.
Proof.
  intros H12 H23 l it H.
  destruct (H12 l it H) as (it2 & H2 & He2 & Hf2).
  destruct (H23 l it2 H2) as (it3 & H3 & He3 & Hf3).
  exists it3. split; [exact H3|]. split; [congruence|]. auto.
Qed.

Lemma keeps_items s s' : items s' = items s -> keeps s s'.
Proof. intros E l it H. rewrite E. eauto. Qed.

Lemma keeps_insert s s' l it it' :
  items s !! l = Some it -> entry it' = entry it ->
  (forall r, f it = Ran r -> f it' = Ran r) ->
  items s' = <[l := it']> (items s) ->
  keeps s s'.
Proof.
  intros Hit He Hf E l0 it0 H0. rewrite E.
  destruct (decide (l = l0)) as [<-|Hne].
  - exists it'. rewrite list_lookup_insert_eq by (eapply lookup_lt_Some; eauto).
    rewrite Hit in H0. injection H0 as <-. auto.
  - exists it0. rewrite list_lookup_insert_ne by exact Hne. auto.
Qed.

Lemma keeps_app s s' tl : items s' = items s ++ tl -> keeps s s'.
Proof.
  intros E l it H. rewrite E. exists it.
  rewrite lookup_app_l by (eapply lookup_lt_Some; eauto). auto.
Qed.

Lemma notify_keeps s e err s' : notify e err s = Ok (tt, s') -> keeps s s'.
Proof.
  intros H. apply notify_Ok in H as (it & ch & Hit & ->).
  eapply keeps_insert; [exact Hit| | |reflexivity]; auto.
Qed.

Lemma call_future_keeps s fut r s' :
  call_future fut s = Ok (r, s') -> keeps s s'.
Proof.
  destruct fut as [l]. intros H.
  apply call_future_Ok in H as (it & Hit & [[_ ->]|[Hf [ch ->]]]).
  - apply keeps_refl.
  - eapply keeps_insert; [exact Hit| | |reflexivity]; [reflexivity|].
    intros r0 Hr. congruence.
Qed.

Lemma squashDupes_keeps s e r s' : squashDupes e s = Ok (r, s') -> keeps s s'.
Proof.
  destruct (inFlight s !! Identity e) as [l|] eqn:Hk.
  - rewrite (squashDupes_known _ _ _ Hk). intros [= _ <-]. apply keeps_refl.
  - rewrite (squashDupes_new _ _ Hk). intros [= _ <-].
    eapply keeps_app. reflexivity.
Qed.

Lemma Add_rest_keeps s l d pushErr fut s' :
  Add_rest l d pushErr s = Ok (fut, s') -> keeps s s'.
Proof.
  unfold Add_rest. destruct d; [intros [= _ <-]; apply keeps_refl|].
  intros H. apply bind_Ok in H as ([] & s1 & H1 & H). injection H as _ <-.
  destruct pushErr as [err|].
  - eapply notify_keeps; exact H1.
  - injection H1 as <-. apply keeps_items. reflexivity.
Qed.

Lemma Add_keeps s e pushErr fut s' :
  Add e pushErr s = Ok (fut, s') -> keeps s s'.
Proof.
  unfold Add. intros H. apply bind_Ok in H as ([l d] & s1 & H1 & H).
  eapply keeps_trans; [eapply squashDupes_keeps | eapply Add_rest_keeps]; eauto.
Qed.

Lemma Add_begin_keeps s e r s' : Add_begin e s = Ok (r, s') -> keeps s s'.
Proof.
  unfold Add_begin. intros H. apply bind_Ok in H as ([l d] & s1 & H1 & H).
  eapply keeps_trans; [eapply squashDupes_keeps; exact H1|].
  apply bind_Ok in H as ([] & s2 & H2 & H). injection H as _ <-.
  destruct d; injection H2 as <-; apply keeps_items; reflexivity.
Qed.

Lemma Add_end_keeps s l pushErr fut s' :
  Add_end l pushErr s = Ok (fut, s') -> keeps s s'.
Proof.
  intros H. apply Add_end_Ok in H as [_ H]. apply Add_rest_keeps in H.
  eapply keeps_trans; [|exact H]. apply keeps_items. reflexivity.
Qed.

Lemma entryOf_Ok s l d s' :
  entryOf l s = Ok (d, s') ->
  exists it, items s !! l = Some it /\ d = entry it /\ s' = s.
Proof.
  unfold entryOf. intros H. apply bind_Ok in H as (it & s1 & Hg & H).
  apply getItem_Ok in Hg as [Hit ->]. unfold ret in H. injection H as <- <-.
  eauto.
Qed.

Lemma entriesData_Ok es : forall s ds s',
  entriesData es s = Ok (ds, s') -> s' = s.
Proof.
  induction es as [|e es IH]; intros s ds s' H; cbn in H.
  - unfold ret in H. injection H as _ <-. reflexivity.
  - apply bind_Ok in H as (d & s1 & Hd & H).
    apply entryOf_Ok in Hd as (it & _ & _ & ->).
    apply bind_Ok in H as (ds0 & s2 & Hds & H).
    apply IH in Hds as ->. unfold ret in H. injection H as _ <-. reflexivity.
Qed.

Lemma notifyAll_keeps es : forall s err s',
  notifyAll es err s = Ok (tt, s') -> keeps s s'.
Proof.
  induction es as [|e es IH]; intros s err s' H; cbn in H.
  - unfold ret in H. injection H as <-. apply keeps_refl.
  - apply bind_Ok in H as ([] & s1 & Hn & H).
    apply bind_Ok in H as (d & s2 & Hd & H).
    apply entryOf_Ok in Hd as (it & _ & _ & ->).
    apply bind_Ok in H as ([] & s3 & Hdel & H).
    injection Hdel as <-.
    eapply keeps_trans; [eapply notify_keeps; exact Hn|].
    eapply keeps_trans; [|eapply IH; exact H].
    apply keeps_items. reflexivity.
Qed.

Lemma call_flush_Ok s data err s' :
  call_flush flush data s = Ok (err, s') ->
  exists w' idx', flush data (world s) (entryIndex s) = (w', idx', err)
                  /\ s' = set_storage idx' w' s.
Proof.
  unfold call_flush. destruct (flush _ _ _) as [[w' idx'] err'].
  intros [= <- <-]. eauto.
Qed.

Lemma doFlush_keeps es s s' :
  doFlush flush es s = Ok (tt, s') -> keeps s s'.
Proof.
  unfold doFlush. intros H.
  apply bind_Ok in H as (ds & s1 & Hd & H). apply entriesData_Ok in Hd as ->.
  apply bind_Ok in H as (err & s2 & Hf & H).
  apply call_flush_Ok in Hf as (w' & idx' & _ & ->).
  eapply keeps_trans; [|eapply notifyAll_keeps; exact H].
  apply keeps_items. reflexivity.
Qed.

Lemma worker_flush_keeps s s' :
  worker_flush flush s = Ok (tt, s') -> keeps s s'.
Proof.
  unfold worker_flush. destruct (work s) as [es|]; [|discriminate].
  destruct (flushing s); [discriminate|]. intros H.
  apply bind_Ok in H as (ds & s1 & Hd & H). apply entriesData_Ok in Hd as ->.
  apply bind_Ok in H as (err & s2 & Hf & H).
  apply call_flush_Ok in Hf as (w' & idx' & _ & ->).
  injection H as <-. apply keeps_items. reflexivity.
Qed.

Lemma worker_notify_keeps s s' :
  worker_notify s = Ok (tt, s') -> keeps s s'.
Proof.
  unfold worker_notify. destruct (flushing s) as [[es err]|]; [|discriminate].
  intros H. apply notifyAll_keeps in H.
  eapply keeps_trans; [|exact H]. apply keeps_items. reflexivity.
Qed.

Lemma exec_keeps o s s' : exec flush o s = Ok (tt, s') -> keeps s s'.
Proof.
  destruct o as [e pushErr|e|l pushErr| | | | |fut]; cbn [exec]; intros H.
  - apply bind_Ok in H as (fut & s1 & Ha & H). injection H as <-.
    eapply Add_keeps; exact Ha.
  - apply bind_Ok in H as (r & s1 & Ha & H). injection H as <-.
    eapply Add_begin_keeps; exact Ha.
  - apply bind_Ok in H as (fut & s1 & Ha & H). injection H as <-.
    eapply Add_end_keeps; exact Ha.
  - unfold toWork in H. destruct (work s); [discriminate|].
    injection H as <-. apply keeps_items. reflexivity.
  - unfold worker in H. destruct (work s) as [es|]; [|discriminate].
    destruct (flushing s); [discriminate|].
    apply doFlush_keeps in H.
    eapply keeps_trans; [|exact H]. apply keeps_items. reflexivity.
  - apply worker_flush_keeps; exact H.
  - apply worker_notify_keeps; exact H.
  - apply bind_Ok in H as (r & s1 & Hc & H). injection H as <-.
    eapply call_future_keeps; exact Hc.
Qed.

Lemma run_keeps ops : forall s s',
  run flush ops s = Ok (tt, s') -> keeps s s'.
Proof.
  induction ops as [|o ops IH]; intros s s' H; cbn in H.
  - injection H as <-. apply keeps_refl.
  - apply bind_Ok in H as ([] & s1 & Ho & H).
    eapply keeps_trans; [eapply exec_keeps; exact Ho | eapply IH; exact H].
Qed.

(** A future that has returned [r] returns [r] whatever happens next. *)
Lemma call_future_again ops s l r s0 s1 :
  call_future (FutureOf l) s0 = Ok (r, s) ->
  run flush ops s = Ok (tt, s1) ->
  call_future (FutureOf l) s1 = Ok (r, s1).
Proof.
  intros Hc Hr.
  assert (exists it, items s !! l = Some it /\ f it = Ran r) as (it & Hit & Hf).
  { apply call_future_Ok in Hc as (it & Hit & [[Hf ->]|[Hf [ch ->]]]).
    - eauto.
    - exists (QueueItem (entry it) ch (Ran r)). st.
      split; [|reflexivity].
      apply list_lookup_insert_eq. eapply lookup_lt_Some; eauto. }
  destruct (run_keeps _ _ _ Hr l it Hit) as (it1 & Hit1 & _ & Hf1).
  eapply call_future_ran; [exact Hit1 | auto].
Qed.

(** *** The invariant of the queue *)

Lemma Inv_NewQueue (w : W) : Inv (NewQueue w).
Proof.
  split; cbn.
  - intros l it H. rewrite lookup_nil in H. discriminate.
  - intros l [H|H]; [apply elem_of_empty in H | apply elem_of_nil in H];
      contradiction.
  - apply NoDup_nil_2.
  - intros l H. apply elem_of_empty in H. contradiction.
Qed.

Lemma InvOn_held_lt p s l :
  InvOn p s -> l ∈ adding s \/ l ∈ p -> (l < length (items s))%nat.
Proof.
  intros HI Hl. destruct (inv_held p s HI l Hl) as (it & Hit & _).
  eapply lookup_lt_Some; exact Hit.
Qed.

(** The invariant looks at the items, the dedup map and [adding] only. *)
Lemma InvOn_ext p s s' :
  items s' = items s -> inFlight s' = inFlight s -> adding s' = adding s ->
  InvOn p s -> InvOn p s'.
Proof.
  intros Ei Em Ea [H1 H2 H3 H4]. split; rewrite ?Ei, ?Em, ?Ea; assumption.
Qed.

Lemma InvOn_perm p p' s : p ≡ₚ p' -> InvOn p s -> InvOn p' s.
Proof.
  intros Hp [H1 H2 H3 H4]. split.
  - exact H1.
  - intros l Hl. apply H2. rewrite Hp. exact Hl.
  - rewrite <- Hp. exact H3.
  - intros l Hl. rewrite <- Hp. apply H4. exact Hl.
Qed.

(** A new item is allocated and registered under a key not in flight. *)
Lemma InvOn_alloc p s s' e it :
  InvOn p s ->
  inFlight s !! Identity e = None ->
  entry it = e ->
  item_phase (length (items s)) it ->
  items s' = items s ++ [it] ->
  inFlight s' = <[Identity e := length (items s)]> (inFlight s) ->
  adding s' = adding s ->
  InvOn p s'.
Proof.
  intros HI Hk He Hph Ei Em Ea. split.
  - intros l it0. rewrite Ei. rewrite lookup_app_Some.
    intros [H|[Hge H]]; [eapply inv_items; eauto|].
    assert (Hlen : (l - length (items s) < length [it])%nat)
      by (eapply lookup_lt_Some; exact H).
    cbn in Hlen. replace l with (length (items s)) by lia.
    replace (l - length (items s))%nat with 0%nat in H by lia.
    injection H as <-. exact Hph.
  - intros l Hl. rewrite Ea in Hl.
    destruct (inv_held p s HI l Hl) as (it0 & Hit & Hc & Hf & Hm).
    exists it0. rewrite Ei, Em.
    rewrite lookup_app_l by (eapply lookup_lt_Some; exact Hit).
    repeat split; try assumption.
    rewrite lookup_insert_ne; [exact Hm|]. congruence.
  - eapply inv_nodup; exact HI.
  - intros l Hl. rewrite Ea in Hl. eapply inv_adding; eauto.
Qed.

(** A waiting, registered item that nobody holds joins the queued ones. *)
Lemma InvOn_enqueue p s n it :
  InvOn p s ->
  items s !! n = Some it -> c it = make_chan -> f it = NotRun ->
  inFlight s !! Identity (entry it) = Some n ->
  n ∉ p -> n ∉ adding s ->
  InvOn (n :: p) s.
Proof.
  intros HI Hit Hc Hf Hm Hp Ha. split.
  - eapply inv_items; exact HI.
  - intros l [Hl|Hl]; [apply (inv_held _ _ HI); auto|].
    apply elem_of_cons in Hl as [->|Hl]; [eauto 6|].
    apply (inv_held _ _ HI); auto.
  - apply NoDup_cons. split; [exact Hp | eapply inv_nodup; exact HI].
  - intros l Hl Hin. apply elem_of_cons in Hin as [->|Hin];
      [contradiction | eapply inv_adding; eauto].
Qed.

(** A goroutine takes a waiting, registered item into its hands. *)
Lemma InvOn_hold p s s' n it :
  InvOn p s ->
  items s !! n = Some it -> c it = make_chan -> f it = NotRun ->
  inFlight s !! Identity (entry it) = Some n ->
  n ∉ p ->
  items s' = items s -> inFlight s' = inFlight s ->
  adding s' = {[n]} ∪ adding s ->
  InvOn p s'.
Proof.
  intros HI Hit Hc Hf Hm Hp Ei Em Ea. split; rewrite ?Ei, ?Em, ?Ea.
  - eapply inv_items; exact HI.
  - intros l [Hl|Hl]; [|apply (inv_held _ _ HI); auto].
    apply elem_of_union in Hl as [Hl|Hl]; [|apply (inv_held _ _ HI); auto].
    apply elem_of_singleton in Hl as ->. eauto 6.
  - eapply inv_nodup; exact HI.
  - intros l Hl. apply elem_of_union in Hl as [Hl|Hl];
      [apply elem_of_singleton in Hl as ->; exact Hp
      | eapply inv_adding; eauto].
Qed.

(** A goroutine lets go of its item. *)
Lemma InvOn_release p s s' n :
  InvOn p s ->
  items s' = items s -> inFlight s' = inFlight s ->
  adding s' = adding s ∖ {[n]} ->
  InvOn p s'.
Proof.
  intros HI Ei Em Ea. split; rewrite ?Ei, ?Em, ?Ea.
  - eapply inv_items; exact HI.
  - intros l [Hl|Hl]; apply (inv_held _ _ HI); [left|right; exact Hl].
    apply elem_of_difference in Hl as [Hl _]. exact Hl.
  - eapply inv_nodup; exact HI.
  - intros l Hl. apply elem_of_difference in Hl as [Hl _].
    eapply inv_adding; eauto.
Qed.

(** An item that is neither queued nor held changes phase. *)
Lemma InvOn_update p s s' n it' :
  InvOn p s ->
  (n < length (items s))%nat -> n ∉ p -> n ∉ adding s ->
  item_phase n it' ->
  items s' = <[n := it']> (items s) -> inFlight s' = inFlight s ->
  adding s' = adding s ->
  InvOn p s'.
Proof.
  intros HI Hlt Hp Ha Hph Ei Em Ea. split; rewrite ?Ei, ?Em, ?Ea.
  - intros l it0. destruct (decide (n = l)) as [<-|Hne].
    + rewrite list_lookup_insert_eq by exact Hlt. intros [= <-]. exact Hph.
    + rewrite list_lookup_insert_ne by exact Hne. apply (inv_items _ _ HI).
  - intros l Hl. destruct (inv_held _ _ HI l Hl) as (it0 & Hit0 & Hrest).
    exists it0. rewrite list_lookup_insert_ne; [auto|].
    intros <-. destruct Hl; contradiction.
  - eapply inv_nodup; exact HI.
  - eapply inv_adding; exact HI.
Qed.

Lemma queued_fresh s : Inv s -> length (items s) ∉ queued s.
Proof.
  intros HI Hin.
  pose proof (InvOn_held_lt _ _ _ HI (or_intror Hin)). lia.
Qed.

Lemma adding_fresh s : Inv s -> length (items s) ∉ adding s.
Proof.
  intros HI Hin.
  pose proof (InvOn_held_lt _ _ _ HI (or_introl Hin)). lia.
Qed.

(** The state right after [squashDupes] allocated: the new item is waiting
    and registered, nobody holds it yet. *)
Lemma Inv_squashed s e :
  Inv s -> inFlight s !! Identity e = None ->
  InvOn (queued s)
    (set_inFlight (<[Identity e := length (items s)]> (inFlight s))
       (set_items (items s ++ [QueueItem e make_chan NotRun]) s)).
Proof.
  intros HI Hk.
  eapply InvOn_alloc with (e := e); [exact HI | exact Hk | | | reflexivity..].
  - reflexivity.
  - apply Waiting; reflexivity.
Qed.

Lemma push_perm (b w : list loc) n : (b ++ [n]) ++ w ≡ₚ n :: b ++ w.
Proof. rewrite <- app_assoc. cbn. symmetry. apply Permutation_middle. Qed.

Lemma Inv_Add_begin s e r s' :
  Inv s -> Add_begin e s = Ok (r, s') -> Inv s'.
Proof.
  intros HI.
  destruct (inFlight s !! Identity e) as [l|] eqn:Hk.
  { rewrite (Add_begin_dupe _ _ _ Hk). intros [= _ <-]. exact HI. }
  rewrite (Add_begin_new _ _ Hk). intros [= _ <-].
  pose proof (Inv_squashed s e HI Hk) as H1.
  unfold Inv, queued. st. fold (queued s).
  eapply InvOn_hold with (n := length (items s)); [exact H1 | ..].
  - st. rewrite lookup_app_r by lia. rewrite Nat.sub_diag. reflexivity.
  - reflexivity.
  - reflexivity.
  - st. cbn [entry]. apply lookup_insert_eq.
  - apply queued_fresh. exact HI.
  - reflexivity.
  - reflexivity.
  - reflexivity.
Qed.

Lemma Inv_Add_end s l pushErr fut s' :
  Inv s -> Add_end l pushErr s = Ok (fut, s') -> Inv s'.
Proof.
  intros HI H. apply Add_end_Ok in H as [Hin H].
  destruct (inv_held _ _ HI l (or_introl Hin)) as (it & Hit & Hc & Hf & Hm).
  pose proof (inv_adding _ _ HI l Hin) as Hnq.
  set (s1 := set_adding (adding s ∖ {[l]}) s) in *.
  assert (H1 : InvOn (queued s) s1)
    by (eapply InvOn_release; [exact HI | reflexivity..]).
  assert (Hna : l ∉ adding s1).
  { subst s1. st. intros Hx. apply elem_of_difference in Hx as [_ Hx].
    apply Hx, elem_of_singleton. reflexivity. }
  destruct pushErr as [err|].
  - rewrite (Add_rest_refused s1 l it err Hit Hc) in H. injection H as _ <-.
    unfold Inv, queued. st. fold (queued s).
    eapply InvOn_update with (n := l); [exact H1 | | exact Hnq | exact Hna | | reflexivity..].
    + eapply lookup_lt_Some; exact Hit.
    + eapply Notified; [reflexivity | exact Hf].
  - rewrite Add_rest_pushed in H. injection H as _ <-.
    apply (InvOn_perm (l :: queued s)).
    { symmetry.
      apply (push_perm (buf s) (default [] (work s) ++ batch (flushing s)) l). }
    eapply InvOn_ext with (s := s1); [reflexivity.. |].
    eapply InvOn_enqueue; eauto.
Qed.

Lemma Inv_Add s e pushErr fut s' :
  Inv s -> Add e pushErr s = Ok (fut, s') -> Inv s'.
Proof.
  intros HI. rewrite (Add_halves s e pushErr (adding_fresh s HI)).
  intros H. apply bind_Ok in H as ([l d] & s1 & Hb & H).
  pose proof (Inv_Add_begin _ _ _ _ HI Hb) as H1.
  destruct d.
  - injection H as _ <-. exact H1.
  - eapply Inv_Add_end; eauto.
Qed.

Lemma Inv_toWork s s' : Inv s -> toWork s = Ok (tt, s') -> Inv s'.
Proof.
  unfold toWork. intros HI. destruct (work s) eqn:Hw; [discriminate|].
  intros [= <-]. unfold Inv, queued in *. rewrite Hw in HI. st. cbn in *.
  eapply InvOn_ext; [..|exact HI]; reflexivity.
Qed.

Lemma InvOn_call_future p s fut r s' :
  InvOn p s -> call_future fut s = Ok (r, s') -> InvOn p s'.
Proof.
  destruct fut as [l]. intros HI H.
  destruct (call_future_Ok _ _ _ _ H) as (it & Hit & _).
  destruct (inv_items _ _ HI l it Hit) as [Hc Hf|err Hc Hf|r0 Hc Hf].
  - rewrite (call_future_waiting _ _ _ Hit Hf Hc) in H. discriminate.
  - rewrite (call_future_notified _ _ _ _ Hit Hf Hc) in H.
    injection H as _ <-.
    assert (Hfree : ~ (l ∈ adding s \/ l ∈ p)).
    { intros Hl. destruct (inv_held _ _ HI l Hl) as (it0 & Hit0 & Hc0 & _).
      rewrite Hit in Hit0. injection Hit0 as <-. rewrite Hc in Hc0.
      discriminate. }
    eapply InvOn_update with (n := l); [exact HI | | | | | reflexivity..].
    + eapply lookup_lt_Some; exact Hit.
    + tauto.
    + tauto.
    + eapply Resolved; reflexivity.
  - rewrite (call_future_ran _ _ _ _ Hit Hf) in H. injection H as _ <-.
    exact HI.
Qed.

Lemma call_future_frame s fut r s' :
  call_future fut s = Ok (r, s') ->
  buf s' = buf s /\ work s' = work s /\ flushing s' = flushing s
  /\ adding s' = adding s /\ inFlight s' = inFlight s
  /\ entryIndex s' = entryIndex s /\ world s' = world s.
Proof.
  destruct fut as [l]. intros H.
  apply call_future_Ok in H as (it & _ & [[_ ->]|[_ [ch ->]]]);
    repeat split; reflexivity.
Qed.

Lemma entriesData_dataOf es : forall s,
  (forall l, l ∈ es -> is_Some (items s !! l)) ->
  entriesData es s = Ok (dataOf s es, s).
Proof.
  induction es as [|e es IH]; intros s Hall; cbn.
  - reflexivity.
  - destruct (Hall e) as [it Hit]; [apply elem_of_cons; auto|].
    unfold entryOf.
    erewrite bind_eq; [|erewrite bind_eq; [|apply getItem_eq; exact Hit]; reflexivity].
    erewrite bind_eq; [|apply IH; intros l Hl; apply Hall, elem_of_cons; auto].
    unfold ret, dataOf. cbn. rewrite Hit. reflexivity.
Qed.

(** The head of the queued items is notified and taken out of the map. *)
Lemma InvOn_dequeue e p s s2 it err :
  InvOn (e :: p) s ->
  items s !! e = Some it ->
  items s2 = <[e := QueueItem (entry it) (Chan (Some (Closure err e)) true)
                      NotRun]> (items s) ->
  inFlight s2 = delete (Identity (entry it)) (inFlight s) ->
  adding s2 = adding s ->
  InvOn p s2.
Proof.
  intros HI Hit Ei Em Ea.
  assert (Hlt : (e < length (items s))%nat) by (eapply lookup_lt_Some; eauto).
  destruct (inv_held _ _ HI e) as (it0 & Hit0 & _ & _ & Hm);
    [right; apply elem_of_cons; auto|].
  rewrite Hit in Hit0. injection Hit0 as <-.
  pose proof (inv_nodup _ _ HI) as Hnd.
  apply NoDup_cons in Hnd as [Hne Hnd].
  split; rewrite ?Ei, ?Em, ?Ea.
  - intros l it0. destruct (decide (e = l)) as [<-|Hnel].
    + rewrite list_lookup_insert_eq by exact Hlt. intros [= <-].
      eapply Notified; reflexivity.
    + rewrite list_lookup_insert_ne by exact Hnel. apply (inv_items _ _ HI).
  - intros l Hl.
    assert (Hl' : l ∈ adding s \/ l ∈ e :: p)
      by (destruct Hl; [left | right; apply elem_of_cons]; auto).
    assert (Hnel : e <> l).
    { intros <-. destruct Hl as [Hl|Hl]; [|contradiction].
      apply (inv_adding _ _ HI e Hl). apply elem_of_cons. auto. }
    destruct (inv_held _ _ HI l Hl') as (it0 & Hit0 & Hc0 & Hf0 & Hm0).
    exists it0. rewrite list_lookup_insert_ne by exact Hnel.
    repeat split; try assumption.
    rewrite lookup_delete_ne; [exact Hm0|].
    intros Heq. rewrite Heq in Hm. congruence.
  - exact Hnd.
  - intros l Hl Hin. apply (inv_adding _ _ HI l Hl). apply elem_of_cons. auto.
Qed.

(** The notification loop of [doFlush] on a batch of queued items. *)
Lemma notifyAll_spec err es : forall rest s,
  InvOn (rest ++ es) s ->
  exists s', notifyAll es err s = Ok (tt, s')
    /\ InvOn rest s'
    /\ (buf s' = buf s /\ work s' = work s /\ flushing s' = flushing s
        /\ adding s' = adding s /\ entryIndex s' = entryIndex s
        /\ world s' = world s)
    /\ (forall l it, l ∈ es -> items s !! l = Some it ->
          items s' !! l
          = Some (QueueItem (entry it) (Chan (Some (Closure err l)) true) NotRun)
          /\ inFlight s' !! Identity (entry it) = None)
    /\ (forall l, l ∉ es -> items s' !! l = items s !! l)
    /\ (forall k, inFlight s !! k = None -> inFlight s' !! k = None).
Proof.
  induction es as [|e es IH]; intros rest s HI.
  - exists s. cbn. rewrite app_nil_r in HI.
    split; [reflexivity|]. split; [exact HI|].
    split; [repeat split|]. split; [|split; auto].
    intros l it Hl. apply elem_of_nil in Hl. contradiction.
  - apply (InvOn_perm _ (e :: rest ++ es)) in HI;
      [|symmetry; apply Permutation_middle].
    destruct (inv_held _ _ HI e) as (it & Hit & Hc & Hf & Hm);
      [right; apply elem_of_cons; auto|].
    pose proof (inv_nodup _ _ HI) as Hnd.
    apply NoDup_cons in Hnd as [Hne _].
    assert (Hne' : e ∉ es) by (intros Hx; apply Hne, elem_of_app; auto).
    set (it1 := QueueItem (entry it) (Chan (Some (Closure err e)) true) NotRun).
    set (s2 := set_inFlight (delete (Identity (entry it)) (inFlight s))
                 (set_items (<[e := it1]> (items s)) s)).
    assert (Hlt : (e < length (items s))%nat) by (eapply lookup_lt_Some; eauto).
    assert (Hstep : notifyAll (e :: es) err s = notifyAll es err s2).
    { cbn [notifyAll].
      erewrite bind_eq; [|apply (notify_waiting _ _ _ _ Hit Hc)].
      unfold entryOf.
      erewrite bind_eq;
        [|erewrite bind_eq;
           [|apply getItem_eq; st;
             apply list_lookup_insert_eq; exact Hlt]; reflexivity].
      erewrite bind_eq; [|reflexivity].
      rewrite Hf. reflexivity. }
    assert (HI2 : InvOn (rest ++ es) s2)
      by (eapply InvOn_dequeue; [exact HI | exact Hit | reflexivity..]).
    destruct (IH rest s2 HI2)
      as (s' & Hrun & HI' & Hframe & Hes & Hrest & Hnone).
    exists s'. rewrite Hstep.
    split; [exact Hrun|]. split; [exact HI'|]. split; [exact Hframe|].
    split; [|split].
    + intros l it0 Hl Hit0. apply elem_of_cons in Hl as [->|Hl].
      * rewrite Hit in Hit0. injection Hit0 as <-. split.
        -- rewrite (Hrest e Hne'). subst s2. st.
           apply list_lookup_insert_eq. exact Hlt.
        -- apply Hnone. subst s2. st. apply lookup_delete_eq.
      * assert (Hnel : e <> l) by (intros <-; contradiction).
        apply Hes; [exact Hl|]. subst s2. st.
        rewrite list_lookup_insert_ne by exact Hnel. exact Hit0.
    + intros l Hl. apply not_elem_of_cons in Hl as [Hnel Hl].
      rewrite (Hrest l Hl). subst s2. st.
      apply list_lookup_insert_ne. congruence.
    + intros k Hk. apply Hnone. subst s2. st.
      apply lookup_delete_None. auto.
Qed.

(** The first half of a turn of the worker: the batch is taken from the
    channel and flushed. *)
Lemma worker_flush_spec s es w' idx' err :
  Inv s -> work s = Some es -> flushing s = None ->
  flush (dataOf s es) (world s) (entryIndex s) = (w', idx', err) ->
  worker_flush flush s
  = Ok (tt, set_flushing (Some (es, err))
              (set_storage idx' w' (set_work None s)))
  /\ Inv (set_flushing (Some (es, err))
            (set_storage idx' w' (set_work None s))).
Proof.
  intros HI Hw Hfl Hflush. unfold Inv, queued in HI.
  rewrite Hw, Hfl in HI. cbn [default batch] in HI. rewrite app_nil_r in HI.
  split.
  - unfold worker_flush. rewrite Hw, Hfl.
    erewrite bind_eq.
    2:{ apply entriesData_dataOf. intros l Hl. st.
        destruct (inv_held _ _ HI l) as (it & Hit & _);
          [right; apply elem_of_app; auto | eauto]. }
    erewrite bind_eq with (a := err).
    2:{ unfold call_flush. change (dataOf (set_work None s) es) with (dataOf s es).
        st. rewrite Hflush. reflexivity. }
    reflexivity.
  - unfold Inv, queued. st. cbn [default batch app].
    eapply InvOn_ext; [..|exact HI]; reflexivity.
Qed.

(** The second half: the notifications.  It returns, every item of the
    batch is notified with the error of the flush function and is taken out
    of the dedup map. *)
Lemma worker_notify_spec s es err :
  Inv s -> flushing s = Some (es, err) ->
  exists s', worker_notify s = Ok (tt, s')
    /\ Inv s'
    /\ (buf s' = buf s /\ work s' = work s /\ flushing s' = None
        /\ adding s' = adding s /\ entryIndex s' = entryIndex s
        /\ world s' = world s)
    /\ (forall l, l ∈ es -> exists it,
          items s !! l = Some it
          /\ items s' !! l
             = Some (QueueItem (entry it) (Chan (Some (Closure err l)) true) NotRun)
          /\ inFlight s' !! Identity (entry it) = None)
    /\ (forall l, l ∉ es -> items s' !! l = items s !! l)
    /\ (forall k, inFlight s !! k = None -> inFlight s' !! k = None).
Proof.
  intros HI Hfl. unfold Inv, queued in HI. rewrite Hfl in HI.
  cbn [batch] in HI. rewrite app_assoc in HI.
  unfold worker_notify. rewrite Hfl.
  assert (HI0 : InvOn ((buf s ++ default [] (work s)) ++ es) (set_flushing None s))
    by (eapply InvOn_ext; [..|exact HI]; reflexivity).
  destruct (notifyAll_spec err es _ _ HI0)
    as (s' & Hrun & HI' & (Hb & Hw & Hf & Ha & Hidx & Hwo) & Hes & Hrest & Hnone).
  exists s'. split; [exact Hrun|]. split; [|split; [|split; [|split]]].
  - unfold Inv, queued. rewrite Hb, Hw, Hf. st. cbn [batch].
    rewrite app_nil_r. exact HI'.
  - repeat split; assumption.
  - intros l Hl. destruct (inv_held _ _ HI l) as (it & Hit & _).
    { right. apply elem_of_app. auto. }
    exists it. split; [exact Hit|]. apply Hes; assumption.
  - exact Hrest.
  - exact Hnone.
Qed.

(** A whole turn of the worker is its two halves with nothing in between. *)
Lemma worker_halves s :
  worker flush s = (worker_flush flush ;; worker_notify) s.
Proof.
  assert (E : (worker_flush flush ;; worker_notify) s
              = match worker_flush flush s with
                | Ok (_, s1) => worker_notify s1
                | Panic => Panic
                | Block => Block
                end) by reflexivity.
  rewrite E. clear E. unfold worker, worker_flush.
  destruct (work s) as [es|] eqn:Hw; [|reflexivity].
  destruct (flushing s) as [fl|] eqn:Hfl; [reflexivity|].
  unfold doFlush, bind.
  destruct (entriesData es (set_work None s)) as [[ds s1]| |] eqn:Hd;
    [|reflexivity..].
  apply entriesData_Ok in Hd as ->.
  unfold call_flush. st.
  destruct (flush ds (world s) (entryIndex s)) as [[w' idx'] err].
  unfold modify, worker_notify. st. f_equal.
  destruct s. cbn in *. subst. reflexivity.
Qed.

Lemma Inv_worker_flush s s' :
  Inv s -> worker_flush flush s = Ok (tt, s') -> Inv s'.
Proof.
  intros HI H.
  destruct (work s) as [es|] eqn:Hw;
    [|unfold worker_flush in H; rewrite Hw in H; discriminate].
  destruct (flushing s) as [fl|] eqn:Hfl;
    [unfold worker_flush in H; rewrite Hw, Hfl in H; discriminate|].
  destruct (flush (dataOf s es) (world s) (entryIndex s)) as [[w' idx'] err] eqn:Hflush.
  destruct (worker_flush_spec s es w' idx' err HI Hw Hfl Hflush) as [Heq HI'].
  rewrite Heq in H. injection H as <-. exact HI'.
Qed.

Lemma Inv_worker_notify s s' :
  Inv s -> worker_notify s = Ok (tt, s') -> Inv s'.
Proof.
  intros HI H.
  destruct (flushing s) as [[es err]|] eqn:Hfl;
    [|unfold worker_notify in H; rewrite Hfl in H; discriminate].
  destruct (worker_notify_spec s es err HI Hfl) as (s2 & Hrun & HI2 & _).
  rewrite Hrun in H. injection H as <-. exact HI2.
Qed.

Lemma Inv_worker s s' : Inv s -> worker flush s = Ok (tt, s') -> Inv s'.
Proof.
  intros HI H. rewrite worker_halves in H.
  apply bind_Ok in H as ([] & s1 & H1 & H2).
  eapply Inv_worker_notify; [eapply Inv_worker_flush|]; eauto.
Qed.

Lemma Inv_exec o s s' : Inv s -> exec flush o s = Ok (tt, s') -> Inv s'.
Proof.
  intros HI. destruct o as [e pushErr|e|l pushErr| | | | |fut]; cbn [exec];
    intros H.
  - apply bind_Ok in H as (fut & s1 & Ha & H). injection H as <-.
    eapply Inv_Add; eauto.
  - apply bind_Ok in H as (r & s1 & Ha & H). injection H as <-.
    eapply Inv_Add_begin; eauto.
  - apply bind_Ok in H as (fut & s1 & Ha & H). injection H as <-.
    eapply Inv_Add_end; eauto.
  - eapply Inv_toWork; eauto.
  - eapply Inv_worker; eauto.
  - eapply Inv_worker_flush; eauto.
  - eapply Inv_worker_notify; eauto.
  - apply bind_Ok in H as (r & s1 & Hc & H). injection H as ->.
    pose proof (InvOn_call_future _ _ _ _ _ HI Hc) as HI1.
    destruct (call_future_frame _ _ _ _ Hc) as (Hb & Hw & Hf & _).
    unfold Inv, queued. rewrite Hb, Hw, Hf. exact HI1.
Qed.

Lemma Inv_run ops : forall s s',
  Inv s -> run flush ops s = Ok (tt, s') -> Inv s'.
Proof.
  induction ops as [|o ops IH]; intros s s' HI H; cbn in H.
  - injection H as <-. exact HI.
  - apply bind_Ok in H as ([] & s1 & Ho & H).
    eapply IH; [eapply Inv_exec; eauto | exact H].
Qed.

Lemma Inv_reachable ops (w0 : W) s :
  run flush ops (NewQueue w0) = Ok (tt, s) -> Inv s.
Proof. intros H. eapply Inv_run; [apply Inv_NewQueue | exact H]. Qed.

(** *** What the steps leave alone *)

Lemma Add_begin_frame s e r s' :
  Add_begin e s = Ok (r, s') ->
  (exists tl, items s' = items s ++ tl)
  /\ flushing s' = flushing s /\ entryIndex s' = entryIndex s
  /\ world s' = world s.
Proof.
  destruct (inFlight s !! Identity e) as [l|] eqn:Hk.
  - rewrite (Add_begin_dupe _ _ _ Hk). intros [= _ <-].
    split; [exists []; rewrite app_nil_r; reflexivity | auto].
  - rewrite (Add_begin_new _ _ Hk). intros [= _ <-].
    split; [eexists; reflexivity | auto].
Qed.

Lemma Add_end_frame s l pushErr fut s' :
  Inv s -> Add_end l pushErr s = Ok (fut, s') ->
  (forall l0, l0 <> l -> items s' !! l0 = items s !! l0)
  /\ (exists it, items s !! l = Some it /\ c it = make_chan)
  /\ flushing s' = flushing s /\ entryIndex s' = entryIndex s
  /\ world s' = world s.
Proof.
  intros HI H. apply Add_end_Ok in H as [Hin H].
  destruct (inv_held _ _ HI l (or_introl Hin)) as (it & Hit & Hc & _).
  split; [|split; [eauto | ]].
  - intros l0 Hne. destruct pushErr as [err|].
    + rewrite (Add_rest_refused (set_adding (adding s ∖ {[l]}) s) l it err Hit Hc)
        in H. injection H as _ <-.
      st. apply list_lookup_insert_ne. congruence.
    + rewrite Add_rest_pushed in H. injection H as _ <-. reflexivity.
  - destruct pushErr as [err|].
    + rewrite (Add_rest_refused (set_adding (adding s ∖ {[l]}) s) l it err Hit Hc)
        in H. injection H as _ <-.
      auto.
    + rewrite Add_rest_pushed in H. injection H as _ <-. auto.
Qed.

Lemma worker_flush_frame s s' :
  Inv s -> worker_flush flush s = Ok (tt, s') ->
  items s' = items s /\ flushing s = None.
Proof.
  intros HI H.
  destruct (work s) as [es|] eqn:Hw;
    [|unfold worker_flush in H; rewrite Hw in H; discriminate].
  destruct (flushing s) as [fl|] eqn:Hfl;
    [unfold worker_flush in H; rewrite Hw, Hfl in H; discriminate|].
  destruct (flush (dataOf s es) (world s) (entryIndex s)) as [[w' idx'] err] eqn:Hflush.
  destruct (worker_flush_spec s es w' idx' err HI Hw Hfl Hflush) as [Heq _].
  rewrite Heq in H. injection H as <-. auto.
Qed.

(** A closed channel stays closed: a notified item changes only when its
    future is called for the first time. *)
Lemma closed_item_step o s s' l it :
  Inv s -> exec flush o s = Ok (tt, s') ->
  items s !! l = Some it -> ch_closed (c it) = true ->
  items s' !! l = Some it
  \/ exists cl, c it = Chan (Some cl) true /\ f it = NotRun
       /\ items s' !! l
          = Some (QueueItem (entry it) (Chan None true) (Ran (call_closure cl s))).
Proof.
  intros HI H Hit Hcl.
  assert (Hlt : (l < length (items s))%nat) by (eapply lookup_lt_Some; eauto).
  assert (Hbegin : forall e r s1, Add_begin e s = Ok (r, s1) ->
                     items s1 !! l = Some it).
  { intros e r s1 Hb. apply Add_begin_frame in Hb as [[tl ->] _].
    rewrite lookup_app_l by exact Hlt. exact Hit. }
  assert (Hend : forall s0 l0 pushErr fut s1,
             Inv s0 -> items s0 !! l = Some it ->
             Add_end l0 pushErr s0 = Ok (fut, s1) -> items s1 !! l = Some it).
  { intros s0 l0 pushErr fut s1 HI0 Hit0 He.
    apply (Add_end_frame _ _ _ _ _ HI0) in He as (Hother & (it0 & Hit0' & Hc0) & _).
    rewrite Hother; [exact Hit0|].
    intros Heq. assert (it0 = it) as -> by congruence.
    rewrite Hc0 in Hcl. discriminate. }
  assert (Hnotify : forall s0 s1, Inv s0 -> items s0 !! l = Some it ->
             worker_notify s0 = Ok (tt, s1) -> items s1 !! l = Some it).
  { intros s0 s1 HI0 Hit0 Hn.
    destruct (flushing s0) as [[es err]|] eqn:Hfl;
      [|unfold worker_notify in Hn; rewrite Hfl in Hn; discriminate].
    destruct (worker_notify_spec s0 es err HI0 Hfl)
      as (s2 & Hrun & _ & _ & _ & Hrest & _).
    rewrite Hrun in Hn. injection Hn as <-. rewrite Hrest; [exact Hit0|].
    intros Hin. destruct (inv_held _ _ HI0 l) as (it0 & Hit0' & Hc0 & _).
    { right. unfold queued. rewrite Hfl. cbn [batch].
      rewrite !elem_of_app. auto. }
    rewrite Hit0 in Hit0'. injection Hit0' as <-.
    rewrite Hc0 in Hcl. discriminate. }
  destruct o as [e pushErr|e|l0 pushErr| | | | |[l0]]; cbn [exec] in H.
  - left. apply bind_Ok in H as (fut & s1 & Ha & H). injection H as ->.
    rewrite (Add_halves s e pushErr (adding_fresh s HI)) in Ha.
    apply bind_Ok in Ha as ([l1 d] & s1 & Hb & Ha).
    pose proof (Hbegin _ _ _ Hb) as Hit1.
    destruct d; [injection Ha as _ <-; exact Hit1|].
    eapply Hend; [eapply Inv_Add_begin; eauto | exact Hit1 | exact Ha].
  - left. apply bind_Ok in H as (r & s1 & Hb & H). injection H as ->. eauto.
  - left. apply bind_Ok in H as (fut & s1 & He & H). injection H as ->. eauto.
  - left. unfold toWork in H. destruct (work s); [discriminate|].
    injection H as <-. exact Hit.
  - left. rewrite worker_halves in H.
    apply bind_Ok in H as ([] & s1 & H1 & H2).
    eapply Hnotify; [eapply Inv_worker_flush; eauto | | exact H2].
    apply (worker_flush_frame _ _ HI) in H1 as [-> _]. exact Hit.
  - left. apply (worker_flush_frame _ _ HI) in H as [-> _]. exact Hit.
  - left. eauto.
  - apply bind_Ok in H as (r & s1 & Hc & H). injection H as ->.
    destruct (decide (l0 = l)) as [->|Hne].
    + destruct (inv_items _ _ HI l it Hit) as [Hch Hf|err Hch Hf|r0 Hch Hf].
      * rewrite Hch in Hcl. discriminate.
      * right. exists (Closure err l).
        rewrite (call_future_notified _ _ _ _ Hit Hf Hch) in Hc.
        injection Hc as _ <-. st.
        split; [exact Hch|]. split; [exact Hf|].
        apply list_lookup_insert_eq. exact Hlt.
      * left. rewrite (call_future_ran _ _ _ _ Hit Hf) in Hc.
        injection Hc as _ <-. exact Hit.
    + left. apply call_future_Ok in Hc as (it0 & _ & [[_ ->]|[_ [ch ->]]]);
        [exact Hit|].
      st. rewrite list_lookup_insert_ne by exact Hne. exact Hit.
Qed.

Lemma notified_exec o s s' fut :
  Inv s -> exec flush o s = Ok (tt, s') -> notified s fut -> notified s' fut.
Proof.
  destruct fut as [l]. intros HI H (it & Hit & Hcl).
  destruct (closed_item_step _ _ _ _ _ HI H Hit Hcl)
    as [Hsame|(cl & _ & _ & Hnew)]; eexists; split; eauto.
Qed.

Lemma notified_run ops : forall s s' fut,
  Inv s -> run flush ops s = Ok (tt, s') -> notified s fut -> notified s' fut.
Proof.
  induction ops as [|o ops IH]; intros s s' fut HI H Hn; cbn in H.
  - injection H as <-. exact Hn.
  - apply bind_Ok in H as ([] & s1 & Ho & H).
    eapply IH; [eapply Inv_exec; eauto | exact H |].
    eapply notified_exec; eauto.
Qed.

(** *** Items notified with an error *)

Lemma failed_call s l err :
  failed s l err ->
  exists s', call_future (FutureOf l) s = Ok (Returned 0 (Some err), s').
Proof.
  intros (it & Hit & [[Hc Hf]|[Hc Hf]]).
  - rewrite (call_future_notified _ _ _ _ Hit Hf Hc). eauto.
  - rewrite (call_future_ran _ _ _ _ Hit Hf). eauto.
Qed.

Lemma failed_exec o s s' l err :
  Inv s -> exec flush o s = Ok (tt, s') -> failed s l err -> failed s' l err.
Proof.
  intros HI H (it & Hit & Hph).
  assert (Hcl : ch_closed (c it) = true)
    by (destruct Hph as [[-> _]|[-> _]]; reflexivity).
  destruct (closed_item_step _ _ _ _ _ HI H Hit Hcl)
    as [Hsame|(cl & Hc & Hf & Hnew)].
  - exists it. auto.
  - eexists. split; [exact Hnew|]. right. split; [reflexivity|].
    destruct Hph as [[Hc' _]|[_ Hf']]; [|congruence].
    rewrite Hc in Hc'. injection Hc' as ->. reflexivity.
Qed.

Lemma failed_run ops : forall s s' l err,
  Inv s -> run flush ops s = Ok (tt, s') -> failed s l err -> failed s' l err.
Proof.
  induction ops as [|o ops IH]; intros s s' l err HI H Hfail; cbn in H.
  - injection H as <-. exact Hfail.
  - apply bind_Ok in H as ([] & s1 & Ho & H).
    eapply IH; [eapply Inv_exec; eauto | exact H |].
    eapply failed_exec; eauto.
Qed.

(** *** Between the flush and the notifications *)

(** While the worker sits between [q.flush] and the notifications, nobody
    touches the indices: only the worker calls the flush function. *)
Lemma flushing_step o s s' es err l :
  Inv s -> exec flush o s = Ok (tt, s') ->
  flushing s = Some (es, err) -> l ∈ es ->
  (flushing s' = Some (es, err) /\ entryIndex s' = entryIndex s
   /\ world s' = world s)
  \/ notified s' (FutureOf l).
Proof.
  intros HI H Hfl Hl.
  destruct o as [e pushErr|e|l0 pushErr| | | | |fut]; cbn [exec] in H.
  - left. apply bind_Ok in H as (fut & s1 & Ha & H). injection H as ->.
    rewrite (Add_halves s e pushErr (adding_fresh s HI)) in Ha.
    apply bind_Ok in Ha as ([l1 d] & s1 & Hb & Ha).
    pose proof (Inv_Add_begin _ _ _ _ HI Hb) as HI1.
    apply Add_begin_frame in Hb as (_ & Hf1 & Hi1 & Hw1).
    destruct d; [injection Ha as _ <-; rewrite Hf1, Hi1, Hw1; auto|].
    apply (Add_end_frame _ _ _ _ _ HI1) in Ha as (_ & _ & Hf2 & Hi2 & Hw2).
    rewrite Hf2, Hi2, Hw2, Hf1, Hi1, Hw1. auto.
  - left. apply bind_Ok in H as (r & s1 & Hb & H). injection H as ->.
    apply Add_begin_frame in Hb as (_ & Hf1 & Hi1 & Hw1).
    rewrite Hf1, Hi1, Hw1. auto.
  - left. apply bind_Ok in H as (fut & s1 & He & H). injection H as ->.
    apply (Add_end_frame _ _ _ _ _ HI) in He as (_ & _ & Hf2 & Hi2 & Hw2).
    rewrite Hf2, Hi2, Hw2. auto.
  - left. unfold toWork in H. destruct (work s); [discriminate|].
    injection H as <-. auto.
  - unfold worker in H. rewrite Hfl in H. destruct (work s); discriminate.
  - apply (worker_flush_frame _ _ HI) in H as [_ Hnone]. congruence.
  - right. destruct (worker_notify_spec s es err HI Hfl)
      as (s2 & Hrun & _ & _ & Hes & _).
    rewrite Hrun in H. injection H as <-.
    destruct (Hes l Hl) as (it & _ & Hit' & _).
    eexists. split; [exact Hit' | reflexivity].
  - left. apply bind_Ok in H as (r & s1 & Hc & H). injection H as ->.
    destruct (call_future_frame _ _ _ _ Hc) as (_ & _ & Hf & _ & _ & Hi & Hw).
    rewrite Hf, Hi, Hw. auto.
Qed.

Lemma flushing_run ops : forall s s' es err l,
  Inv s -> run flush ops s = Ok (tt, s') ->
  flushing s = Some (es, err) -> l ∈ es ->
  (flushing s' = Some (es, err) /\ entryIndex s' = entryIndex s
   /\ world s' = world s)
  \/ notified s' (FutureOf l).
Proof.
  induction ops as [|o ops IH]; intros s s' es err l HI H Hfl Hl; cbn in H.
  - injection H as <-. auto.
  - apply bind_Ok in H as ([] & s1 & Ho & H).
    pose proof (Inv_exec _ _ _ HI Ho) as HI1.
    destruct (flushing_step _ _ _ _ _ _ HI Ho Hfl Hl)
      as [(Hfl1 & Hi1 & Hw1)|Hn].
    + destruct (IH _ _ _ _ _ HI1 H Hfl1 Hl) as [(Hfl2 & Hi2 & Hw2)|Hn];
        [left; rewrite Hi2, Hw2; auto | right; exact Hn].
    + right. eapply notified_run; eauto.
Qed.

(** An item of the batch being flushed has not been notified. *)
Lemma flushing_waiting s es err l :
  Inv s -> flushing s = Some (es, err) -> l ∈ es ->
  ~ notified s (FutureOf l).
Proof.
  intros HI Hfl Hl (it & Hit & Hcl).
  destruct (inv_held _ _ HI l) as (it0 & Hit0 & Hc0 & _).
  { right. unfold queued. rewrite Hfl. cbn [batch]. rewrite !elem_of_app. auto. }
  rewrite Hit in Hit0. injection Hit0 as <-. rewrite Hc0 in Hcl. discriminate.
Qed.

(** *** The claims about the queue *)


(** C3: when the flush function returns an error for the batch the worker
    received, then, whatever the other goroutines do before the worker
    reaches the notifications, the notifications are made; from then on the
    future of every item of the batch returns that error whenever it is
    called; the identity of every entry of the batch is gone from the dedup
    map, and [Add] of an entry with that identity allocates a new item with
    a new future and buffers it. *)
Theorem doFlush_error ops (w0 : W) s es w' idx' err :
  run flush ops (NewQueue w0) = Ok (tt, s) ->
  work s = Some es -> flushing s = None ->
  flush (dataOf s es) (world s) (entryIndex s) = (w', idx', Some err) ->
  exists s1, worker_flush flush s = Ok (tt, s1)
    /\ forall ops1 s2,
         run flush ops1 s1 = Ok (tt, s2) ->
         flushing s2 = Some (es, Some err) ->
         exists s', worker_notify s2 = Ok (tt, s')
           /\ forall l, l ∈ es -> exists it,
                items s !! l = Some it
                /\ (forall ops' s3, run flush ops' s' = Ok (tt, s3) ->
                      exists s4,
                        call_future (FutureOf l) s3
                        = Ok (Returned 0 (Some err), s4))
                /\ inFlight s' !! Identity (entry it) = None
                /\ (forall e pushErr, Identity e = Identity (entry it) ->
                      exists s3 it',
                        Add e pushErr s' = Ok (FutureOf (length (items s')), s3)
                        /\ items s' !! length (items s') = None
                        /\ items s3 !! length (items s') = Some it'
                        /\ entry it' = e
                        /\ (pushErr = None ->
                              buf s3 = buf s' ++ [length (items s')])).
Proof.
  intros Hreach Hw Hnone Hfl. pose proof (Inv_reachable _ _ _ Hreach) as HI.
  destruct (worker_flush_spec s es w' idx' (Some err) HI Hw Hnone Hfl)
    as [Hflush HI1].
  eexists. split; [exact Hflush|].
  intros ops1 s2 Hrun1 Hfl2.
  pose proof (Inv_run _ _ _ HI1 Hrun1) as HI2.
  destruct (worker_notify_spec s2 es (Some err) HI2 Hfl2)
    as (s' & Hrun & HI' & _ & Hes & _ & _).
  exists s'. split; [exact Hrun|]. intros l Hl.
  destruct (Hes l Hl) as (it2 & Hit2 & Hit' & Hgone).
  destruct (inv_held _ _ HI l) as (it & Hit & _).
  { right. unfold queued. rewrite Hw. cbn [default]. rewrite !elem_of_app. auto. }
  destruct (run_keeps _ _ _ Hrun1 l it Hit) as (it2' & Hit2' & He & _).
  assert (it2' = it2) as -> by congruence.
  rewrite He in Hit', Hgone.
  exists it. split; [exact Hit|]. split; [|split; [exact Hgone|]].
  - intros ops' s3 Hrun'. apply failed_call.
    eapply failed_run; [exact HI' | exact Hrun' |].
    eexists. split; [exact Hit'|]. left. split; reflexivity.
  - intros e pushErr Hid. rewrite <- Hid in Hgone.
    destruct pushErr as [err0|].
    + eexists. eexists. rewrite (Add_new_refused _ _ _ Hgone).
      split; [reflexivity|]. st.
      split; [apply lookup_ge_None; lia|].
      split; [rewrite lookup_app_r by lia; rewrite Nat.sub_diag; reflexivity|].
      split; [reflexivity | discriminate].
    + eexists. eexists. rewrite (Add_new_pushed _ _ Hgone).
      split; [reflexivity|]. st.
      split; [apply lookup_ge_None; lia|].
      split; [rewrite lookup_app_r by lia; rewrite Nat.sub_diag; reflexivity|].
      split; reflexivity.
Qed.

(** A whole [doFlush] is the case in which nothing happens in between. *)
Lemma doFlush_in_one_go s es :
  work s = Some es -> flushing s = None ->
  doFlush flush es (set_work None s)
  = (worker_flush flush ;; worker_notify) s.
Proof.
  intros Hw Hfl. rewrite <- worker_halves. unfold worker.
  rewrite Hw, Hfl. reflexivity.
Qed.

End Facts.

(** *** The claims at sample queues *)

Example sample_batch flush :
  work (stateAfter (W := nat) flush sample_ops 0%nat) = Some [0%nat; 1%nat].
Proof. reflexivity. Qed.


Lemma doFlush_error_witness :
  let err := ErrExternal "storage unavailable" in
  let s := stateAfter (failFlush err) sample_ops 0%nat in
  let s1 := stateAfter (failFlush err) (sample_ops ++ [OpWorkerFlush]) 0%nat in
  let s2 := stateAfter (failFlush err)
              (sample_ops ++ OpWorkerFlush :: sample_meanwhile) 0%nat in
  worker_flush (failFlush err) s = Ok (tt, s1)
  /\ exists s', worker_notify s2 = Ok (tt, s')
       /\ forall l, l ∈ [0%nat; 1%nat] -> exists it,
            items s !! l = Some it
            /\ (forall ops' s3, run (failFlush err) ops' s' = Ok (tt, s3) ->
                  exists s4,
                    call_future (FutureOf l) s3
                    = Ok (Returned 0 (Some err), s4))
            /\ inFlight s' !! Identity (entry it) = None
            /\ (forall e pushErr, Identity e = Identity (entry it) ->
                  exists s3 it',
                    Add e pushErr s' = Ok (FutureOf (length (items s')), s3)
                    /\ items s' !! length (items s') = None
                    /\ items s3 !! length (items s') = Some it'
                    /\ entry it' = e
                    /\ (pushErr = None ->
                          buf s3 = buf s' ++ [length (items s')])).
Proof.
  intros err s s1 s2.
  destruct (doFlush_error (failFlush err) sample_ops 0%nat s [0%nat; 1%nat]
              0%nat ∅ err) as (s1' & Hflush & Hnotify);
    [vm_compute; reflexivity..|].
  assert (Hs1 : worker_flush (failFlush err) s = Ok (tt, s1))
    by (vm_compute; reflexivity).
  split; [exact Hs1|].
  rewrite Hs1 in Hflush. injection Hflush as <-.
  apply (Hnotify sample_meanwhile s2); vm_compute; reflexivity.
Defined.

(** At that sample queue: the first item of the batch got index 0, the
    second was left without one. *)
Example firstFlush_futures :
  let s := stateAfter firstFlush
             (sample_ops ++ OpWorkerFlush :: sample_meanwhile ++ [OpWorkerNotify])
             0%nat in
  (exists s', call_future (FutureOf 0%nat) s = Ok (Returned 0 None, s'))
  /\ (exists s', call_future (FutureOf 1%nat) s = Ok (Panicked, s')).
Proof. split; eexists; vm_compute; reflexivity. Qed.

(** With a flush function that assigns indices: the first leaf gets index 0
    and so do its duplicates, the one that came while the first [Add] was
    under way and the one that came while the batch was being flushed; the
    second item of the batch gets index 1. *)
Example future_after_seqFlush :
  let during := stateAfter seqFlush (sample_ops ++ [OpWorkerFlush]) 0%nat in
  let s := stateAfter seqFlush
             (sample_ops ++ [OpWorkerFlush; OpAdd leaf_a' None; OpWorkerNotify])
             0%nat in
  Add leaf_a' None during = Ok (FutureOf 0%nat, during)
  /\ (exists s', call_future (FutureOf 0%nat) s = Ok (Returned 0 None, s'))
  /\ (exists s', call_future (FutureOf 1%nat) s = Ok (Returned 1 None, s')).
Proof.
  split; [vm_compute; reflexivity|].
  split; eexists; vm_compute; reflexivity.
Qed.

End StorageFacts.

(** ** Further facts about the queue *)

Module StorageMore.
Import Tessera Storage StorageFacts.

Section More.
Context {W : Type} (flush : FlushFunc W).
Implicit Types s : State W.

Ltac st :=
  cbn [buf inFlight work items entryIndex world adding flushing
       set_buf set_inFlight set_work set_items set_storage set_adding
       set_flushing].

Tactic Notation "st" "in" hyp(H) :=
  cbn [buf inFlight work items entryIndex world adding flushing
       set_buf set_inFlight set_work set_items set_storage set_adding
       set_flushing] in H.

(** *** The state after each step *)

Lemma Add_begin_state s e r s' :
  Add_begin e s = Ok (r, s') ->
  (exists l, inFlight s !! Identity e = Some l /\ r = (l, true) /\ s' = s)
  \/ (inFlight s !! Identity e = None /\ r = (length (items s), false)
      /\ s' = set_adding ({[length (items s)]} ∪ adding s)
                (set_inFlight (<[Identity e := length (items s)]> (inFlight s))
                   (set_items (items s ++ [QueueItem e make_chan NotRun]) s))).
Proof.
  destruct (inFlight s !! Identity e) as [l|] eqn:Hk.
  - rewrite (Add_begin_dupe _ _ _ Hk). intros [= <- <-]. left. eauto.
  - rewrite (Add_begin_new _ _ Hk). intros [= <- <-]. right. auto.
Qed.

Lemma Add_end_state s l pushErr fut s' :
  Inv s -> Add_end l pushErr s = Ok (fut, s') ->
  exists it, l ∈ adding s /\ items s !! l = Some it
    /\ c it = make_chan /\ f it = NotRun
    /\ inFlight s !! Identity (entry it) = Some l
    /\ fut = FutureOf l
    /\ s' = match pushErr with
            | None => set_buf (buf s ++ [l]) (set_adding (adding s ∖ {[l]}) s)
            | Some err =>
                set_items
                  (<[l := QueueItem (entry it)
                            (Chan (Some (Closure (Some err) l)) true) NotRun]>
                     (items s))
                  (set_adding (adding s ∖ {[l]}) s)
            end.
Proof.
  intros HI H. apply Add_end_Ok in H as [Hin H].
  destruct (inv_held _ _ HI l (or_introl Hin)) as (it & Hit & Hc & Hf & Hm).
  exists it. do 5 (split; [assumption|]).
  destruct pushErr as [err|].
  - rewrite (Add_rest_refused (set_adding (adding s ∖ {[l]}) s) l it err Hit Hc)
      in H. injection H as <- <-. rewrite Hf. auto.
  - rewrite Add_rest_pushed in H. injection H as <- <-. auto.
Qed.

Lemma toWork_state s s' :
  toWork s = Ok (tt, s') ->
  work s = None /\ s' = set_work (Some (buf s)) (set_buf [] s).
Proof.
  unfold toWork. destruct (work s); [discriminate|]. intros [= <-]. auto.
Qed.

Lemma worker_flush_state s s' :
  Inv s -> worker_flush flush s = Ok (tt, s') ->
  exists es w' idx' err,
    work s = Some es /\ flushing s = None
    /\ flush (dataOf s es) (world s) (entryIndex s) = (w', idx', err)
    /\ s' = set_flushing (Some (es, err)) (set_storage idx' w' (set_work None s)).
Proof.
  intros HI H.
  destruct (work s) as [es|] eqn:Hw;
    [|unfold worker_flush in H; rewrite Hw in H; discriminate].
  destruct (flushing s) as [fl|] eqn:Hfl;
    [unfold worker_flush in H; rewrite Hw, Hfl in H; discriminate|].
  destruct (flush (dataOf s es) (world s) (entryIndex s)) as [[w' idx'] err]
    eqn:Hflush.
  destruct (worker_flush_spec flush s es w' idx' err HI Hw Hfl Hflush) as [Heq _].
  rewrite Heq in H. injection H as <-.
  exists es, w', idx', err. auto.
Qed.

(** The notification loop takes keys out of the dedup map, those of the
    batch, and does nothing else to it. *)
Lemma notifyAll_inFlight err es : forall s s',
  notifyAll es err s = Ok (tt, s') ->
  forall k,
    inFlight s' !! k = inFlight s !! k
    \/ (inFlight s' !! k = None
        /\ exists l it, l ∈ es /\ items s !! l = Some it
                        /\ Identity (entry it) = k).
Proof.
  induction es as [|e es IH]; intros s s' H k; cbn [notifyAll] in H.
  - unfold ret in H. injection H as <-. auto.
  - apply bind_Ok in H as ([] & s1 & Hn & H).
    apply notify_Ok in Hn as (it & ch & Hit & ->).
    assert (Hlt : (e < length (items s))%nat) by (eapply lookup_lt_Some; eauto).
    apply bind_Ok in H as (d & s2 & Hd & H).
    apply entryOf_Ok in Hd as (it1 & Hit1 & -> & ->).
    st in Hit1. rewrite list_lookup_insert_eq in Hit1 by exact Hlt.
    injection Hit1 as <-. cbn [entry] in H.
    apply bind_Ok in H as ([] & s3 & Hdel & H). injection Hdel as <-.
    destruct (IH _ _ H k) as [Hsame|[Hnone (l & it' & Hl & Hit' & Hid)]].
    + rewrite Hsame. st.
      destruct (decide (Identity (entry it) = k)) as [<-|Hne].
      * right. rewrite lookup_delete_eq. split; [reflexivity|].
        exists e, it. split; [apply elem_of_cons; auto | auto].
      * left. apply lookup_delete_ne. exact Hne.
    + right. split; [exact Hnone|]. st in Hit'.
      destruct (decide (e = l)) as [<-|Hne].
      * rewrite list_lookup_insert_eq in Hit' by exact Hlt.
        injection Hit' as <-. exists e, it.
        split; [apply elem_of_cons; auto | auto].
      * rewrite list_lookup_insert_ne in Hit' by exact Hne.
        exists l, it'. split; [apply elem_of_cons; auto | auto].
Qed.

Lemma worker_notify_state s s' :
  Inv s -> worker_notify s = Ok (tt, s') ->
  exists es err,
    flushing s = Some (es, err)
    /\ (buf s' = buf s /\ work s' = work s /\ flushing s' = None
        /\ adding s' = adding s)
    /\ (forall l, l ∈ es -> exists it,
          items s !! l = Some it
          /\ items s' !! l
             = Some (QueueItem (entry it) (Chan (Some (Closure err l)) true) NotRun)
          /\ inFlight s' !! Identity (entry it) = None)
    /\ (forall l, l ∉ es -> items s' !! l = items s !! l)
    /\ (forall k, inFlight s' !! k = inFlight s !! k
          \/ (inFlight s' !! k = None
              /\ exists l it, l ∈ es /\ items s !! l = Some it
                              /\ Identity (entry it) = k)).
Proof.
  intros HI H.
  destruct (flushing s) as [[es err]|] eqn:Hfl;
    [|unfold worker_notify in H; rewrite Hfl in H; discriminate].
  destruct (worker_notify_spec s es err HI Hfl)
    as (s2 & Hrun & _ & (Hb & Hw & Hf & Ha & _) & Hes & Hrest & _).
  rewrite Hrun in H. injection H as <-.
  exists es, err. split; [reflexivity|]. split; [auto|].
  split; [exact Hes|]. split; [exact Hrest|].
  unfold worker_notify in Hrun. rewrite Hfl in Hrun.
  intros k. apply (notifyAll_inFlight _ _ _ _ Hrun k).
Qed.

Lemma call_future_state s l r s' :
  Inv s -> call_future (FutureOf l) s = Ok (r, s') ->
  exists it, items s !! l = Some it /\ ch_closed (c it) = true
    /\ (s' = s
        \/ s' = set_items (<[l := QueueItem (entry it) (Chan None true) (Ran r)]>
                             (items s)) s).
Proof.
  intros HI H.
  destruct (call_future_Ok _ _ _ _ H) as (it & Hit & _).
  exists it. split; [exact Hit|].
  destruct (inv_items _ _ HI l it Hit) as [Hc Hf|err Hc Hf|r0 Hc Hf].
  - rewrite (call_future_waiting _ _ _ Hit Hf Hc) in H. discriminate.
  - rewrite (call_future_notified _ _ _ _ Hit Hf Hc) in H.
    injection H as <- <-. rewrite Hc. split; [reflexivity|]. right. reflexivity.
  - rewrite (call_future_ran _ _ _ _ Hit Hf) in H.
    injection H as <- <-. rewrite Hc. split; [reflexivity|]. left. reflexivity.
Qed.

(** *** A property kept by the six steps is kept by every schedule *)

Section Stable.
Variable P : State W -> Prop.
Variable R : option error -> Prop.
Hypothesis P_Add_begin : forall s e r s',
  Inv s -> P s -> Add_begin e s = Ok (r, s') -> P s'.
Hypothesis P_Add_end : forall s l pushErr fut s',
  Inv s -> P s -> R pushErr -> Add_end l pushErr s = Ok (fut, s') -> P s'.
Hypothesis P_toWork : forall s s',
  Inv s -> P s -> toWork s = Ok (tt, s') -> P s'.
Hypothesis P_worker_flush : forall s s',
  Inv s -> P s -> worker_flush flush s = Ok (tt, s') -> P s'.
Hypothesis P_worker_notify : forall s s',
  Inv s -> P s -> worker_notify s = Ok (tt, s') -> P s'.
Hypothesis P_call_future : forall s fut r s',
  Inv s -> P s -> call_future fut s = Ok (r, s') -> P s'.

Lemma stable_exec o s s' :
  Inv s -> P s -> R (pushErrOf o) -> exec flush o s = Ok (tt, s') -> P s'.
Proof.
  intros HI HP HR H.
  destruct o as [e pushErr|e|l pushErr| | | | |fut]; cbn [exec] in H;
    cbn [pushErrOf] in HR.
  - apply bind_Ok in H as (fut & s1 & Ha & H). injection H as ->.
    rewrite (Add_halves s e pushErr (adding_fresh s HI)) in Ha.
    apply bind_Ok in Ha as ([l1 d] & s1 & Hb & Ha).
    pose proof (Inv_Add_begin _ _ _ _ HI Hb) as HI1.
    pose proof (P_Add_begin _ _ _ _ HI HP Hb) as HP1.
    destruct d; [injection Ha as _ <-; exact HP1|].
    eapply P_Add_end; eauto.
  - apply bind_Ok in H as (r & s1 & Hb & H). injection H as ->. eauto.
  - apply bind_Ok in H as (fut & s1 & He & H). injection H as ->. eauto.
  - eauto.
  - rewrite worker_halves in H. apply bind_Ok in H as ([] & s1 & H1 & H2).
    eapply P_worker_notify; [eapply Inv_worker_flush; eauto | | exact H2].
    eauto.
  - eauto.
  - eauto.
  - apply bind_Ok in H as (r & s1 & Hc & H). injection H as ->. eauto.
Qed.

Lemma stable_run ops : forall s s',
  Inv s -> P s -> Forall (fun o => R (pushErrOf o)) ops ->
  run flush ops s = Ok (tt, s') -> P s'.
Proof.
  induction ops as [|o ops IH]; intros s s' HI HP HR H; cbn in H.
  - injection H as <-. exact HP.
  - apply bind_Ok in H as ([] & s1 & Ho & H).
    apply Forall_cons in HR as [HRo HR].
    eapply IH; [eapply Inv_exec; eauto | | exact HR | exact H].
    eapply stable_exec; eauto.
Qed.

End Stable.

(** *** The dedup map files items under their identity *)

Lemma Registered_mono s s' :
  keeps s s' ->
  (forall k l, inFlight s' !! k = Some l -> inFlight s !! k = Some l) ->
  Registered s -> Registered s'.
Proof.
  intros Hk Hsub HR k l Hl.
  destruct (HR k l (Hsub k l Hl)) as (it & Hit & Hid).
  destruct (Hk l it Hit) as (it' & Hit' & He & _).
  exists it'. split; [exact Hit'|]. rewrite He. exact Hid.
Qed.

Lemma Registered_Add_begin s e r s' :
  Registered s -> Add_begin e s = Ok (r, s') -> Registered s'.
Proof.
  intros HR Hb.
  destruct (Add_begin_state _ _ _ _ Hb) as [(l & _ & _ & ->)|(Hk & _ & ->)];
    [exact HR|].
  intros k l. st. intros Hl.
  destruct (decide (Identity e = k)) as [<-|Hne].
  - rewrite lookup_insert_eq in Hl. injection Hl as <-.
    exists (QueueItem e make_chan NotRun). split; [|reflexivity].
    rewrite lookup_app_r by lia. rewrite Nat.sub_diag. reflexivity.
  - rewrite lookup_insert_ne in Hl by exact Hne.
    destruct (HR k l Hl) as (it & Hit & Hid). exists it. split; [|exact Hid].
    rewrite lookup_app_l by (eapply lookup_lt_Some; eauto). exact Hit.
Qed.

Lemma Registered_Add_end s l pushErr fut s' :
  Inv s -> Registered s -> Add_end l pushErr s = Ok (fut, s') -> Registered s'.
Proof.
  intros HI HR He.
  eapply Registered_mono; [eapply Add_end_keeps; eauto | | exact HR].
  destruct (Add_end_state _ _ _ _ _ HI He) as (it & _ & _ & _ & _ & _ & _ & ->).
  destruct pushErr; st; auto.
Qed.

Lemma Registered_worker_notify s s' :
  Inv s -> Registered s -> worker_notify s = Ok (tt, s') -> Registered s'.
Proof.
  intros HI HR Hn.
  eapply Registered_mono; [eapply worker_notify_keeps; eauto | | exact HR].
  destruct (worker_notify_state _ _ HI Hn) as (es & err & _ & _ & _ & _ & Hk).
  intros k l Hl. destruct (Hk k) as [Hsame|[Hnone _]]; congruence.
Qed.

Lemma Registered_call_future s fut r s' :
  Registered s -> call_future fut s = Ok (r, s') -> Registered s'.
Proof.
  intros HR Hc.
  eapply Registered_mono; [eapply call_future_keeps; eauto | | exact HR].
  destruct (call_future_frame _ _ _ _ Hc) as (_ & _ & _ & _ & -> & _). auto.
Qed.

Lemma Registered_run ops s s' :
  Inv s -> Registered s -> run flush ops s = Ok (tt, s') -> Registered s'.
Proof.
  intros HI HR H.
  refine (stable_run Registered (fun _ => True) _ _ _ _ _ _ ops s s' HI HR _ H).
  - intros s0 e r s1 _ HR0 Hb. eapply Registered_Add_begin; eauto.
  - intros s0 l p fut s1 HI0 HR0 _ He. eapply Registered_Add_end; eauto.
  - intros s0 s1 _ HR0 Ht. apply toWork_state in Ht as [_ ->]. exact HR0.
  - intros s0 s1 HI0 HR0 Hf.
    apply (worker_flush_state _ _ HI0) in Hf as (es & w' & idx' & err & _ & _ & _ & ->).
    exact HR0.
  - intros s0 s1 HI0 HR0 Hn. eapply Registered_worker_notify; eauto.
  - intros s0 fut r s1 _ HR0 Hc. eapply Registered_call_future; eauto.
  - apply Forall_forall. auto.
Qed.

Lemma Registered_NewQueue (w : W) : Registered (NewQueue w).
Proof. intros k l H. cbn in H. rewrite lookup_empty in H. discriminate. Qed.

(** *** An item whose channel is open is held *)

Lemma held_pushed s l l0 :
  held s l ->
  held (set_buf (buf s ++ [l0]) (set_adding (adding s ∖ {[l0]}) s)) l.
Proof.
  unfold held, queued. st. rewrite !elem_of_app, elem_of_difference.
  rewrite list_elem_of_singleton, elem_of_singleton.
  destruct (decide (l = l0)); tauto.
Qed.

Lemma held_toWork s l :
  work s = None -> held s l -> held (set_work (Some (buf s)) (set_buf [] s)) l.
Proof.
  unfold held, queued. st. intros ->. cbn [default].
  rewrite !elem_of_app. rewrite !elem_of_nil. tauto.
Qed.

Lemma held_worker_flush s l es fl w' idx' :
  work s = Some es -> flushing s = None -> held s l ->
  held (set_flushing (Some (es, fl)) (set_storage idx' w' (set_work None s))) l.
Proof.
  unfold held, queued. st. intros -> ->. cbn [default batch].
  rewrite !elem_of_app. rewrite !elem_of_nil. tauto.
Qed.

Lemma WaitingHeld_run ops s s' :
  Inv s -> WaitingHeld s -> run flush ops s = Ok (tt, s') -> WaitingHeld s'.
Proof.
  intros HI HW H.
  refine (stable_run WaitingHeld (fun _ => True) _ _ _ _ _ _ ops s s' HI HW _ H).
  - intros s0 e r s1 _ HW0 Hb.
    destruct (Add_begin_state _ _ _ _ Hb) as [(l & _ & _ & ->)|(Hk & _ & ->)];
      [exact HW0|].
    intros l it. st. rewrite lookup_app_Some. intros [Hit|[Hge Hit]] Hcl.
    + destruct (HW0 l it Hit Hcl) as [Ha|Hq]; [left|right; exact Hq].
      st. apply elem_of_union. auto.
    + assert (Hlen : (l - length (items s0) < 1)%nat)
        by (apply lookup_lt_Some in Hit; exact Hit).
      left. st. apply elem_of_union. left. apply elem_of_singleton. lia.
  - intros s0 l0 p fut s1 HI0 HW0 _ He.
    destruct (Add_end_state _ _ _ _ _ HI0 He)
      as (it0 & Hin & Hit0 & _ & _ & _ & _ & ->).
    assert (Hlt : (l0 < length (items s0))%nat) by (eapply lookup_lt_Some; eauto).
    destruct p as [err|].
    + intros l it. st. destruct (decide (l0 = l)) as [<-|Hne].
      * rewrite list_lookup_insert_eq by exact Hlt. intros [= <-]. discriminate.
      * rewrite list_lookup_insert_ne by exact Hne. intros Hit Hcl.
        destruct (HW0 l it Hit Hcl) as [Ha|Hq]; [left|right; exact Hq].
        st. apply elem_of_difference. split; [exact Ha|].
        rewrite elem_of_singleton. congruence.
    + intros l it Hit Hcl. apply held_pushed. exact (HW0 l it Hit Hcl).
  - intros s0 s1 _ HW0 Ht. apply toWork_state in Ht as [Hw ->].
    intros l it Hit Hcl. apply held_toWork; [exact Hw|]. exact (HW0 l it Hit Hcl).
  - intros s0 s1 HI0 HW0 Hf.
    apply (worker_flush_state _ _ HI0) in Hf
      as (es & w' & idx' & err & Hw & Hfl & _ & ->).
    intros l it Hit Hcl. apply held_worker_flush; [exact Hw | exact Hfl|].
    exact (HW0 l it Hit Hcl).
  - intros s0 s1 HI0 HW0 Hn.
    destruct (worker_notify_state _ _ HI0 Hn)
      as (es & err & Hfl & (Hb & Hw & Hf & Ha) & Hes & Hrest & _).
    intros l it Hit Hcl. destruct (decide (l ∈ es)) as [Hl|Hl].
    + destruct (Hes l Hl) as (it0 & _ & Hit' & _).
      rewrite Hit' in Hit. injection Hit as <-. discriminate.
    + rewrite (Hrest l Hl) in Hit.
      unfold held, queued. rewrite Ha, Hb, Hw, Hf. cbn [batch].
      destruct (HW0 l it Hit Hcl) as [Hx|Hx]; [left; exact Hx|right].
      unfold queued in Hx. rewrite Hfl in Hx. cbn [batch] in Hx.
      rewrite !elem_of_app in Hx. rewrite !elem_of_app, elem_of_nil. tauto.
  - intros s0 [l0] r s1 HI0 HW0 Hc.
    destruct (call_future_state _ _ _ _ HI0 Hc) as (it0 & Hit0 & _ & [->| ->]);
      [exact HW0|].
    assert (Hlt : (l0 < length (items s0))%nat) by (eapply lookup_lt_Some; eauto).
    intros l it. st. destruct (decide (l0 = l)) as [<-|Hne].
    + rewrite list_lookup_insert_eq by exact Hlt. intros [= <-]. discriminate.
    + rewrite list_lookup_insert_ne by exact Hne. intros Hit Hcl.
      exact (HW0 l it Hit Hcl).
  - apply Forall_forall. auto.
Qed.

Lemma WaitingHeld_NewQueue (w : W) : WaitingHeld (NewQueue w).
Proof. intros l it H. cbn in H. rewrite lookup_nil in H. discriminate. Qed.

(** A future that blocks belongs to a held item. *)
Lemma blocked_held s l :
  Inv s -> WaitingHeld s -> (l < length (items s))%nat ->
  call_future (FutureOf l) s = Block -> held s l.
Proof.
  intros HI HW Hlt Hb.
  destruct (lookup_lt_is_Some_2 _ _ Hlt) as [it Hit].
  destruct (inv_items _ _ HI l it Hit) as [Hc Hf|err Hc Hf|r Hc Hf].
  - apply (HW l it Hit). rewrite Hc. reflexivity.
  - rewrite (call_future_notified _ _ _ _ Hit Hf Hc) in Hb. discriminate.
  - rewrite (call_future_ran _ _ _ _ Hit Hf) in Hb. discriminate.
Qed.

Lemma held_blocked s l :
  Inv s -> held s l -> call_future (FutureOf l) s = Block.
Proof.
  intros HI Hh. destruct (inv_held _ _ HI l Hh) as (it & Hit & Hc & Hf & _).
  eapply call_future_waiting; eauto.
Qed.

(** *** Without a refused push the dedup map holds held items only *)

Lemma held_notified s s' es err l :
  flushing s = Some (es, err) ->
  buf s' = buf s -> work s' = work s -> flushing s' = None ->
  adding s' = adding s ->
  l ∉ es -> held s l -> held s' l.
Proof.
  unfold held, queued. intros -> -> -> -> ->. cbn [batch].
  rewrite !elem_of_app, elem_of_nil. tauto.
Qed.

Lemma OnlyHeld_run ops s s' :
  Inv s -> Registered s -> OnlyHeld s ->
  Forall (fun o => pushErrOf o = None) ops ->
  run flush ops s = Ok (tt, s') -> OnlyHeld s'.
Proof.
  intros HI HR HO Hops H.
  refine (proj2 (stable_run (fun s => Registered s /\ OnlyHeld s)
                   (fun p => p = None) _ _ _ _ _ _ ops s s' HI (conj HR HO)
                   Hops H)).
  - intros s0 e r s1 _ [HR0 HO0] Hb.
    split; [eapply Registered_Add_begin; eauto|].
    destruct (Add_begin_state _ _ _ _ Hb) as [(l & _ & _ & ->)|(Hk & _ & ->)];
      [exact HO0|].
    intros k l. st. intros Hl.
    destruct (decide (Identity e = k)) as [<-|Hne].
    + rewrite lookup_insert_eq in Hl. injection Hl as <-.
      left. st. apply elem_of_union. left. apply elem_of_singleton. reflexivity.
    + rewrite lookup_insert_ne in Hl by exact Hne.
      destruct (HO0 k l Hl) as [Ha|Hq]; [left|right; exact Hq].
      st. apply elem_of_union. auto.
  - intros s0 l0 p fut s1 HI0 [HR0 HO0] -> He.
    split; [eapply Registered_Add_end; eauto|].
    destruct (Add_end_state _ _ _ _ _ HI0 He) as (it & _ & _ & _ & _ & _ & _ & ->).
    intros k l Hl. apply held_pushed. exact (HO0 k l Hl).
  - intros s0 s1 _ [HR0 HO0] Ht. apply toWork_state in Ht as [Hw ->].
    split; [exact HR0|].
    intros k l Hl. apply held_toWork; [exact Hw|]. exact (HO0 k l Hl).
  - intros s0 s1 HI0 [HR0 HO0] Hf.
    apply (worker_flush_state _ _ HI0) in Hf
      as (es & w' & idx' & err & Hw & Hfl & _ & ->).
    split; [exact HR0|].
    intros k l Hl. apply held_worker_flush; [exact Hw | exact Hfl|].
    exact (HO0 k l Hl).
  - intros s0 s1 HI0 [HR0 HO0] Hn.
    split; [eapply Registered_worker_notify; eauto|].
    destruct (worker_notify_state _ _ HI0 Hn)
      as (es & err & Hfl & (Hb & Hw & Hf & Ha) & Hes & Hrest & Hk).
    intros k l Hl.
    assert (Hl0 : inFlight s0 !! k = Some l)
      by (destruct (Hk k) as [Hsame|[Hnone _]]; congruence).
    destruct (HR0 k l Hl0) as (it & Hit & Hid).
    eapply held_notified; [exact Hfl | assumption.. | | exact (HO0 k l Hl0)].
    intros Hin. destruct (Hes l Hin) as (it0 & Hit0 & _ & Hgone).
    assert (it0 = it) as -> by congruence.
    rewrite Hid in Hgone. congruence.
  - intros s0 fut r s1 _ [HR0 HO0] Hc.
    split; [eapply Registered_call_future; eauto|].
    destruct (call_future_frame _ _ _ _ Hc) as (Hb & Hw & Hf & Ha & Hm & _).
    intros k l Hl. rewrite Hm in Hl. unfold held, queued.
    rewrite Hb, Hw, Hf, Ha. exact (HO0 k l Hl).
Qed.

Lemma OnlyHeld_NewQueue (w : W) : OnlyHeld (NewQueue w).
Proof. intros k l H. cbn in H. rewrite lookup_empty in H. discriminate. Qed.

(** *** The identity of a notified item that is still in the dedup map *)

Lemma stuck_run k l ops s s' :
  Inv s -> inFlight s !! k = Some l -> notified s (FutureOf l) ->
  run flush ops s = Ok (tt, s') ->
  inFlight s' !! k = Some l.
Proof.
  intros HI Hk Hn H.
  refine (proj1 (stable_run
                   (fun s => inFlight s !! k = Some l /\ notified s (FutureOf l))
                   (fun _ => True) _ _ _ _ _ _ ops s s' HI (conj Hk Hn) _ H)).
  - intros s0 e r s1 _ [Hk0 (it & Hit & Hcl)] Hb.
    destruct (Add_begin_state _ _ _ _ Hb) as [(l0 & _ & _ & ->)|(He & _ & ->)];
      [split; [exact Hk0 | exists it; auto]|].
    split.
    + st. rewrite lookup_insert_ne; [exact Hk0 | congruence].
    + exists it. st. split; [|exact Hcl].
      rewrite lookup_app_l by (eapply lookup_lt_Some; eauto). exact Hit.
  - intros s0 l0 p fut s1 HI0 [Hk0 (it & Hit & Hcl)] _ He.
    destruct (Add_end_state _ _ _ _ _ HI0 He)
      as (it0 & _ & Hit0 & Hc0 & _ & _ & _ & ->).
    assert (Hne : l0 <> l).
    { intros ->. assert (it0 = it) as -> by congruence.
      rewrite Hc0 in Hcl. discriminate. }
    destruct p as [err|]; (split; [exact Hk0|]); exists it; st;
      (split; [|exact Hcl]); [|exact Hit].
    rewrite list_lookup_insert_ne by exact Hne. exact Hit.
  - intros s0 s1 _ [Hk0 Hn0] Ht. apply toWork_state in Ht as [_ ->].
    split; [exact Hk0 | exact Hn0].
  - intros s0 s1 HI0 [Hk0 Hn0] Hf.
    apply (worker_flush_state _ _ HI0) in Hf
      as (es & w' & idx' & err & _ & _ & _ & ->).
    split; [exact Hk0 | exact Hn0].
  - intros s0 s1 HI0 [Hk0 (it & Hit & Hcl)] Hw.
    destruct (worker_notify_state _ _ HI0 Hw)
      as (es & err & Hfl & _ & _ & Hrest & Hks).
    assert (Hopen : forall l', l' ∈ es -> l' <> l).
    { intros l' Hl' ->. destruct (inv_held _ _ HI0 l) as (it0 & Hit0 & Hc0 & _).
      { right. unfold queued. rewrite Hfl. cbn [batch].
        rewrite !elem_of_app. auto. }
      assert (it0 = it) as -> by congruence.
      rewrite Hc0 in Hcl. discriminate. }
    split.
    + destruct (Hks k) as [Hsame|[_ (l' & it' & Hl' & Hit' & Hid)]];
        [congruence|].
      exfalso. apply (Hopen l' Hl').
      destruct (inv_held _ _ HI0 l') as (it0 & Hit0 & _ & _ & Hm).
      { right. unfold queued. rewrite Hfl. cbn [batch].
        rewrite !elem_of_app. auto. }
      assert (it0 = it') as -> by congruence.
      rewrite Hid in Hm. congruence.
    + exists it. split; [|exact Hcl]. rewrite Hrest; [exact Hit|].
      intros Hin. exact (Hopen l Hin eq_refl).
  - intros s0 [l0] r s1 HI0 [Hk0 (it & Hit & Hcl)] Hc.
    destruct (call_future_state _ _ _ _ HI0 Hc) as (it0 & Hit0 & _ & [->| ->]);
      [split; [exact Hk0 | exists it; auto]|].
    split; [exact Hk0|]. st.
    assert (Hlt : (l0 < length (items s0))%nat) by (eapply lookup_lt_Some; eauto).
    destruct (decide (l0 = l)) as [<-|Hne].
    + eexists. split; [apply list_lookup_insert_eq; exact Hlt | reflexivity].
    + exists it. st. split; [|exact Hcl].
      rewrite list_lookup_insert_ne by exact Hne. exact Hit.
  - apply Forall_forall. auto.
Qed.

(** *** No step panics *)

Lemma bind_no_panic {A B} (m : M W A) (k : A -> M W B) s :
  m s <> Panic ->
  (forall a s1, m s = Ok (a, s1) -> k a s1 <> Panic) ->
  bind m k s <> Panic.
Proof.
  unfold bind. destruct (m s) as [[a s1]| |]; intros Hm Hk;
    [apply Hk; reflexivity | contradiction | discriminate].
Qed.

Lemma worker_flush_no_panic s : Inv s -> worker_flush flush s <> Panic.
Proof.
  intros HI.
  destruct (work s) as [es|] eqn:Hw;
    [|unfold worker_flush; rewrite Hw; discriminate].
  destruct (flushing s) as [fl|] eqn:Hfl;
    [unfold worker_flush; rewrite Hw, Hfl; discriminate|].
  destruct (flush (dataOf s es) (world s) (entryIndex s)) as [[w' idx'] err]
    eqn:Hflush.
  destruct (worker_flush_spec flush s es w' idx' err HI Hw Hfl Hflush) as [-> _].
  discriminate.
Qed.

Lemma worker_notify_no_panic s : Inv s -> worker_notify s <> Panic.
Proof.
  intros HI.
  destruct (flushing s) as [[es err]|] eqn:Hfl;
    [|unfold worker_notify; rewrite Hfl; discriminate].
  destruct (worker_notify_spec s es err HI Hfl) as (s' & -> & _).
  discriminate.
Qed.

Lemma exec_no_panic o s : Inv s -> allocated s o -> exec flush o s <> Panic.
Proof.
  intros HI Hal.
  destruct o as [e pushErr|e|l pushErr| | | | |[l]]; cbn [exec].
  - apply bind_no_panic; [|discriminate].
    destruct (inFlight s !! Identity e) as [l|] eqn:Hk.
    + rewrite (Add_dupe _ _ pushErr _ Hk). discriminate.
    + destruct pushErr as [err|].
      * rewrite (Add_new_refused _ _ err Hk). discriminate.
      * rewrite (Add_new_pushed _ _ Hk). discriminate.
  - apply bind_no_panic; [|discriminate].
    destruct (inFlight s !! Identity e) as [l|] eqn:Hk.
    + rewrite (Add_begin_dupe _ _ _ Hk). discriminate.
    + rewrite (Add_begin_new _ _ Hk). discriminate.
  - apply bind_no_panic; [|discriminate].
    unfold Add_end. destruct (decide (l ∈ adding s)) as [Hin|]; [|discriminate].
    destruct (inv_held _ _ HI l (or_introl Hin)) as (it & Hit & Hc & _).
    destruct pushErr as [err|].
    + rewrite (Add_rest_refused (set_adding (adding s ∖ {[l]}) s) l it err Hit Hc).
      discriminate.
    + rewrite Add_rest_pushed. discriminate.
  - unfold toWork. destruct (work s); discriminate.
  - rewrite worker_halves. apply bind_no_panic.
    + apply worker_flush_no_panic. exact HI.
    + intros [] s1 H1. apply worker_notify_no_panic.
      eapply Inv_worker_flush; eauto.
  - apply worker_flush_no_panic. exact HI.
  - apply worker_notify_no_panic. exact HI.
  - apply bind_no_panic; [|discriminate].
    cbn [allocated] in Hal.
    destruct (lookup_lt_is_Some_2 _ _ Hal) as [it Hit].
    destruct (inv_items _ _ HI l it Hit) as [Hc Hf|err Hc Hf|r Hc Hf].
    + rewrite (call_future_waiting _ _ _ Hit Hf Hc). discriminate.
    + rewrite (call_future_notified _ _ _ _ Hit Hf Hc). discriminate.
    + rewrite (call_future_ran _ _ _ _ Hit Hf). discriminate.
Qed.

(** *** Schedules in two parts *)

Lemma run_app ops1 : forall ops2 s,
  run flush (ops1 ++ ops2) s = (run flush ops1 ;; run flush ops2) s.
Proof.
  induction ops1 as [|o ops1 IH]; intros ops2 s; [reflexivity|].
  cbn [app run]. unfold bind.
  destruct (exec flush o s) as [[[] s1]| |]; [|reflexivity..].
  rewrite IH. reflexivity.
Qed.

(** *** Batches hold one entry of each identity *)

Lemma held_distinct s es :
  Inv s -> NoDup es -> (forall l, l ∈ es -> held s l) ->
  NoDup (Identity <$> dataOf s es) /\ length (dataOf s es) = length es.
Proof.
  intros HI. induction es as [|l es IH]; intros Hnd Hheld.
  - split; [apply NoDup_nil_2 | reflexivity].
  - apply NoDup_cons in Hnd as [Hnin Hnd].
    destruct IH as [IHnd IHlen]; [exact Hnd | |].
    { intros l0 Hl0. apply Hheld, elem_of_cons. auto. }
    destruct (inv_held _ _ HI l) as (it & Hit & _ & _ & Hm).
    { apply Hheld, elem_of_cons. auto. }
    assert (E : dataOf s (l :: es) = entry it :: dataOf s es).
    { unfold dataOf. cbn [omap list_omap]. rewrite Hit. reflexivity. }
    rewrite E. rewrite fmap_cons. split; [|cbn [length]; congruence].
    apply NoDup_cons. split; [|exact IHnd].
    intros Hin. apply list_elem_of_fmap in Hin as (d & Hid & Hd).
    unfold dataOf in Hd. apply list_elem_of_omap in Hd as (l' & Hl' & Hd).
    destruct (inv_held _ _ HI l') as (it' & Hit' & _ & _ & Hm').
    { apply Hheld, elem_of_cons. auto. }
    rewrite Hit' in Hd. injection Hd as <-.
    rewrite Hid in Hm. rewrite Hm in Hm'. injection Hm' as ->.
    contradiction.
Qed.

(** *** Properties of every queue *)

(** X4: the batch the worker receives holds no two entries of the same
    identity, and the flush function is given one entry for each item of the
    batch. *)
Theorem batch_distinct_identities ops (w0 : W) s es :
  run flush ops (NewQueue w0) = Ok (tt, s) ->
  work s = Some es ->
  NoDup (Identity <$> dataOf s es) /\ length (dataOf s es) = length es.
Proof.
  intros Hreach Hw. pose proof (Inv_reachable flush _ _ _ Hreach) as HI.
  apply held_distinct; [exact HI | |].
  - pose proof (inv_nodup _ _ HI) as Hnd. unfold queued in Hnd.
    rewrite Hw in Hnd. cbn [default] in Hnd.
    apply NoDup_app in Hnd as (_ & _ & Hnd).
    apply NoDup_app in Hnd as (Hnd & _). exact Hnd.
  - intros l Hl. right. unfold queued. rewrite Hw. cbn [default].
    rewrite !elem_of_app. auto.
Qed.

(** X5: the future [Add] returns, for a new entry or a duplicate, with or
    without a refused push, is the future of an item whose entry has the
    identity of the entry submitted, and the item keeps that entry whatever
    happens next. *)
Theorem Add_future_same_identity ops (w0 : W) s e pushErr l s1 :
  run flush ops (NewQueue w0) = Ok (tt, s) ->
  Add e pushErr s = Ok (FutureOf l, s1) ->
  forall ops' s2, run flush ops' s1 = Ok (tt, s2) ->
    exists it, items s2 !! l = Some it /\ Identity (entry it) = Identity e.
Proof.
  intros Hreach Hadd ops' s2 Hrun.
  pose proof (Inv_reachable flush _ _ _ Hreach) as HI.
  pose proof (Registered_run _ _ _ (Inv_NewQueue w0) (Registered_NewQueue w0)
                Hreach) as HR.
  assert (H1 : exists it, items s1 !! l = Some it
                          /\ Identity (entry it) = Identity e).
  { destruct (inFlight s !! Identity e) as [l0|] eqn:Hk.
    - rewrite (Add_dupe _ _ pushErr _ Hk) in Hadd. injection Hadd as <- <-.
      exact (HR _ _ Hk).
    - exists (QueueItem e
                (match pushErr with
                 | Some err => Chan (Some (Closure (Some err) l)) true
                 | None => make_chan
                 end) NotRun).
      split; [|reflexivity]. destruct pushErr as [err|].
      + rewrite (Add_new_refused _ _ err Hk) in Hadd. injection Hadd as <- <-.
        st. rewrite lookup_app_r by lia. rewrite Nat.sub_diag. reflexivity.
      + rewrite (Add_new_pushed _ _ Hk) in Hadd. injection Hadd as <- <-.
        st. rewrite lookup_app_r by lia. rewrite Nat.sub_diag. reflexivity. }
  destruct H1 as (it & Hit & Hid).
  destruct (run_keeps flush _ _ _ Hrun l it Hit) as (it2 & Hit2 & He & _).
  exists it2. split; [exact Hit2 | congruence].
Qed.

(** X6: a call of a future blocks exactly while its item is held: in the
    hands of an [Add] that has not pushed yet, in the buffer, on its way to
    the worker, or in the batch being flushed. *)
Theorem future_blocks_iff_held ops (w0 : W) s l :
  run flush ops (NewQueue w0) = Ok (tt, s) ->
  (l < length (items s))%nat ->
  call_future (FutureOf l) s = Block <-> held s l.
Proof.
  intros Hreach Hlt. pose proof (Inv_reachable flush _ _ _ Hreach) as HI.
  split.
  - apply blocked_held; [exact HI | | exact Hlt].
    exact (WaitingHeld_run _ _ _ (Inv_NewQueue w0) (WaitingHeld_NewQueue w0)
             Hreach).
  - apply held_blocked. exact HI.
Qed.

(** X7: as long as the future of an item blocks, [Add] of an entry of the
    same identity returns that future and changes nothing. *)
Theorem blocked_future_dedups ops (w0 : W) s l it e pushErr :
  run flush ops (NewQueue w0) = Ok (tt, s) ->
  items s !! l = Some it ->
  call_future (FutureOf l) s = Block ->
  Identity e = Identity (entry it) ->
  Add e pushErr s = Ok (FutureOf l, s).
Proof.
  intros Hreach Hit Hb Hid. pose proof (Inv_reachable flush _ _ _ Hreach) as HI.
  assert (Hh : held s l).
  { apply blocked_held; [exact HI | | eapply lookup_lt_Some; eauto | exact Hb].
    exact (WaitingHeld_run _ _ _ (Inv_NewQueue w0) (WaitingHeld_NewQueue w0)
             Hreach). }
  destruct (inv_held _ _ HI l Hh) as (it0 & Hit0 & _ & _ & Hm).
  assert (it0 = it) as -> by congruence.
  apply Add_dupe. rewrite Hid. exact Hm.
Qed.

(** X8: when [Push] refuses a new entry, its future returns the error of
    [Push], and the entry stays in the dedup map for good: whatever happens
    next, every [Add] of an entry of that identity is answered with that
    future, and so with that error, and puts nothing into the buffer. *)
Theorem refused_push_keeps_identity ops (w0 : W) s e err fut s1 :
  run flush ops (NewQueue w0) = Ok (tt, s) ->
  inFlight s !! Identity e = None ->
  Add e (Some err) s = Ok (fut, s1) ->
  forall ops' s2, run flush ops' s1 = Ok (tt, s2) ->
    (exists s3, call_future fut s2 = Ok (Returned 0 (Some err), s3))
    /\ forall e' pushErr', Identity e' = Identity e ->
         Add e' pushErr' s2 = Ok (fut, s2).
Proof.
  intros Hreach Hk Hadd ops' s2 Hrun.
  pose proof (Inv_reachable flush _ _ _ Hreach) as HI.
  pose proof (Inv_Add _ _ _ _ _ HI Hadd) as HI1.
  rewrite (Add_new_refused _ _ err Hk) in Hadd. injection Hadd as <- <-.
  set (l := length (items s)) in *.
  set (s1 := set_inFlight _ _) in *.
  assert (Hit : items s1 !! l
                = Some (QueueItem e (Chan (Some (Closure (Some err) l)) true)
                          NotRun)).
  { unfold s1. st. rewrite lookup_app_r by (fold l; lia).
    fold l. rewrite Nat.sub_diag. reflexivity. }
  assert (Hm : inFlight s1 !! Identity e = Some l)
    by (unfold s1; st; apply lookup_insert_eq).
  split.
  - apply failed_call. eapply (failed_run flush); [exact HI1 | exact Hrun |].
    eexists. split; [exact Hit|]. left. split; reflexivity.
  - intros e' pushErr' Hid. apply Add_dupe. rewrite Hid.
    eapply stuck_run; [exact HI1 | exact Hm | | exact Hrun].
    eexists. split; [exact Hit | reflexivity].
Qed.

(** X11: as long as no push is refused, the dedup map holds nothing but held
    items: every identity in it belongs to an item whose future still
    blocks, so what has been notified has left the map. *)
Theorem inFlight_only_held ops (w0 : W) s k l :
  Forall (fun o => pushErrOf o = None) ops ->
  run flush ops (NewQueue w0) = Ok (tt, s) ->
  inFlight s !! k = Some l ->
  held s l /\ call_future (FutureOf l) s = Block
  /\ exists it, items s !! l = Some it /\ Identity (entry it) = k.
Proof.
  intros Hops Hreach Hk. pose proof (Inv_reachable flush _ _ _ Hreach) as HI.
  pose proof (Registered_run _ _ _ (Inv_NewQueue w0) (Registered_NewQueue w0)
                Hreach) as HR.
  pose proof (OnlyHeld_run _ _ _ (Inv_NewQueue w0) (Registered_NewQueue w0)
                (OnlyHeld_NewQueue w0) Hops Hreach) as HO.
  split; [exact (HO k l Hk)|].
  split; [apply held_blocked; [exact HI | exact (HO k l Hk)]|].
  exact (HR k l Hk).
Qed.

(** *** The outcome of a future *)

Lemma call_closure_result s l it err :
  items s !! l = Some it ->
  call_closure (Closure err l) s
  = closure_result err (entryIndex s !! addr (entry it)).
Proof.
  intros Hit. unfold call_closure, closure_result. cbn [cl_err cl_e].
  rewrite Hit. destruct err; [reflexivity|].
  destruct (entryIndex s !! addr (entry it)); reflexivity.
Qed.

Lemma call_closure_nil s l :
  call_closure (Closure None l) s = Panicked
  \/ exists i, call_closure (Closure None l) s = Returned i None.
Proof.
  unfold call_closure. cbn [cl_err cl_e].
  destruct (items s !! l) as [it|]; [|auto].
  destruct (entryIndex s !! addr (entry it)); eauto.
Qed.

(** A notified item changes once: when its future is called for the first
    time, in some state [sx] on the way. *)
Lemma closed_item_run ops : forall s s' l it,
  Inv s -> run flush ops s = Ok (tt, s') ->
  items s !! l = Some it -> ch_closed (c it) = true ->
  items s' !! l = Some it
  \/ exists cl (sx : State W), c it = Chan (Some cl) true /\ f it = NotRun
       /\ items s' !! l
          = Some (QueueItem (entry it) (Chan None true)
                    (Ran (call_closure cl sx))).
Proof.
  induction ops as [|o ops IH]; intros s s' l it HI H Hit Hcl; cbn in H.
  - injection H as <-. auto.
  - apply bind_Ok in H as ([] & s1 & Ho & H).
    pose proof (Inv_exec flush _ _ _ HI Ho) as HI1.
    destruct (closed_item_step flush _ _ _ _ _ HI Ho Hit Hcl)
      as [Hsame|(cl & Hc & Hf & Hnew)].
    + exact (IH _ _ _ _ HI1 H Hsame Hcl).
    + right. exists cl, s. split; [exact Hc|]. split; [exact Hf|].
      destruct (IH _ _ _ _ HI1 H Hnew eq_refl) as [Hsame|(cl' & sx & _ & Hf' & _)];
        [exact Hsame | discriminate Hf'].
Qed.

(** *** With a flush function that assigns indices, no future panics *)

Lemma Indexed_frame s s' :
  items s' = items s -> entryIndex s' = entryIndex s ->
  flushing s' = flushing s -> Indexed s -> Indexed s'.
Proof.
  intros Hi He Hf [H1 H2]. unfold Indexed. rewrite Hi, He, Hf. auto.
Qed.

Lemma Indexed_insert s l it it' :
  Indexed s -> items s !! l = Some it ->
  entry it' = entry it -> f it' <> Ran Panicked ->
  (c it' = Chan (Some (Closure None l)) true ->
   is_Some (entryIndex s !! addr (entry it))) ->
  Indexed (set_items (<[l := it']> (items s)) s).
Proof.
  intros [H1 H2] Hit He Hf Hc.
  assert (Hlt : (l < length (items s))%nat) by (eapply lookup_lt_Some; eauto).
  split; st.
  - intros l0 it0. destruct (decide (l = l0)) as [<-|Hne].
    + rewrite list_lookup_insert_eq by exact Hlt. intros [= <-].
      rewrite He. auto.
    + rewrite list_lookup_insert_ne by exact Hne. apply H1.
  - intros es l0 it0 Hfl Hl. destruct (decide (l = l0)) as [<-|Hne].
    + rewrite list_lookup_insert_eq by exact Hlt. intros [= <-].
      rewrite He. exact (H2 es l it Hfl Hl Hit).
    + rewrite list_lookup_insert_ne by exact Hne. exact (H2 es l0 it0 Hfl Hl).
Qed.

Lemma Indexed_NewQueue (w : W) : Indexed (NewQueue w).
Proof.
  split.
  - intros l it H. cbn in H. rewrite lookup_nil in H. discriminate.
  - intros es l it H. discriminate.
Qed.

Lemma dataOf_elem s es l it :
  l ∈ es -> items s !! l = Some it -> entry it ∈ dataOf s es.
Proof.
  intros Hl Hit. unfold dataOf. apply list_elem_of_omap.
  exists l. split; [exact Hl|]. rewrite Hit. reflexivity.
Qed.

Section NoPanic.
Hypothesis Hassign : assigns_all flush.
Hypothesis Hkeep : keeps_indices flush.

Lemma Indexed_run ops s s' :
  Inv s -> Indexed s -> run flush ops s = Ok (tt, s') -> Indexed s'.
Proof.
  intros HI HP H.
  refine (stable_run Indexed (fun _ => True) _ _ _ _ _ _ ops s s' HI HP _ H).
  - intros s0 e r s1 HI0 HP0 Hb.
    destruct (Add_begin_state _ _ _ _ Hb) as [(l & _ & _ & ->)|(Hk & _ & ->)];
      [exact HP0|].
    destruct HP0 as [H1 H2]. split; st.
    + intros l it. rewrite lookup_app_Some. intros [Hit|[_ Hit]].
      * exact (H1 l it Hit).
      * apply list_lookup_singleton_Some in Hit as [_ <-].
        split; discriminate.
    + intros es l it Hfl Hl. rewrite lookup_app_Some. intros [Hit|[Hge _]].
      * exact (H2 es l it Hfl Hl Hit).
      * exfalso.
        assert (Hq : l ∈ queued s0).
        { unfold queued. rewrite Hfl. cbn [batch]. rewrite !elem_of_app. auto. }
        pose proof (InvOn_held_lt _ _ _ HI0 (or_intror Hq)). lia.
  - intros s0 l p fut s1 HI0 HP0 _ He.
    destruct (Add_end_state _ _ _ _ _ HI0 He)
      as (it & _ & Hit & _ & _ & _ & _ & ->).
    destruct p as [err|].
    + refine (Indexed_frame
                (set_items (<[l := QueueItem (entry it) _ NotRun]> (items s0)) s0)
                _ eq_refl eq_refl eq_refl _).
      apply (Indexed_insert s0 l it); [exact HP0 | exact Hit | reflexivity | |];
        discriminate.
    + eapply Indexed_frame; [..|exact HP0]; reflexivity.
  - intros s0 s1 _ HP0 Ht. apply toWork_state in Ht as [_ ->].
    eapply Indexed_frame; [..|exact HP0]; reflexivity.
  - intros s0 s1 HI0 HP0 Hf.
    apply (worker_flush_state _ _ HI0) in Hf
      as (es & w' & idx' & err & _ & _ & Hflush & ->).
    destruct HP0 as [H1 H2]. split; st.
    + intros l it Hit. destruct (H1 l it Hit) as [Hc Hr].
      split; [|exact Hr]. intros Hch. exact (Hkeep _ _ _ _ _ _ Hflush _ (Hc Hch)).
    + intros es0 l it [= <- ->] Hl Hit.
      apply (Hassign _ _ _ _ _ Hflush). eapply dataOf_elem; eauto.
  - intros s0 s1 HI0 HP0 Hn.
    destruct (flushing s0) as [[es err]|] eqn:Hfl;
      [|unfold worker_notify in Hn; rewrite Hfl in Hn; discriminate].
    destruct (worker_notify_spec s0 es err HI0 Hfl)
      as (s2 & Hrun & _ & (_ & _ & Hf2 & _ & Hidx & _) & Hes & Hrest & _).
    rewrite Hrun in Hn. injection Hn as <-.
    destruct HP0 as [H1 H2]. split.
    + intros l it Hit. rewrite Hidx.
      destruct (decide (l ∈ es)) as [Hl|Hl].
      * destruct (Hes l Hl) as (it0 & Hit0 & Hit' & _).
        rewrite Hit' in Hit. injection Hit as <-. cbn [c f entry].
        split; [|discriminate]. intros [= ->].
        exact (H2 es l it0 Hfl Hl Hit0).
      * rewrite (Hrest l Hl) in Hit. exact (H1 l it Hit).
    + intros es0 l it Hfl'. rewrite Hf2 in Hfl'. discriminate.
  - intros s0 [l] r s1 HI0 HP0 Hc.
    destruct (call_future_Ok _ _ _ _ Hc) as (it & Hit & _).
    destruct (inv_items _ _ HI0 l it Hit) as [Hch Hf|err Hch Hf|r0 Hch Hf].
    + rewrite (call_future_waiting _ _ _ Hit Hf Hch) in Hc. discriminate.
    + rewrite (call_future_notified _ _ _ _ Hit Hf Hch) in Hc.
      injection Hc as <- <-.
      apply (Indexed_insert s0 l it); [exact HP0 | exact Hit | reflexivity | |];
        [|discriminate].
      cbn [f]. rewrite (call_closure_result _ _ _ _ Hit).
      destruct err as [e|]; [discriminate|].
      destruct HP0 as [H1 _]. destruct (H1 l it Hit) as [Hc _].
      destruct (Hc Hch) as [i ->]. discriminate.
    + rewrite (call_future_ran _ _ _ _ Hit Hf) in Hc. injection Hc as _ <-.
      exact HP0.
  - apply Forall_forall. auto.
Qed.

Lemma Indexed_reachable ops (w0 : W) s :
  run flush ops (NewQueue w0) = Ok (tt, s) -> Indexed s.
Proof.
  intros H.
  exact (Indexed_run _ _ _ (Inv_NewQueue w0) (Indexed_NewQueue w0) H).
Qed.

End NoPanic.

(** What a call of the future of an allocated item gives, by the phase of
    the item. *)
Lemma call_future_phase s l it :
  Inv s -> items s !! l = Some it ->
  (c it = make_chan /\ f it = NotRun /\ call_future (FutureOf l) s = Block)
  \/ (exists err s1, c it = Chan (Some (Closure err l)) true /\ f it = NotRun
        /\ call_future (FutureOf l) s
           = Ok (closure_result err (entryIndex s !! addr (entry it)), s1))
  \/ (exists r, c it = Chan None true /\ f it = Ran r
        /\ call_future (FutureOf l) s = Ok (r, s)).
Proof.
  intros HI Hit.
  destruct (inv_items _ _ HI l it Hit) as [Hch Hf|err Hch Hf|r0 Hch Hf].
  - left. split; [exact Hch|]. split; [exact Hf|].
    eapply call_future_waiting; eauto.
  - right. left. exists err. eexists. split; [exact Hch|]. split; [exact Hf|].
    rewrite (call_future_notified _ _ _ _ Hit Hf Hch).
    rewrite (call_closure_result _ _ _ _ Hit). reflexivity.
  - right. right. exists r0. split; [exact Hch|]. split; [exact Hf|].
    eapply call_future_ran; eauto.
Qed.

(** C9, amended: once the batch of an item has been notified, every call of
    its future has the outcome of the first one.  The first call returns
    [(0, err)] when the notification carried the error [err]; when it
    carried none, the first call returns [(i, nil)] if the entry has the
    index [i] at that moment and panics if the entry has none.  Every later
    call, whatever happened to the queue in between, returns the same value
    or panics again. *)
Theorem future_outcome_fixed ops (w0 : W) s l it :
  run flush ops (NewQueue w0) = Ok (tt, s) ->
  items s !! l = Some it -> ch_closed (c it) = true ->
  exists r s1,
    call_future (FutureOf l) s = Ok (r, s1)
    /\ (forall ops' s2,
          run flush ops' s1 = Ok (tt, s2) ->
          call_future (FutureOf l) s2 = Ok (r, s2))
    /\ match f it with
       | Ran r0 => r = r0
       | NotRun =>
           exists err, c it = Chan (Some (Closure err l)) true
             /\ r = closure_result err (entryIndex s !! addr (entry it))
       end.
Proof.
  intros Hreach Hit Hcl. pose proof (Inv_reachable flush _ _ _ Hreach) as HI.
  destruct (call_future_phase s l it HI Hit)
    as [(Hch & _)|[(err & s1 & Hch & Hf & Hcall)|(r & Hch & Hf & Hcall)]].
  - rewrite Hch in Hcl. discriminate.
  - eexists. exists s1. split; [exact Hcall|]. split.
    + intros ops' s2 Hrun. eapply (call_future_again flush); eauto.
    + rewrite Hf. exists err. auto.
  - exists r, s. split; [exact Hcall|]. split.
    + intros ops' s2 Hrun. eapply (call_future_again flush); eauto.
    + rewrite Hf. reflexivity.
Qed.

(** C10, amended: when the flush function returns nil for the batch the
    worker received, then, whatever the other goroutines do before the
    worker reaches the notifications, the notifications are made, and from
    then on a call of the future of an item of the batch returns or panics
    (it does not block).  The func literal reads the index when the future
    is called for the first time: that call panics if the entry has no
    index then, and returns the index with a nil error if it has one,
    whatever the index was when the item was notified.  With a flush
    function that assigns an index to every entry of a batch before it
    returns nil, and never takes an index away, the call returns an index
    and a nil error: the panic is out of reach. *)
Theorem future_panics_unless_indexed ops (w0 : W) s es w' idx' l it :
  run flush ops (NewQueue w0) = Ok (tt, s) ->
  work s = Some es -> flushing s = None ->
  flush (dataOf s es) (world s) (entryIndex s) = (w', idx', None) ->
  l ∈ es -> items s !! l = Some it ->
  exists s1, worker_flush flush s = Ok (tt, s1)
    /\ forall ops1 s2,
         run flush ops1 s1 = Ok (tt, s2) ->
         flushing s2 = Some (es, None) ->
         exists s', worker_notify s2 = Ok (tt, s')
           /\ forall ops2 s3,
                run flush ops2 s' = Ok (tt, s3) ->
                exists r s4,
                  call_future (FutureOf l) s3 = Ok (r, s4)
                  /\ (forall it3, items s3 !! l = Some it3 -> f it3 = NotRun ->
                        r = closure_result None
                              (entryIndex s3 !! addr (entry it)))
                  /\ (assigns_all flush -> keeps_indices flush ->
                      exists i, r = Returned i None).
Proof.
  intros Hreach Hw Hnone Hfl Hl Hit.
  pose proof (Inv_reachable flush _ _ _ Hreach) as HI.
  destruct (worker_flush_spec flush s es w' idx' None HI Hw Hnone Hfl)
    as [Hflush HI1].
  eexists. split; [exact Hflush|].
  intros ops1 s2 Hrun1 Hfl2.
  pose proof (Inv_run flush _ _ _ HI1 Hrun1) as HI2.
  destruct (worker_notify_spec s2 es None HI2 Hfl2)
    as (s' & Hrun & HI' & _ & Hes & _ & _).
  exists s'. split; [exact Hrun|].
  intros ops2 s3 Hrun2.
  pose proof (Inv_run flush _ _ _ HI' Hrun2) as HI3.
  destruct (Hes l Hl) as (it2 & Hit2 & Hit' & _).
  destruct (run_keeps flush _ _ _ Hrun1 l it Hit) as (it2' & Hit2' & He & _).
  assert (it2' = it2) as -> by congruence.
  rewrite He in Hit'.
  set (it' := QueueItem (entry it) (Chan (Some (Closure None l)) true) NotRun)
    in Hit'.
  assert (Hreach3 : run flush
            (ops ++ OpWorkerFlush :: ops1 ++ OpWorkerNotify :: ops2)
            (NewQueue w0) = Ok (tt, s3)).
  { rewrite run_app. erewrite bind_eq by exact Hreach.
    cbn [run exec]. erewrite bind_eq by exact Hflush.
    rewrite run_app. erewrite bind_eq by exact Hrun1.
    cbn [run exec]. erewrite bind_eq by exact Hrun. exact Hrun2. }
  destruct (closed_item_run ops2 s' s3 l it' HI' Hrun2 Hit' eq_refl)
    as [Hsame|(cl & sx & [= <-] & _ & Hnew)].
  - destruct (call_future_phase s3 l it' HI3 Hsame)
      as [(Hch & _)|[(err & s4 & [= <-] & _ & Hcall)|(r & _ & Hf & _)]];
      [discriminate Hch | | discriminate Hf].
    eexists. exists s4. split; [exact Hcall|]. split; [reflexivity|].
    intros Hassign Hkeep.
    destruct (Indexed_reachable Hassign Hkeep _ _ _ Hreach3) as [H1 _].
    destruct (H1 l it' Hsame) as [Hc _]. destruct (Hc eq_refl) as [i Hi].
    cbn [entry it'] in Hi |- *. rewrite Hi. exists i. reflexivity.
  - eexists. exists s3.
    split; [eapply call_future_ran; [exact Hnew | reflexivity]|].
    split.
    + intros it3 Hit3 Hf3. rewrite Hnew in Hit3. injection Hit3 as <-.
      discriminate Hf3.
    + intros Hassign Hkeep.
      destruct (Indexed_reachable Hassign Hkeep _ _ _ Hreach3) as [H1 _].
      destruct (H1 l _ Hnew) as [_ Hnp]. cbn [f] in Hnp.
      destruct (call_closure_nil sx l) as [Hp|[i Hi]];
        [rewrite Hp in Hnp; contradiction | eauto].
Qed.

(** *** Properties of every queue, continued *)

Lemma exec_returns_or_blocks o s :
  Inv s -> allocated s o ->
  (exists s', exec flush o s = Ok (tt, s')) \/ exec flush o s = Block.
Proof.
  intros HI Hal. pose proof (exec_no_panic o s HI Hal) as Hnp.
  destruct (exec flush o s) as [[[] s']| |]; [eauto | contradiction | auto].
Qed.

(** X9: the only step of the queue that panics is the call of a future, and
    only of a future whose notification carried no error and whose entry
    had no index when the future was first called: the call panics then,
    and again whenever it is repeated.  Every other step returns or blocks,
    in whatever order the goroutines take their steps: no item is notified
    twice (no send on a closed channel, no second [close]) and no item a
    step looks for is missing.  With a flush function that assigns an index
    to every entry of a batch before it returns nil, and never takes one
    away, no step panics.  The futures called are futures that [Add] has
    handed out. *)
Theorem queue_panics_only_unindexed ops (w0 : W) s o :
  run flush ops (NewQueue w0) = Ok (tt, s) ->
  allocated s o ->
  (step flush o s = Panic <->
   exists l it,
     o = OpCall (FutureOf l) /\ items s !! l = Some it
     /\ (f it = Ran Panicked
         \/ (c it = Chan (Some (Closure None l)) true /\ f it = NotRun
             /\ entryIndex s !! addr (entry it) = None)))
  /\ (assigns_all flush -> keeps_indices flush ->
      (exists s', step flush o s = Ok (tt, s')) \/ step flush o s = Block).
Proof.
  intros Hreach Hal. pose proof (Inv_reachable flush _ _ _ Hreach) as HI.
  assert (Hother : (forall fut, o <> OpCall fut) ->
            step flush o s = exec flush o s).
  { intros Hne. destruct o; try reflexivity. exfalso. eapply Hne. reflexivity. }
  destruct o as [e pushErr|e|l0 pushErr| | | | |[l]].
  1-7: (split;
    [split;
      [intros Hp; rewrite Hother in Hp by discriminate;
       exfalso; exact (exec_no_panic _ s HI Hal Hp)
      |intros (l & it & [=] & _)]
    |intros _ _; rewrite Hother by discriminate;
     apply exec_returns_or_blocks; assumption]).
  cbn [allocated] in Hal.
  destruct (lookup_lt_is_Some_2 _ _ Hal) as [it Hit].
  cbn [step]. unfold bind.
  destruct (call_future_phase s l it HI Hit)
    as [(Hch & Hf & ->)|[(err & s1 & Hch & Hf & ->)|(r & Hch & Hf & ->)]].
  - split; [|auto]. split; [discriminate|].
    intros (l1 & it1 & [= <-] & Hit1 & [Hr|(Hc1 & _)]);
      assert (it1 = it) as -> by congruence;
      [congruence | rewrite Hch in Hc1; discriminate Hc1].
  - split.
    + split.
      * intros Hp. exists l, it. split; [reflexivity|]. split; [exact Hit|].
        right. split; [|split; [exact Hf|]].
        -- destruct err as [e|]; [discriminate Hp | exact Hch].
        -- destruct err as [e|]; [discriminate Hp|].
           destruct (entryIndex s !! addr (entry it)); [discriminate Hp|].
           reflexivity.
      * intros (l1 & it1 & [= <-] & Hit1 & [Hr|(Hc1 & _ & Hi)]);
          assert (it1 = it) as -> by congruence; [congruence|].
        rewrite Hch in Hc1. injection Hc1 as ->. rewrite Hi. reflexivity.
    + intros Hassign Hkeep.
      destruct (Indexed_reachable Hassign Hkeep _ _ _ Hreach) as [H1 _].
      destruct (H1 l it Hit) as [Hc _].
      destruct err as [e|]; [left; eexists; reflexivity|].
      destruct (Hc Hch) as [i ->]. left. eexists. reflexivity.
  - split.
    + split.
      * intros Hp. exists l, it. split; [reflexivity|]. split; [exact Hit|].
        left. rewrite Hf. destruct r; [discriminate Hp | reflexivity].
      * intros (l1 & it1 & [= <-] & Hit1 & [Hr|(_ & Hf1 & _)]);
          assert (it1 = it) as -> by congruence; [|congruence].
        rewrite Hf in Hr. injection Hr as ->. reflexivity.
    + intros Hassign Hkeep.
      destruct (Indexed_reachable Hassign Hkeep _ _ _ Hreach) as [H1 _].
      destruct (H1 l it Hit) as [_ Hnp]. rewrite Hf in Hnp.
      destruct r; [left; eexists; reflexivity | contradiction].
Qed.

(** X12: a flush resolves what is buffered.  From a queue whose worker is
    idle, handing the buffer over and one turn of the worker neither block
    nor panic; the flush function is called once, with the entries of the
    buffer.  Afterwards the buffer is empty, the identities of the items
    that were buffered have left the dedup map, and the future of each of
    them no longer blocks: called then, it returns [(0, err)] if the flush
    function returned [err], returns [(i, nil)] if the flush function
    returned nil and left the entry with the index [i], and panics if the
    flush function returned nil and left the entry without index. *)
Theorem flush_resolves_buffer ops (w0 : W) s w' idx' err :
  run flush ops (NewQueue w0) = Ok (tt, s) ->
  work s = None -> flushing s = None ->
  flush (dataOf s (buf s)) (world s) (entryIndex s) = (w', idx', err) ->
  exists s',
    run flush [OpToWork; OpWorker] s = Ok (tt, s')
    /\ buf s' = [] /\ work s' = None /\ flushing s' = None
    /\ world s' = w' /\ entryIndex s' = idx'
    /\ forall l, l ∈ buf s ->
         exists it, items s !! l = Some it
           /\ inFlight s' !! Identity (entry it) = None
           /\ exists s'',
                call_future (FutureOf l) s'
                = Ok (closure_result err (idx' !! addr (entry it)), s'').
Proof.
  intros Hreach Hw Hfl Hflush.
  pose proof (Inv_reachable flush _ _ _ Hreach) as HI.
  set (s1 := set_work (Some (buf s)) (set_buf [] s)).
  assert (H1 : toWork s = Ok (tt, s1)) by (unfold toWork; rewrite Hw; reflexivity).
  pose proof (Inv_toWork _ _ HI H1) as HI1.
  destruct (worker_flush_spec flush s1 (buf s) w' idx' err HI1 eq_refl Hfl Hflush)
    as [H2 HI2].
  set (s2 := set_flushing _ _) in H2, HI2.
  destruct (worker_notify_spec s2 (buf s) err HI2 eq_refl)
    as (s3 & H3 & HI3 & (Hb3 & Hw3 & Hf3 & _ & Hi3 & Hwo3) & Hes & _ & _).
  exists s3. split.
  { cbn [run exec]. erewrite bind_eq by exact H1.
    erewrite bind_eq; [reflexivity|].
    rewrite worker_halves. erewrite bind_eq by exact H2. exact H3. }
  split; [rewrite Hb3; reflexivity|]. split; [rewrite Hw3; reflexivity|].
  split; [exact Hf3|]. split; [rewrite Hwo3; reflexivity|].
  split; [rewrite Hi3; reflexivity|].
  intros l Hl. destruct (Hes l Hl) as (it & Hit & Hit3 & Hgone).
  exists it. split; [exact Hit|]. split; [exact Hgone|].
  destruct (call_future_phase s3 l _ HI3 Hit3)
    as [(Hch & _)|[(err' & s4 & [= <-] & _ & Hcall)|(r & _ & Hf & _)]];
    [discriminate Hch | | discriminate Hf].
  exists s4. rewrite Hcall. cbn [entry]. rewrite Hi3. reflexivity.
Qed.

End More.

(** *** At sample queues *)

Lemma batch_distinct_identities_witness :
  let s := stateAfter seqFlush sample_ops 0%nat in
  NoDup (Identity <$> dataOf s [0%nat; 1%nat])
  /\ length (dataOf s [0%nat; 1%nat]) = 2%nat.
Proof.
  intros s.
  apply (batch_distinct_identities seqFlush sample_ops 0%nat s [0%nat; 1%nat]);
    vm_compute; reflexivity.
Defined.

Lemma Add_future_same_identity_witness :
  let s := stateAfter seqFlush sample_ops 0%nat in
  let s2 := stateAfter seqFlush (sample_ops ++ [OpWorker]) 0%nat in
  exists it, items s2 !! 0%nat = Some it
             /\ Identity (entry it) = Identity leaf_a'.
Proof.
  intros s s2.
  apply (Add_future_same_identity seqFlush sample_ops 0%nat s leaf_a' None
           0%nat s) with (ops' := [OpWorker]); vm_compute; reflexivity.
Defined.

Lemma future_blocks_iff_held_witness :
  let s := stateAfter seqFlush sample_ops 0%nat in
  call_future (FutureOf 1%nat) s = Block <-> held s 1%nat.
Proof.
  intros s.
  apply (future_blocks_iff_held seqFlush sample_ops 0%nat s 1%nat);
    [vm_compute; reflexivity | vm_compute; lia].
Defined.

Lemma blocked_future_dedups_witness :
  let s := stateAfter seqFlush (sample_ops ++ [OpWorkerFlush]) 0%nat in
  Add leaf_a' None s = Ok (FutureOf 0%nat, s).
Proof.
  intros s.
  apply (blocked_future_dedups seqFlush (sample_ops ++ [OpWorkerFlush]) 0%nat s
           0%nat (QueueItem leaf_a make_chan NotRun) leaf_a' None);
    vm_compute; reflexivity.
Defined.

Lemma refused_push_keeps_identity_witness :
  let err := ErrExternal "buffer closed" in
  let s1 := stateAfter seqFlush [OpAdd leaf_a (Some err)] 0%nat in
  let ops' := [OpAdd leaf_b None; OpToWork; OpWorker] in
  let s2 := stateAfter seqFlush (OpAdd leaf_a (Some err) :: ops') 0%nat in
  (exists s3, call_future (FutureOf 0%nat) s2 = Ok (Returned 0 (Some err), s3))
  /\ forall e' pushErr', Identity e' = Identity leaf_a ->
       Add e' pushErr' s2 = Ok (FutureOf 0%nat, s2).
Proof.
  intros err s1 ops' s2.
  apply (refused_push_keeps_identity seqFlush [] 0%nat (NewQueue 0%nat) leaf_a
           err (FutureOf 0%nat) s1 eq_refl eq_refl eq_refl ops' s2).
  vm_compute. reflexivity.
Defined.

Lemma inFlight_only_held_witness :
  let s := stateAfter seqFlush sample_ops 0%nat in
  held s 1%nat /\ call_future (FutureOf 1%nat) s = Block
  /\ exists it, items s !! 1%nat = Some it /\ Identity (entry it) = "id-b".
Proof.
  intros s.
  apply (inFlight_only_held seqFlush sample_ops 0%nat s "id-b" 1%nat).
  - repeat (apply Forall_cons; split; [reflexivity|]). apply Forall_nil_2.
  - vm_compute. reflexivity.
  - vm_compute. reflexivity.
Defined.

(** [seqFlush] assigns an index to every entry it is given and takes none
    away. *)
Lemma seqFlush_fold (data : list Entry) : forall (acc : nat * gmap nat Z),
  let assign (acc : nat * gmap nat Z) (e : Entry) :=
    (S (fst acc), <[addr e := Z.of_nat (fst acc)]> (snd acc)) in
  (forall a, is_Some (snd acc !! a) ->
             is_Some (snd (fold_left assign data acc) !! a))
  /\ (forall e, e ∈ data ->
                is_Some (snd (fold_left assign data acc) !! addr e)).
Proof.
  induction data as [|d data IH]; intros acc assign; cbn [fold_left].
  - split; [auto|]. intros e He. apply elem_of_nil in He. contradiction.
  - destruct (IH (assign acc d)) as [IH1 IH2]. fold assign in IH1, IH2.
    split.
    + intros a Ha. apply IH1. unfold assign. cbn [snd].
      apply lookup_insert_is_Some. destruct (decide (addr d = a)); auto.
    + intros e He. apply elem_of_cons in He as [->|He]; [|exact (IH2 e He)].
      apply IH1. unfold assign. cbn [snd].
      apply lookup_insert_is_Some. auto.
Qed.

Lemma seqFlush_assigns_all : assigns_all seqFlush.
Proof.
  intros data w idx w' idx' H e He. unfold seqFlush in H.
  pose proof (proj2 (seqFlush_fold data (w, idx)) e He) as Hfold.
  cbv zeta in Hfold. destruct (fold_left _ data (w, idx)) as [n i].
  injection H as _ <-. exact Hfold.
Qed.

Lemma seqFlush_keeps_indices : keeps_indices seqFlush.
Proof.
  intros data w idx w' idx' err H a Ha. unfold seqFlush in H.
  pose proof (proj1 (seqFlush_fold data (w, idx)) a Ha) as Hfold.
  cbv zeta in Hfold. destruct (fold_left _ data (w, idx)) as [n i].
  injection H as _ <- _. exact Hfold.
Qed.

(** C9, as stated, fails: with a flush function that returns nil and leaves
    the second entry of its batch without index, the future of that entry,
    called after the notification, returns no (index, error): it panics. *)
Lemma notified_future_panics :
  let ops := sample_ops ++ [OpWorker] in
  let s := stateAfter firstFlush ops 0%nat in
  run firstFlush ops (NewQueue 0%nat) = Ok (tt, s)
  /\ notified s (FutureOf 1%nat)
  /\ (exists s1, call_future (FutureOf 1%nat) s = Ok (Panicked, s1))
  /\ ~ (exists i err s1,
          call_future (FutureOf 1%nat) s = Ok (Returned i err, s1)).
Proof.
  cbv zeta. split; [vm_compute; reflexivity|].
  split; [eexists; split; vm_compute; reflexivity|].
  split; [eexists; vm_compute; reflexivity|].
  intros (i & err & s1 & H). vm_compute in H. discriminate H.
Qed.

Lemma future_outcome_fixed_witness :
  let ops := sample_ops ++ [OpWorker] in
  let s := stateAfter firstFlush ops 0%nat in
  (exists s1,
     call_future (FutureOf 0%nat) s = Ok (Returned 0 None, s1)
     /\ forall ops' s2,
          run firstFlush ops' s1 = Ok (tt, s2) ->
          call_future (FutureOf 0%nat) s2 = Ok (Returned 0 None, s2))
  /\ (exists s1,
        call_future (FutureOf 1%nat) s = Ok (Panicked, s1)
        /\ forall ops' s2,
             run firstFlush ops' s1 = Ok (tt, s2) ->
             call_future (FutureOf 1%nat) s2 = Ok (Panicked, s2)).
Proof.
  intros ops s. split.
  - destruct (future_outcome_fixed firstFlush ops 0%nat s 0%nat
                (QueueItem leaf_a (Chan (Some (Closure None 0%nat)) true) NotRun))
      as (r & s1 & Hcall & Hlater & (err & Hc & Hr));
      [vm_compute; reflexivity | vm_compute; reflexivity | reflexivity |].
    injection Hc as <-.
    assert (E : r = Returned 0 None) by (rewrite Hr; vm_compute; reflexivity).
    rewrite E in Hcall, Hlater. exists s1. split; [exact Hcall | exact Hlater].
  - destruct (future_outcome_fixed firstFlush ops 0%nat s 1%nat
                (QueueItem leaf_b (Chan (Some (Closure None 1%nat)) true) NotRun))
      as (r & s1 & Hcall & Hlater & (err & Hc & Hr));
      [vm_compute; reflexivity | vm_compute; reflexivity | reflexivity |].
    injection Hc as <-.
    assert (E : r = Panicked) by (rewrite Hr; vm_compute; reflexivity).
    rewrite E in Hcall, Hlater. exists s1. split; [exact Hcall | exact Hlater].
Defined.

(** C10, as stated, fails: the flush function returns nil for the batch of
    [leaf_a] and [leaf_b] and leaves [leaf_b] without index, so the index is
    nil when the future of [leaf_b] is notified; the entry is then added
    again and the next flush gives it index 1; the first future, called
    after that, does not panic: it returns [(1, nil)]. *)
Lemma index_assigned_after_notification :
  let s' := stateAfter firstFlush (sample_ops ++ [OpWorker]) 0%nat in
  let later := [OpAdd leaf_b None; OpToWork; OpWorker] in
  let s3 := stateAfter firstFlush (sample_ops ++ [OpWorker] ++ later) 0%nat in
  firstFlush [leaf_a; leaf_b] 0%nat ∅ = (1%nat, {[addr leaf_a := 0]}, None)
  /\ items s' !! 1%nat
     = Some (QueueItem leaf_b (Chan (Some (Closure None 1%nat)) true) NotRun)
  /\ entryIndex s' !! addr leaf_b = None
  /\ run firstFlush later s' = Ok (tt, s3)
  /\ exists s4, call_future (FutureOf 1%nat) s3 = Ok (Returned 1 None, s4).
Proof.
  cbv zeta. split; [vm_compute; reflexivity|].
  split; [vm_compute; reflexivity|]. split; [vm_compute; reflexivity|].
  split; [vm_compute; reflexivity|]. eexists. vm_compute. reflexivity.
Qed.

Lemma future_panics_unless_indexed_witness :
  let s := stateAfter firstFlush sample_ops 0%nat in
  let s2 := stateAfter firstFlush
              (sample_ops ++ OpWorkerFlush :: sample_meanwhile) 0%nat in
  let later := [OpAdd leaf_b None; OpToWork; OpWorker] in
  exists s',
    worker_notify s2 = Ok (tt, s')
    /\ entryIndex s' !! addr leaf_b = None
    /\ (exists s4, call_future (FutureOf 1%nat) s' = Ok (Panicked, s4))
    /\ exists s3 s4,
         run firstFlush later s' = Ok (tt, s3)
         /\ entryIndex s3 !! addr leaf_b = Some 1
         /\ call_future (FutureOf 1%nat) s3 = Ok (Returned 1 None, s4).
Proof.
  intros s s2 later.
  set (s1 := stateAfter firstFlush (sample_ops ++ [OpWorkerFlush]) 0%nat).
  set (s' := stateAfter firstFlush
               (sample_ops ++ OpWorkerFlush :: sample_meanwhile
                  ++ [OpWorkerNotify]) 0%nat).
  set (s3 := stateAfter firstFlush
               (sample_ops ++ OpWorkerFlush :: sample_meanwhile
                  ++ OpWorkerNotify :: later) 0%nat).
  set (it3 := QueueItem leaf_b (Chan (Some (Closure None 1%nat)) true) NotRun).
  destruct (future_panics_unless_indexed firstFlush sample_ops 0%nat s
              [0%nat; 1%nat] 1%nat {[addr leaf_a := 0]} 1%nat
              (QueueItem leaf_b make_chan NotRun))
    as (s1' & Hflush & Hnotify);
    [vm_compute; reflexivity | reflexivity | reflexivity | reflexivity
    | apply elem_of_cons; right; apply elem_of_cons; left; reflexivity
    | reflexivity |].
  assert (Hs1 : worker_flush firstFlush s = Ok (tt, s1))
    by (vm_compute; reflexivity).
  rewrite Hs1 in Hflush. injection Hflush as <-.
  destruct (Hnotify sample_meanwhile s2) as (s0 & Hn & Hcalls);
    [vm_compute; reflexivity | vm_compute; reflexivity |].
  assert (Hs' : worker_notify s2 = Ok (tt, s')) by (vm_compute; reflexivity).
  rewrite Hs' in Hn. injection Hn as <-.
  exists s'. split; [exact Hs'|]. split; [vm_compute; reflexivity|]. split.
  - destruct (Hcalls [] s' eq_refl) as (r & s4 & Hcall & Hfirst & _).
    assert (E : r = Panicked).
    { rewrite (Hfirst it3); [vm_compute; reflexivity | vm_compute; reflexivity
                            | reflexivity]. }
    rewrite E in Hcall. exists s4. exact Hcall.
  - assert (Hrun : run firstFlush later s' = Ok (tt, s3))
      by (vm_compute; reflexivity).
    destruct (Hcalls later s3 Hrun) as (r & s4 & Hcall & Hfirst & _).
    assert (E : r = Returned 1 None).
    { rewrite (Hfirst it3); [vm_compute; reflexivity | vm_compute; reflexivity
                            | reflexivity]. }
    rewrite E in Hcall. exists s3, s4.
    split; [exact Hrun|]. split; [vm_compute; reflexivity | exact Hcall].
Defined.

Lemma queue_panics_only_unindexed_witness :
  let ops := sample_ops ++ [OpWorker] in
  let s := stateAfter firstFlush ops 0%nat in
  let t := stateAfter seqFlush ops 0%nat in
  step firstFlush (OpCall (FutureOf 1%nat)) s = Panic
  /\ ((exists t', step seqFlush (OpCall (FutureOf 1%nat)) t = Ok (tt, t'))
      \/ step seqFlush (OpCall (FutureOf 1%nat)) t = Block).
Proof.
  intros ops s t. split.
  - apply (queue_panics_only_unindexed firstFlush ops 0%nat s
             (OpCall (FutureOf 1%nat)));
      [vm_compute; reflexivity | vm_compute; lia |].
    exists 1%nat,
      (QueueItem leaf_b (Chan (Some (Closure None 1%nat)) true) NotRun).
    split; [reflexivity|]. split; [vm_compute; reflexivity|].
    right. split; [reflexivity|]. split; [reflexivity|].
    vm_compute. reflexivity.
  - apply (queue_panics_only_unindexed seqFlush ops 0%nat t
             (OpCall (FutureOf 1%nat)));
      [vm_compute; reflexivity | vm_compute; lia
      | exact seqFlush_assigns_all | exact seqFlush_keeps_indices].
Defined.

Lemma flush_resolves_buffer_witness :
  let s := stateAfter seqFlush [OpAdd leaf_a None; OpAdd leaf_b None] 0%nat in
  exists s',
    run seqFlush [OpToWork; OpWorker] s = Ok (tt, s')
    /\ buf s' = []
    /\ (exists s'', call_future (FutureOf 0%nat) s' = Ok (Returned 0 None, s''))
    /\ (exists s'', call_future (FutureOf 1%nat) s' = Ok (Returned 1 None, s'')).
Proof.
  intros s.
  destruct (flush_resolves_buffer seqFlush
              [OpAdd leaf_a None; OpAdd leaf_b None] 0%nat s
              2%nat {[addr leaf_a := 0; addr leaf_b := 1]} None)
    as (s' & Hrun & Hb & _ & _ & _ & _ & Hall);
    [vm_compute; reflexivity | reflexivity | reflexivity
    | vm_compute; reflexivity |].
  exists s'. split; [exact Hrun|]. split; [exact Hb|]. split.
  - destruct (Hall 0%nat) as (it & Hit & _ & s'' & Hcall).
    { vm_compute. apply elem_of_cons. left. reflexivity. }
    vm_compute in Hit. injection Hit as <-. exists s''. exact Hcall.
  - destruct (Hall 1%nat) as (it & Hit & _ & s'' & Hcall).
    { vm_compute. apply elem_of_cons. right. apply elem_of_cons. left.
      reflexivity. }
    vm_compute in Hit. injection Hit as <-. exists s''. exact Hcall.
Defined.

End StorageMore.

(** ** Migration copier *)

Module MigrateFacts.
Import Migrate.

Lemma count_app p (a b : list event) :
  count p (a ++ b) = (count p a + count p b)%nat.
Proof. unfold count. rewrite List.filter_app, length_app. reflexivity. Qed.

Lemma backoffs_app (a b : list event) : backoffs (a ++ b) = backoffs a ++ backoffs b.
Proof. unfold backoffs. apply omap_app. Qed.

Lemma eg_Wait_first (results : list (option error)) e :
  In (Some e) results -> exists e', eg_Wait results = Some e'.
Proof.
  induction results as [|[e0|] rs IH]; cbn; intros H.
  - contradiction.
  - eauto.
  - destruct H as [H|H]; [discriminate | auto].
Qed.

Lemma eg_Wait_nil (results : list (option error)) :
  eg_Wait results = None <-> Forall (eq None) results.
Proof.
  induction results as [|[e0|] rs IH]; cbn.
  - split; [constructor | reflexivity].
  - split; [discriminate | intros H; inversion H; discriminate].
  - rewrite IH. split; [intros H; constructor; auto | intros H; inversion H; auto].
Qed.

Lemma eg_Wait_app_nil (results : list (option error)) a :
  Forall (eq None) results -> eg_Wait (results ++ [a]) = a.
Proof.
  induction 1 as [|r rs <- _ IH]; cbn; [destruct a; reflexivity | exact IH].
Qed.

Lemma eg_Wait_app_Some (results : list (option error)) a e :
  eg_Wait results = Some e -> eg_Wait (results ++ [a]) = Some e.
Proof.
  induction results as [|[e0|] rs IH]; cbn; intros H;
    [discriminate | exact H | auto].
Qed.

Lemma bytes_Equal_true (a b : bytes) : bytes_Equal a b = true <-> a = b.
Proof.
  unfold bytes_Equal. destruct (List.list_eq_dec _ a b); split;
    congruence.
Qed.

Section Facts.
Context {W : Type}.
Variable layout_Range : Z -> Z -> Z -> list bundle.
Variable storage : MigrationStorage W.
Variable getEntries : EntryBundleFetcherFunc W.
Implicit Types m : copier W.

Local Abbreviation fetchAndStore := (fetchAndStore storage getEntries).
Local Abbreviation migrateItems := (migrateItems storage getEntries).
Local Abbreviation migrateWorker := (migrateWorker storage getEntries).
Local Abbreviation runWorkers := (runWorkers storage getEntries).
Local Abbreviation Migrate := (Migrate layout_Range storage getEntries).

(** One run of the function under retry: one fetch, at most one store, and
    the counter moves exactly when both succeeded. *)
Lemma fetchAndStore_spec b m r m' :
  fetchAndStore b m = (r, m') ->
  todo m' = todo m
  /\ exists evs, calls m' = calls m ++ evs
       /\ count is_fetch evs = 1%nat /\ (count is_store evs <= 1)%nat
       /\ backoffs evs = []
       /\ match r with
          | None => bundlesMigrated m' = u64 (bundlesMigrated m + 1)
                    /\ exists d, evs = [EvGetEntries (Index b) (Partial b) true;
                                        EvSetEntryBundle (Index b) (Partial b) d true]
          | Some e => bundlesMigrated m' = bundlesMigrated m
                      /\ (forall i p d, EvSetEntryBundle i p d true ∉ evs)
                      /\ attempt_error b e
          end.
Proof.
  unfold attempt_error, Migrate.fetchAndStore, bind, call, emit, ret. cbn.
  destruct (getEntries (Index b) (Partial b) (world m)) as [[d|err] w1]; cbn.
  - destruct (SetEntryBundle storage (Index b) (Partial b) d w1) as [[err|] w2];
      cbn; intros [= <- <-]; cbn; (split; [reflexivity|]);
      eexists; rewrite <- app_assoc; (split; [reflexivity|]); cbn;
      repeat (split; [first [reflexivity | lia]|]).
    + split; [|eauto].
      intros i p d0 Hin. repeat (apply elem_of_cons in Hin as [Hin|Hin]; [discriminate|]).
      apply elem_of_nil in Hin. exact Hin.
    + eauto.
  - intros [= <- <-]. cbn. split; [reflexivity|].
    eexists. split; [reflexivity|]. cbn.
    repeat (split; [first [reflexivity | lia]|]).
    split; [|eauto].
    intros i p d0 Hin. repeat (apply elem_of_cons in Hin as [Hin|Hin]; [discriminate|]).
    apply elem_of_nil in Hin. exact Hin.
Qed.

(** The retry loop: what it adds to the calls, and when it counts. *)
Lemma retry_loop_spec b : forall attempts n log m r m',
  retry_loop (fetchAndStore b) (S attempts) n log m = (r, m') ->
  todo m' = todo m
  /\ exists evs, calls m' = calls m ++ evs
       /\ (1 <= count is_fetch evs <= S attempts)%nat
       /\ (count is_store evs <= count is_fetch evs)%nat
       /\ backoffs evs = seq (S n) (count is_fetch evs - 1)
       /\ match r with
          | None => bundlesMigrated m' = u64 (bundlesMigrated m + 1)
                    /\ copied b evs
          | Some e => bundlesMigrated m' = bundlesMigrated m
                      /\ count is_fetch evs = S attempts
                      /\ (forall i p d, EvSetEntryBundle i p d true ∉ evs)
                      /\ exists log', e = ErrRetry (log ++ log')
                                      /\ length log' = S attempts
                                      /\ Forall (attempt_error b) log'
          end.
Proof.
  induction attempts as [|attempts IH]; intros n log m r m' H;
    cbn [retry_loop] in H; unfold bind at 1 in H;
    destruct (fetchAndStore b m) as [r1 m1] eqn:Hf;
    destruct (fetchAndStore_spec _ _ _ _ Hf)
      as (Htodo1 & evs1 & Hc1 & Hn1 & Hs1 & Hb1 & Hr1);
    destruct r1 as [e1|].
  - injection H as <- <-. split; [exact Htodo1|]. exists evs1.
    rewrite Hn1, Hb1. destruct Hr1 as (Hbm & Hno & Herr).
    repeat (split; [first [assumption | reflexivity | lia]|]).
    exists [e1]. split; [reflexivity|]. split; [reflexivity|].
    constructor; [exact Herr | constructor].
  - injection H as <- <-. split; [exact Htodo1|]. exists evs1.
    rewrite Hn1, Hb1. destruct Hr1 as (Hbm & d & ->).
    repeat (split; [first [assumption | reflexivity | lia]|]).
    exists d. exists []. reflexivity.
  - unfold bind, emit in H. cbn in H.
    apply IH in H as (Htodo2 & evs2 & Hc2 & Hn2 & Hs2 & Hb2 & Hr2).
    cbn in Htodo2, Hc2. split; [congruence|].
    exists (evs1 ++ [EvBackOffDelay (S n)] ++ evs2).
    split; [rewrite Hc2, Hc1, <- !app_assoc; reflexivity|].
    rewrite !count_app, !backoffs_app, Hb1, Hb2, Hn1.
    change (count is_fetch [EvBackOffDelay (S n)]) with 0%nat.
    change (count is_store [EvBackOffDelay (S n)]) with 0%nat.
    split; [lia|]. split; [lia|].
    split.
    { replace (1 + (0 + count is_fetch evs2) - 1)%nat
        with (S (count is_fetch evs2 - 1)) by lia.
      reflexivity. }
    destruct Hr1 as (Hbm1 & Hno1 & Herr1).
    destruct r as [e|].
    + destruct Hr2 as (Hbm2 & Hcnt2 & Hno2 & log' & -> & Hlen & Hlog).
      cbn in Hbm2. split; [congruence|]. split; [lia|]. split.
      * intros i p d Hin. apply elem_of_app in Hin as [Hin|Hin];
          [exact (Hno1 _ _ _ Hin)|].
        apply elem_of_cons in Hin as [Hin|Hin]; [discriminate|].
        exact (Hno2 _ _ _ Hin).
      * exists (e1 :: log'). rewrite <- app_assoc. split; [reflexivity|].
        split; [cbn; lia | constructor; assumption].
    + destruct Hr2 as (Hbm2 & d & Hsuf). cbn in Hbm2.
      split; [congruence|]. exists d.
      apply suffix_app_r. apply suffix_cons_r. exact Hsuf.
  - injection H as <- <-. split; [exact Htodo1|]. exists evs1.
    rewrite Hn1, Hb1. destruct Hr1 as (Hbm & d & ->).
    repeat (split; [first [assumption | reflexivity | lia]|]).
    exists d. exists []. reflexivity.
Qed.

(** A worker stops at the first bundle whose retries are used up and
    returns the error of [retry.Do]. *)
Lemma migrateWorker_stops b rest m e m' :
  todo m = b :: rest ->
  retry_Do (fetchAndStore b) 10 m = (Some e, m') ->
  migrateWorker m
  = (Some e, mkCopier (world m') rest (bundlesMigrated m') (calls m')).
Proof.
  intros Htodo Hretry. unfold Migrate.migrateWorker. rewrite Htodo.
  cbn [Migrate.migrateItems]. unfold bind at 1. rewrite Hretry.
  reflexivity.
Qed.

Lemma Migrate_started numWorkers sourceSize sourceRoot m targetSize w1 :
  IntegratedSize storage (world m) = (inl targetSize, w1) ->
  targetSize <= sourceSize ->
  Migrate numWorkers sourceSize sourceRoot m
  = let '(results, m2) := runWorkers numWorkers (started layout_Range m w1 targetSize sourceSize) in
    let '((root, aerr), m3) := awaitIntegration storage sourceSize m2 in
    match eg_Wait (results ++ [aerr]) with
    | Some err => (Some (ErrMigrationFailed err), m3)
    | None => if bytes_Equal root sourceRoot then (None, m3)
              else (Some (ErrRootMismatch root sourceRoot), m3)
    end.
Proof.
  intros Hsz Hle. unfold Migrate.Migrate, bind, call, emit, ret. rewrite Hsz. cbn.
  destruct (Z.ltb_spec sourceSize targetSize) as [Hlt|_]; [lia|].
  unfold populateWork, started. cbn.
  destruct (runWorkers numWorkers _) as [results m2].
  destruct (awaitIntegration storage sourceSize m2) as [[root aerr] m3].
  destruct (eg_Wait (results ++ [aerr])); [reflexivity|].
  destruct (bytes_Equal root sourceRoot); reflexivity.
Qed.

Lemma awaitIntegration_nil sourceSize m root m' :
  awaitIntegration storage sourceSize m = ((root, None), m') <->
  exists w', AwaitIntegration storage sourceSize (world m) = (inl root, w')
    /\ m' = mkCopier w' (todo m) (bundlesMigrated m)
              (calls m ++ [EvAwaitIntegration sourceSize]).
Proof.
  unfold awaitIntegration, bind, call, emit, ret.
  destruct (AwaitIntegration storage sourceSize (world m)) as [[r|err] w']; cbn.
  - split.
    + intros [= <- <-]. eauto.
    + intros (w2 & [= <- <-] & ->). reflexivity.
  - split; [discriminate | intros (w2 & [=] & _)].
Qed.

End Facts.

End MigrateFacts.

(** ** Further facts about the copier *)

Module MigrateMore.
Import Migrate MigrateFacts.

Lemma stored_app (a b : list event) : stored (a ++ b) = stored a ++ stored b.
Proof. unfold stored. apply omap_app. Qed.

Lemma stored_none (evs : list event) :
  (forall i p d, EvSetEntryBundle i p d true ∉ evs) -> stored evs = [].
Proof.
  induction evs as [|ev evs IH]; intros H; [reflexivity|].
  assert (IH' : stored evs = []).
  { apply IH. intros i p d Hin. apply (H i p d). apply elem_of_cons. auto. }
  destruct ev as [|b|i p ok|i p d ok|n|sz]; try exact IH'.
  destruct ok; [|exact IH'].
  exfalso. apply (H i p d). apply elem_of_cons. auto.
Qed.

Lemma u64_add_l x y : u64 (u64 x + y) = u64 (x + y).
Proof. unfold u64. apply Zplus_mod_idemp_l. Qed.

Lemma u64_is_u64 x : is_u64 (u64 x).
Proof. unfold is_u64, u64. apply Z.mod_pos_bound. lia. Qed.

Section More.
Context {W : Type}.
Variable layout_Range : Z -> Z -> Z -> list bundle.
Variable storage : MigrationStorage W.
Variable getEntries : EntryBundleFetcherFunc W.
Implicit Types m : copier W.

Local Abbreviation fetchAndStore := (fetchAndStore storage getEntries).
Local Abbreviation migrateItems := (migrateItems storage getEntries).
Local Abbreviation migrateWorker := (migrateWorker storage getEntries).
Local Abbreviation runWorkers := (runWorkers storage getEntries).
Local Abbreviation Migrate := (Migrate layout_Range storage getEntries).

(** [retry.Do] for a bundle: the bundle is stored once, by the run that
    succeeds, or not at all. *)
Lemma retry_loop_stored b : forall attempts n log m r m',
  retry_loop (fetchAndStore b) (S attempts) n log m = (r, m') ->
  exists evs, calls m' = calls m ++ evs /\ todo m' = todo m
    /\ match r with
       | None => stored evs = [b]
                 /\ bundlesMigrated m' = u64 (bundlesMigrated m + 1)
       | Some _ => stored evs = [] /\ bundlesMigrated m' = bundlesMigrated m
       end.
Proof.
  induction attempts as [|attempts IH]; intros n log m r m' H;
    cbn [retry_loop] in H; unfold bind at 1 in H;
    destruct (fetchAndStore b m) as [r1 m1] eqn:Hf;
    destruct (fetchAndStore_spec _ _ _ _ _ _ Hf)
      as (Htodo1 & evs1 & Hc1 & _ & _ & _ & Hr1);
    destruct r1 as [e1|].
  - injection H as <- <-. exists evs1. destruct Hr1 as (Hbm & Hno & _).
    rewrite (stored_none _ Hno). auto.
  - injection H as <- <-. exists evs1. destruct Hr1 as (Hbm & d & ->).
    split; [exact Hc1|]. split; [exact Htodo1|].
    split; [destruct b; reflexivity | exact Hbm].
  - unfold bind, emit in H. cbn in H.
    apply IH in H as (evs2 & Hc2 & Ht2 & Hr2). cbn in Hc2, Ht2.
    destruct Hr1 as (Hbm1 & Hno1 & _).
    exists (evs1 ++ [EvBackOffDelay (S n)] ++ evs2).
    split; [rewrite Hc2, Hc1, <- !app_assoc; reflexivity|].
    split; [congruence|].
    rewrite !stored_app, (stored_none _ Hno1). cbn [app].
    change (stored [EvBackOffDelay (S n)]) with (@nil bundle). cbn [app].
    destruct r as [e|]; destruct Hr2 as [Hs2 Hbm2]; cbn in Hbm2;
      (split; [exact Hs2 | congruence]).
  - injection H as <- <-. exists evs1. destruct Hr1 as (Hbm & d & ->).
    split; [exact Hc1|]. split; [exact Htodo1|].
    split; [destruct b; reflexivity | exact Hbm].
Qed.

(** The loop of a worker: the bundles before the one that fails, or all of
    them, are stored, in order, and counted. *)
Lemma migrateItems_progress bs : forall m r rest m',
  is_u64 (bundlesMigrated m) ->
  migrateItems bs m = ((r, rest), m') ->
  exists done evs,
    calls m' = calls m ++ evs
    /\ stored evs = done
    /\ bundlesMigrated m' = u64 (bundlesMigrated m + Z.of_nat (length done))
    /\ is_u64 (bundlesMigrated m')
    /\ match r with
       | None => bs = done /\ rest = []
       | Some _ => exists b, bs = done ++ b :: rest
       end.
Proof.
  induction bs as [|b bs IH]; intros m r rest m' Hu H; cbn [Migrate.migrateItems] in H.
  - injection H as <- <- <-. exists [], [].
    rewrite app_nil_r, Z.add_0_r, (LayoutFacts.u64_small _ Hu). auto 8.
  - unfold bind at 1 in H.
    destruct (retry_Do (fetchAndStore b) 10 m) as [r1 m1] eqn:Hr.
    unfold retry_Do in Hr.
    apply retry_loop_stored in Hr as (evs1 & Hc1 & _ & Hr1).
    destruct r1 as [e|].
    + injection H as <- <- <-. destruct Hr1 as [Hs1 Hbm1].
      exists [], evs1. rewrite Hbm1, Z.add_0_r, (LayoutFacts.u64_small _ Hu).
      split; [exact Hc1|]. split; [exact Hs1|]. split; [reflexivity|].
      split; [exact Hu|]. exists b. reflexivity.
    + destruct Hr1 as [Hs1 Hbm1].
      assert (Hu1 : is_u64 (bundlesMigrated m1))
        by (rewrite Hbm1; apply u64_is_u64).
      destruct (IH _ _ _ _ Hu1 H) as (done & evs2 & Hc2 & Hs2 & Hbm2 & Hu2 & Hr2).
      exists (b :: done), (evs1 ++ evs2).
      split; [rewrite Hc2, Hc1, <- app_assoc; reflexivity|].
      split; [rewrite stored_app, Hs1, Hs2; reflexivity|].
      split.
      { rewrite Hbm2, Hbm1, u64_add_l. f_equal. cbn [length]. lia. }
      split; [exact Hu2|].
      destruct r as [e|].
      * destruct Hr2 as (b' & ->). exists b'. reflexivity.
      * destruct Hr2 as [-> ->]. auto.
Qed.

Lemma migrateWorker_idle m : todo m = [] -> migrateWorker m = (None, m).
Proof. destruct m as [w t n cs]. cbn. intros ->. reflexivity. Qed.

Lemma runWorkers_idle n : forall m,
  todo m = [] -> runWorkers n m = (repeat None n, m).
Proof.
  induction n as [|n IH]; intros m Ht; [reflexivity|].
  cbn [Migrate.runWorkers repeat]. unfold bind at 1.
  rewrite (migrateWorker_idle _ Ht). unfold bind. rewrite (IH _ Ht).
  reflexivity.
Qed.

(** What [Migrate] has gone through when it returns nil. *)
Lemma Migrate_nil_inv numWorkers sourceSize sourceRoot m m' :
  Migrate numWorkers sourceSize sourceRoot m = (None, m') ->
  exists targetSize w1 results m2,
    IntegratedSize storage (world m) = (inl targetSize, w1)
    /\ targetSize <= sourceSize
    /\ runWorkers numWorkers (started layout_Range m w1 targetSize sourceSize)
       = (results, m2)
    /\ Forall (eq None) results
    /\ awaitIntegration storage sourceSize m2 = ((sourceRoot, None), m').
Proof.
  destruct (IntegratedSize storage (world m)) as [[targetSize|err] w1] eqn:Hsz.
  2:{ unfold Migrate.Migrate, bind, call, emit, ret. rewrite Hsz. cbn.
      discriminate. }
  destruct (Z.ltb_spec sourceSize targetSize) as [Hlt|Hle].
  { unfold Migrate.Migrate, bind, call, emit, ret. rewrite Hsz. cbn.
    destruct (Z.ltb_spec sourceSize targetSize); [discriminate | lia]. }
  rewrite (Migrate_started _ _ _ _ _ _ _ _ _ Hsz Hle).
  destruct (runWorkers numWorkers _) as [results m2] eqn:Hw.
  destruct (awaitIntegration storage sourceSize m2) as [[root aerr] m3] eqn:Ha.
  destruct (eg_Wait (results ++ [aerr])) as [e|] eqn:Hwait; [discriminate|].
  destruct (bytes_Equal root sourceRoot) eqn:Heq; [|discriminate].
  intros [= <-]. apply bytes_Equal_true in Heq. subst root.
  assert (Hall : Forall (eq None) (results ++ [aerr]))
    by (apply eg_Wait_nil; exact Hwait).
  apply Forall_app in Hall as [Hres Ha'].
  inversion Ha' as [|? ? Hnil _]; subst.
  exists targetSize, w1, results, m2. auto.
Qed.

Lemma count_enqueue p (bs : list bundle) :
  (forall b, p (EvEnqueue b) = false) -> count p (map EvEnqueue bs) = 0%nat.
Proof.
  intros Hp. unfold count. induction bs as [|b bs IH]; [reflexivity|].
  cbn. rewrite Hp. exact IH.
Qed.

(** One run of the function under retry when nothing fails. *)
Lemma fetchAndStore_ok b m :
  (forall i p w, is_ok (fst (getEntries i p w)) = true) ->
  (forall i p d w, is_nil (fst (SetEntryBundle storage i p d w)) = true) ->
  exists d m1,
    fetchAndStore b m = (None, m1)
    /\ calls m1 = calls m ++ copy_events b d
    /\ bundlesMigrated m1 = u64 (bundlesMigrated m + 1).
Proof.
  intros Hget Hset.
  unfold Migrate.fetchAndStore, bind, call, emit, ret.
  pose proof (Hget (Index b) (Partial b) (world m)) as Hg.
  destruct (getEntries (Index b) (Partial b) (world m)) as [[d|err] w1];
    [|discriminate].
  cbn. pose proof (Hset (Index b) (Partial b) d w1) as Hs.
  destruct (SetEntryBundle storage (Index b) (Partial b) d w1) as [[err|] w2];
    [discriminate|].
  cbn. exists d. eexists. split; [reflexivity|]. cbn.
  rewrite <- app_assoc. auto.
Qed.

Lemma migrateItems_ok bs : forall m,
  (forall i p w, is_ok (fst (getEntries i p w)) = true) ->
  (forall i p d w, is_nil (fst (SetEntryBundle storage i p d w)) = true) ->
  exists ds m',
    migrateItems bs m = ((None, []), m')
    /\ length ds = length bs
    /\ calls m' = calls m ++ concat (zip_with copy_events bs ds).
Proof.
  induction bs as [|b bs IH]; intros m Hget Hset.
  - exists [], m. cbn. rewrite app_nil_r. auto.
  - destruct (fetchAndStore_ok b m Hget Hset) as (d & m1 & Hf & Hc1 & _).
    destruct (IH m1 Hget Hset) as (ds & m' & Hi & Hlen & Hc2).
    exists (d :: ds), m'. cbn [Migrate.migrateItems].
    unfold bind at 1, retry_Do. cbn [retry_loop]. unfold bind at 1.
    rewrite Hf. cbn [ret]. rewrite Hi.
    split; [reflexivity|]. split; [cbn [length]; congruence|].
    rewrite Hc2, Hc1, <- app_assoc. reflexivity.
Qed.

(** *** Properties of the copier *)

(** X13: a worker stores the bundles it takes in the order of the channel,
    each once, and counts exactly the bundles it has stored.  It returns nil
    only when it has stored all of them and left the channel empty; when it
    gives up on a bundle, the bundles after it stay in the channel. *)
Theorem migrateWorker_progress m r m' :
  is_u64 (bundlesMigrated m) ->
  migrateWorker m = (r, m') ->
  exists done evs,
    calls m' = calls m ++ evs
    /\ stored evs = done
    /\ bundlesMigrated m' = u64 (bundlesMigrated m + Z.of_nat (length done))
    /\ match r with
       | None => todo m = done /\ todo m' = []
       | Some _ => exists b, todo m = done ++ b :: todo m'
       end.
Proof.
  intros Hu. unfold Migrate.migrateWorker.
  destruct (migrateItems (todo m) m) as [[r0 rest] m1] eqn:Hi.
  intros [= <- <-]. cbn.
  destruct (migrateItems_progress _ _ _ _ _ Hu Hi)
    as (done & evs & Hc & Hs & Hbm & _ & Hr).
  exists done, evs. auto.
Qed.

(** X14: with at least one worker, [Migrate] returns nil only if every
    bundle sent to the workers has been stored, each once, the channel is
    empty, and the counter has advanced by the number of bundles. *)
Theorem Migrate_nil_all_stored n sourceSize sourceRoot m m' :
  is_u64 (bundlesMigrated m) ->
  Migrate (S n) sourceSize sourceRoot m = (None, m') ->
  exists targetSize w1 evs,
    IntegratedSize storage (world m) = (inl targetSize, w1)
    /\ targetSize <= sourceSize
    /\ calls m'
       = calls (started layout_Range m w1 targetSize sourceSize) ++ evs
    /\ stored evs
       ≡ₚ todo m ++ layout_Range targetSize (u64 (sourceSize - targetSize))
                      sourceSize
    /\ todo m' = []
    /\ bundlesMigrated m'
       = u64 (bundlesMigrated m + Z.of_nat (length (stored evs))).
Proof.
  intros Hu H.
  apply Migrate_nil_inv in H
    as (targetSize & w1 & results & m2 & Hsz & Hle & Hw & Hres & Ha).
  exists targetSize, w1.
  set (m0 := started layout_Range m w1 targetSize sourceSize) in *.
  cbn [Migrate.runWorkers] in Hw. unfold bind at 1 in Hw.
  destruct (migrateWorker m0) as [r1 m1] eqn:Hw1.
  unfold bind in Hw. destruct (runWorkers n m1) as [rs m2'] eqn:Hw2.
  injection Hw as <- <-. apply Forall_cons in Hres as [<- _].
  unfold Migrate.migrateWorker in Hw1.
  destruct (migrateItems (todo m0) m0) as [[r0 rest] mi] eqn:Hi.
  injection Hw1 as -> <-.
  destruct (migrateItems_progress (todo m0) m0 _ _ _ Hu Hi)
    as (done & evs & Hc & Hs & Hbm & _ & Hdone & ->).
  rewrite runWorkers_idle in Hw2 by reflexivity. injection Hw2 as _ <-.
  apply awaitIntegration_nil in Ha as (w' & _ & ->). cbn.
  exists (evs ++ [EvAwaitIntegration sourceSize]).
  split; [exact Hsz|]. split; [exact Hle|].
  split; [rewrite Hc, <- app_assoc; reflexivity|].
  rewrite stored_app, Hs. cbn [stored omap list_omap]. rewrite app_nil_r.
  split; [rewrite <- Hdone; reflexivity|]. split; [reflexivity | exact Hbm].
Qed.

(** X15: without workers [Migrate] fetches nothing, stores nothing and
    counts nothing; it returns nil exactly when the size check passes and
    the wait for integration returns the source root. *)
Theorem Migrate_no_workers sourceSize sourceRoot m r m' :
  Migrate 0 sourceSize sourceRoot m = (r, m') ->
  (exists evs, calls m' = calls m ++ evs
     /\ count is_fetch evs = 0%nat /\ count is_store evs = 0%nat)
  /\ bundlesMigrated m' = bundlesMigrated m
  /\ (r = None <->
      exists targetSize w1 w2,
        IntegratedSize storage (world m) = (inl targetSize, w1)
        /\ targetSize <= sourceSize
        /\ AwaitIntegration storage sourceSize w1 = (inl sourceRoot, w2)).
Proof.
  destruct (IntegratedSize storage (world m)) as [[targetSize|err] w1] eqn:Hsz.
  2:{ unfold Migrate.Migrate, bind, call, emit, ret. rewrite Hsz. cbn.
      intros [= <- <-]. cbn. split; [eexists; split; [reflexivity|]; auto|].
      split; [reflexivity|]. split; [discriminate|].
      intros (t & w & w2 & [=] & _). }
  destruct (Z.ltb_spec sourceSize targetSize) as [Hlt|Hle].
  { unfold Migrate.Migrate, bind, call, emit, ret. rewrite Hsz. cbn.
    destruct (Z.ltb_spec sourceSize targetSize); [|lia].
    intros [= <- <-]. cbn. split; [eexists; split; [reflexivity|]; auto|].
    split; [reflexivity|]. split; [discriminate|].
    intros (t & w & w2 & [= <- <-] & Hle & _). lia. }
  rewrite (Migrate_started _ _ _ _ _ _ _ _ _ Hsz Hle).
  cbn [Migrate.runWorkers ret app].
  unfold awaitIntegration, bind, call, emit, ret. cbn.
  set (bs := layout_Range targetSize (u64 (sourceSize - targetSize)) sourceSize).
  assert (Hcnt : forall p, p EvIntegratedSize = false ->
                   (forall b, p (EvEnqueue b) = false) ->
                   p (EvAwaitIntegration sourceSize) = false ->
                   count p ([EvIntegratedSize] ++ map EvEnqueue bs
                              ++ [EvAwaitIntegration sourceSize]) = 0%nat).
  { intros p H1 H2 H3. rewrite !count_app, (count_enqueue _ _ H2).
    unfold count. cbn. rewrite H1, H3. reflexivity. }
  destruct (AwaitIntegration storage sourceSize w1) as [[root|err] w2] eqn:Haw;
    cbn.
  - destruct (bytes_Equal root sourceRoot) eqn:Heq; intros [= <- <-]; cbn.
    + apply bytes_Equal_true in Heq. subst root.
      split; [eexists; split; [rewrite <- !app_assoc; reflexivity|]; split;
              apply Hcnt; reflexivity|].
      split; [reflexivity|]. split; [|reflexivity].
      intros _. exists targetSize, w1, w2. auto.
    + split; [eexists; split; [rewrite <- !app_assoc; reflexivity|]; split;
              apply Hcnt; reflexivity|].
      split; [reflexivity|]. split; [discriminate|].
      intros (t & w & w3 & [= <- <-] & _ & Haw'). rewrite Haw in Haw'.
      injection Haw' as -> _.
      assert (bytes_Equal sourceRoot sourceRoot = true)
        by (apply bytes_Equal_true; reflexivity).
      congruence.
  - intros [= <- <-]. cbn.
    split; [eexists; split; [rewrite <- !app_assoc; reflexivity|]; split;
            apply Hcnt; reflexivity|].
    split; [reflexivity|]. split; [discriminate|].
    intros (t & w & w3 & [= <- <-] & _ & Haw'). rewrite Haw in Haw'.
    discriminate.
Qed.

(** The loop of a worker when nothing fails: every bundle is fetched once
    and stored once, as fetched. *)
Lemma migrateItems_copies bs : forall m,
  (forall i p w, is_ok (fst (getEntries i p w)) = true) ->
  (forall i p d w, is_nil (fst (SetEntryBundle storage i p d w)) = true) ->
  exists ds m',
    migrateItems bs m = ((None, []), m')
    /\ copies storage getEntries (world m) bs ds (world m')
    /\ calls m' = calls m ++ concat (zip_with copy_events bs ds).
Proof.
  induction bs as [|b bs IH]; intros m Hget Hset.
  - exists [], m. cbn. rewrite app_nil_r. split; [reflexivity|].
    split; [constructor | reflexivity].
  - pose proof (Hget (Index b) (Partial b) (world m)) as Hg.
    destruct (getEntries (Index b) (Partial b) (world m)) as [[d|e] w1] eqn:Hfetch;
      [|discriminate Hg].
    pose proof (Hset (Index b) (Partial b) d w1) as Hs.
    destruct (SetEntryBundle storage (Index b) (Partial b) d w1) as [[e|] w2]
      eqn:Hstore; [discriminate Hs|].
    set (m1 := mkCopier w2 (todo m) (u64 (bundlesMigrated m + 1))
                 (calls m ++ copy_events b d)).
    assert (Hf : fetchAndStore b m = (None, m1)).
    { unfold Migrate.fetchAndStore, bind, call, emit, ret.
      rewrite Hfetch. cbn. rewrite Hstore. cbn. unfold m1.
      rewrite <- app_assoc. reflexivity. }
    destruct (IH m1 Hget Hset) as (ds & m' & Hi & Hcp & Hc).
    exists (d :: ds), m'. cbn [Migrate.migrateItems].
    unfold bind at 1, retry_Do. cbn [retry_loop]. unfold bind at 1.
    rewrite Hf. cbn [ret]. rewrite Hi. split; [reflexivity|]. split.
    + eapply copies_cons; [exact Hfetch | exact Hstore | exact Hcp].
    + rewrite Hc. unfold m1. cbn [calls zip_with concat].
      rewrite <- app_assoc. reflexivity.
Qed.

(** X16: when neither the source nor the target fails, a worker empties the
    channel and returns nil, and the calls it makes are, for each bundle in
    the order of the channel, one fetch and one store of the data that this
    fetch returned: nothing is tried twice, nothing waits, and what is
    stored is what was fetched. *)
Theorem migrateWorker_all_ok m :
  (forall i p w, is_ok (fst (getEntries i p w)) = true) ->
  (forall i p d w, is_nil (fst (SetEntryBundle storage i p d w)) = true) ->
  exists ds m',
    migrateWorker m = (None, m')
    /\ todo m' = []
    /\ length ds = length (todo m)
    /\ copies storage getEntries (world m) (todo m) ds (world m')
    /\ calls m' = calls m ++ concat (zip_with copy_events (todo m) ds).
Proof.
  intros Hget Hset.
  destruct (migrateItems_copies (todo m) m Hget Hset) as (ds & m' & Hi & Hcp & Hc).
  exists ds. eexists. unfold Migrate.migrateWorker. rewrite Hi.
  split; [reflexivity|]. cbn. split; [reflexivity|].
  split; [|split; [exact Hcp | exact Hc]].
  clear Hi Hc. induction Hcp; cbn; congruence.
Qed.

(** X27: for a bundle, the fetch-then-store is run at most 10 times, with
    the waits [BackOffDelay(1)], [BackOffDelay(2)], ... between the runs (one
    wait fewer than runs, so at most [BackOffDelay(9)]); a run stores only
    after it has fetched; the bundle is counted exactly when a run fetched
    and stored it, and that run is the last; when all 10 runs fail nothing
    is counted, no store has succeeded, and the worker returns the error of
    [retry.Do], which holds the 10 errors of the runs, without taking
    further work. *)
Theorem migrateWorker_retries b :
  (forall m r m',
     retry_Do (fetchAndStore b) 10 m = (r, m') ->
     exists evs, calls m' = calls m ++ evs
       /\ (count is_fetch evs <= 10)%nat
       /\ (count is_store evs <= count is_fetch evs)%nat
       /\ backoffs evs = seq 1 (count is_fetch evs - 1)
       /\ match r with
          | None => bundlesMigrated m' = u64 (bundlesMigrated m + 1)
                    /\ copied b evs
          | Some e => bundlesMigrated m' = bundlesMigrated m
                      /\ count is_fetch evs = 10%nat
                      /\ (forall i p d, EvSetEntryBundle i p d true ∉ evs)
                      /\ exists log, e = ErrRetry log /\ length log = 10%nat
                                     /\ Forall (attempt_error b) log
          end)
  /\ (forall m rest e m',
        todo m = b :: rest ->
        retry_Do (fetchAndStore b) 10 m = (Some e, m') ->
        migrateWorker m
        = (Some e, mkCopier (world m') rest (bundlesMigrated m') (calls m'))).
Proof.
  split.
  - intros m r m' H. unfold retry_Do in H.
    apply retry_loop_spec in H as (_ & evs & Hc & Hn & Hs & Hb & Hr).
    exists evs. split; [exact Hc|]. split; [lia|]. split; [exact Hs|].
    split; [exact Hb|]. destruct r as [e|]; [|exact Hr].
    destruct Hr as (Hbm & Hcnt & Hno & log' & -> & Hlen & Hlog).
    split; [exact Hbm|]. split; [exact Hcnt|]. split; [exact Hno|].
    exists log'. auto.
  - intros m rest e m' Htodo H. apply (migrateWorker_stops _ _ b); assumption.
Qed.


End More.

(** *** At sample collaborators *)

Lemma migrateWorker_progress_witness :
  exists m' evs,
    migrateWorker broken_storage steady_source sample_started
    = (Some (ErrRetry (repeat (ErrStore 0 0 (ErrExternal "disk full")) 10)), m')
    /\ calls m' = calls sample_started ++ evs
    /\ stored evs = []
    /\ bundlesMigrated m' = 0
    /\ todo m' = [Bundle 1 1].
Proof.
  set (e := ErrRetry (repeat (ErrStore 0 0 (ErrExternal "disk full")) 10)).
  set (m' := snd (migrateWorker broken_storage steady_source sample_started)).
  assert (Hrun : migrateWorker broken_storage steady_source sample_started
                 = (Some e, m')) by (vm_compute; reflexivity).
  assert (Hu : is_u64 (bundlesMigrated sample_started))
    by (change (bundlesMigrated sample_started) with 0; unfold is_u64; lia).
  destruct (migrateWorker_progress broken_storage steady_source
              sample_started (Some e) m' Hu Hrun)
    as (done & evs & Hc & Hs & Hbm & b & Hb).
  assert (Htodo : todo m' = [Bundle 1 1]) by (vm_compute; reflexivity).
  rewrite Htodo in Hb.
  change (todo sample_started) with [Bundle 0 0; Bundle 1 1] in Hb.
  assert (Hlen : length done = 0%nat).
  { apply (f_equal length) in Hb. rewrite length_app in Hb. cbn in Hb. lia. }
  destruct done as [|b0 done]; [|discriminate Hlen].
  exists m', evs. split; [exact Hrun|]. split; [exact Hc|].
  split; [exact Hs|]. split; [|exact Htodo].
  rewrite Hbm. reflexivity.
Defined.

Lemma Migrate_nil_all_stored_witness :
  exists m' evs,
    Migrate sample_Range (sample_storage 0) flaky_source 2 257 sample_root
      (newCopier 0%nat) = (None, m')
    /\ calls m' = calls sample_started ++ evs
    /\ stored evs ≡ₚ [Bundle 0 0; Bundle 1 1]
    /\ todo m' = []
    /\ bundlesMigrated m' = 2.
Proof.
  set (m' := snd (Migrate sample_Range (sample_storage 0) flaky_source 2 257
                    sample_root (newCopier 0%nat))).
  assert (Hrun : Migrate sample_Range (sample_storage 0) flaky_source 2 257
                   sample_root (newCopier 0%nat) = (None, m'))
    by (vm_compute; reflexivity).
  assert (Hu : is_u64 (bundlesMigrated (newCopier 0%nat)))
    by (change (bundlesMigrated (newCopier 0%nat)) with 0; unfold is_u64; lia).
  destruct (Migrate_nil_all_stored sample_Range (sample_storage 0) flaky_source
              1 257 sample_root (newCopier 0%nat) m' Hu Hrun)
    as (targetSize & w1 & evs & Hsz & _ & Hc & Hs & Ht & Hbm).
  injection Hsz as <- <-.
  exists m', evs. split; [exact Hrun|]. split; [exact Hc|].
  split; [exact Hs|]. split; [exact Ht|].
  rewrite Hbm, (Permutation_length Hs). reflexivity.
Defined.

Lemma Migrate_no_workers_witness :
  exists m',
    Migrate sample_Range (sample_storage 0) flaky_source 0 257 sample_root
      (newCopier 0%nat) = (None, m')
    /\ bundlesMigrated m' = 0.
Proof.
  set (m' := snd (Migrate sample_Range (sample_storage 0) flaky_source 0 257
                    sample_root (newCopier 0%nat))).
  assert (Hrun : Migrate sample_Range (sample_storage 0) flaky_source 0 257
                   sample_root (newCopier 0%nat) = (None, m'))
    by (vm_compute; reflexivity).
  destruct (Migrate_no_workers sample_Range (sample_storage 0) flaky_source
              257 sample_root (newCopier 0%nat) None m' Hrun)
    as (_ & Hbm & _).
  exists m'. split; [exact Hrun | exact Hbm].
Defined.

Lemma migrateWorker_all_ok_witness :
  let d := [Byte.x01; Byte.x02] in
  exists m',
    migrateWorker (sample_storage 0) full_source sample_started = (None, m')
    /\ todo m' = []
    /\ copies (sample_storage 0) full_source 1%nat [Bundle 0 0; Bundle 1 1]
         [d; d] 5%nat
    /\ calls m'
       = calls sample_started
         ++ [EvGetEntries 0 0 true; EvSetEntryBundle 0 0 d true;
             EvGetEntries 1 1 true; EvSetEntryBundle 1 1 d true].
Proof.
  intros d.
  destruct (migrateWorker_all_ok (sample_storage 0) full_source sample_started)
    as (ds & m' & Hw & Ht & Hlen & Hcp & Hc);
    [intros; reflexivity | intros; reflexivity |].
  set (m0 := snd (migrateWorker (sample_storage 0) full_source sample_started)).
  assert (H0 : migrateWorker (sample_storage 0) full_source sample_started
               = (None, m0)) by (vm_compute; reflexivity).
  rewrite H0 in Hw. injection Hw as <-.
  assert (Hds : ds = [d; d]).
  { change (todo sample_started) with [Bundle 0 0; Bundle 1 1] in Hcp.
    inversion Hcp as [|? ? ? d1 ds1 ? ? ? Hf1 _ Hcp1]; subst.
    inversion Hcp1 as [|? ? ? d2 ds2 ? ? ? Hf2 _ Hcp2]; subst.
    inversion Hcp2; subst.
    injection Hf1 as <- _. injection Hf2 as <- _. reflexivity. }
  subst ds. exists m0. split; [exact H0|]. split; [exact Ht|].
  split; [|exact Hc].
  change (world sample_started) with 1%nat in Hcp.
  change (todo sample_started) with [Bundle 0 0; Bundle 1 1] in Hcp.
  replace 5%nat with (world m0) by (vm_compute; reflexivity). exact Hcp.
Defined.

Lemma migrateWorker_retries_witness :
  let m := started sample_Range (newCopier 0%nat) 1%nat 0 257 in
  let e := ErrRetry (repeat (ErrStore 0 0 (ErrExternal "disk full")) 10) in
  (exists m' evs,
     retry_Do (fetchAndStore broken_storage steady_source (Bundle 0 0)) 10 m
     = (Some e, m')
     /\ calls m' = calls m ++ evs
     /\ count is_fetch evs = 10%nat
     /\ backoffs evs = seq 1 9
     /\ bundlesMigrated m' = bundlesMigrated m)
  /\ (exists m', migrateWorker broken_storage steady_source m = (Some e, m')
                 /\ todo m' = [Bundle 1 1] /\ bundlesMigrated m' = 0).
Proof.
  intros m e.
  pose proof (migrateWorker_retries broken_storage
                steady_source (Bundle 0 0)) as (Hretry & Hworker).
  split.
  - set (m' := snd (retry_Do (fetchAndStore broken_storage steady_source
                                (Bundle 0 0)) 10 m)).
    assert (Hrun : retry_Do (fetchAndStore broken_storage steady_source
                               (Bundle 0 0)) 10 m = (Some e, m'))
      by (vm_compute; reflexivity).
    destruct (Hretry m (Some e) m' Hrun)
      as (evs & Hc & _ & _ & Hb & Hbm & Hcnt & _).
    exists m', evs. rewrite Hcnt in Hb. auto.
  - eexists. split; [|split].
    + apply (Hworker m [Bundle 1 1] e); [reflexivity | vm_compute; reflexivity].
    + reflexivity.
    + reflexivity.
Defined.


End MigrateMore.

(** ** The goroutines of Migrate *)

Module MigrateSchedFacts.
Import Migrate MigrateFacts MigrateMore MigrateSched.

Section Facts.
Context {W : Type}.
Variable layout_Range : Z -> Z -> Z -> list bundle.
Variable EntryBundleWidth maxChan : Z.
Variable storage : MigrationStorage W.
Variable getEntries : EntryBundleFetcherFunc W.
Implicit Types m : copier W.

Local Abbreviation worker_step := (worker_step storage getEntries).
Local Abbreviation step := (step EntryBundleWidth storage getEntries).
Local Abbreviation run := (run EntryBundleWidth storage getEntries).
Local Abbreviation start := (start layout_Range).
Local Abbreviation Migrate :=
  (Migrate layout_Range EntryBundleWidth maxChan storage getEntries).
Local Abbreviation path :=
  (path layout_Range EntryBundleWidth maxChan storage getEntries).

Ltac st :=
  cbn [world pending closed todo workers await err bundlesMigrated calls
       set_world set_pending set_closed set_todo set_workers set_await
       set_err set_bundlesMigrated emit].

Tactic Notation "st" "in" hyp(H) :=
  cbn [world pending closed todo workers await err bundlesMigrated calls
       set_world set_pending set_closed set_todo set_workers set_await
       set_err set_bundlesMigrated emit] in H.

(** *** What a step changes *)

Lemma eg_return_err e m :
  err (eg_return e m) = match err m with None => Some e | x => x end.
Proof. unfold eg_return. destruct (err m) eqn:E; [exact E | reflexivity]. Qed.

Lemma eg_return_frame e m :
  workers (eg_return e m) = workers m /\ await (eg_return e m) = await m
  /\ calls (eg_return e m) = calls m /\ world (eg_return e m) = world m
  /\ pending (eg_return e m) = pending m /\ todo (eg_return e m) = todo m
  /\ closed (eg_return e m) = closed m
  /\ bundlesMigrated (eg_return e m) = bundlesMigrated m.
Proof. unfold eg_return. destruct (err m); repeat split; reflexivity. Qed.

Lemma failed_run_frame b n log e m wk' m1 :
  failed_run b n log e m = (wk', m1) ->
  workers m1 = workers m /\ await m1 = await m /\ err m1 = err m
  /\ pending m1 = pending m /\ closed m1 = closed m /\ todo m1 = todo m
  /\ world m1 = world m /\ bundlesMigrated m1 = bundlesMigrated m
  /\ count is_await (calls m1) = count is_await (calls m)
  /\ stored (calls m1) = stored (calls m).
Proof.
  unfold failed_run. destruct (S n =? 10)%nat; intros [= <- <-]; st;
    repeat split; try reflexivity.
  - rewrite count_app. cbn. lia.
  - unfold stored. rewrite omap_app. cbn. apply app_nil_r.
Qed.

Lemma worker_step_frame wk m wk' m1 :
  worker_step wk m = (wk', m1) ->
  workers m1 = workers m /\ await m1 = await m /\ err m1 = err m
  /\ pending m1 = pending m /\ closed m1 = closed m
  /\ count is_await (calls m1) = count is_await (calls m).
Proof.
  destruct wk as [|b n log|b n log d|r]; cbn [MigrateSched.worker_step].
  - destruct (todo m) as [|b rest]; [destruct (closed m) eqn:Hcl|];
      intros [= <- <-]; repeat split; first [reflexivity | exact Hcl].
  - unfold call. destruct (getEntries _ _ (world m)) as [[d|e] w1].
    + intros [= <- <-]. st. repeat split; try reflexivity.
      rewrite count_app. cbn. lia.
    + intros H. apply failed_run_frame in H
        as (H1 & H2 & H3 & H4 & H5 & _ & _ & _ & H6 & _).
      st in H1. st in H2. st in H3. st in H4. st in H5. st in H6.
      rewrite count_app in H6. cbn in H6.
      repeat split; first [assumption | lia].
  - unfold call.
    destruct (SetEntryBundle storage _ _ d (world m)) as [[e|] w1].
    + intros H. apply failed_run_frame in H
        as (H1 & H2 & H3 & H4 & H5 & _ & _ & _ & H6 & _).
      st in H1. st in H2. st in H3. st in H4. st in H5. st in H6.
      rewrite count_app in H6. cbn in H6.
      repeat split; first [assumption | lia].
    + intros [= <- <-]. st. repeat split; try reflexivity.
      rewrite count_app. cbn. lia.
  - intros [= <- <-]. repeat split; reflexivity.
Qed.

Lemma step_worker nW tS sS i m wk :
  workers m !! i = Some wk -> is_done wk = false ->
  step nW tS sS (Worker i) m
  = let '(wk', m1) := worker_step wk m in
    match wk' with
    | Done (Some e) => eg_return e (set_workers (<[i := wk']> (workers m1)) m1)
    | _ => set_workers (<[i := wk']> (workers m1)) m1
    end.
Proof.
  intros Hwk Hd. cbn [MigrateSched.step]. rewrite Hwk.
  destruct wk; [reflexivity.. | discriminate Hd].
Qed.

(** What a step does to the group: nothing, or a worker that had not
    returned moves on, or the wait for the integration moves on; a goroutine
    that returns an error hands it to the group, which keeps the first. *)
Lemma step_group nW tS sS g m :
  let m' := step nW tS sS g m in
  (workers m' = workers m /\ await m' = await m /\ err m' = err m
   /\ count is_await (calls m') = count is_await (calls m))
  \/ (exists i wk wk',
        g = Worker i /\ workers m !! i = Some wk /\ is_done wk = false
        /\ workers m' = <[i := wk']> (workers m) /\ await m' = await m
        /\ count is_await (calls m') = count is_await (calls m)
        /\ err m' = match wk' with
                    | Done (Some e) =>
                        match err m with None => Some e | x => x end
                    | _ => err m
                    end
        /\ wk' = fst (worker_step wk m))
  \/ (g = Await /\ workers m' = workers m /\ is_answered (await m) = false
      /\ count is_await (calls m')
         = match await m with
           | NotCalled => S (count is_await (calls m))
           | _ => count is_await (calls m)
           end
      /\ (await m' = Calling /\ err m' = err m
          \/ (exists r, await m' = Answered (inl r) /\ err m' = err m)
          \/ (exists e, await m' = Answered (inr e)
                /\ err m' = match err m with
                            | None => Some (ErrMigrationFailed e)
                            | x => x
                            end))).
Proof.
  cbv zeta. destruct g as [| |i|].
  - left. cbn [MigrateSched.step]. unfold populate_step.
    destruct (pending m) as [|b rest]; [destruct (closed m)|
      destruct (Z.of_nat (length (todo m)) <? nW)]; st; auto.
    rewrite count_app. cbn. repeat split; lia.
  - left. cbn [MigrateSched.step]. unfold stats_step.
    destruct (_ =? 0); [auto|].
    unfold call. destruct (IntegratedSize storage (world m)) as [sz w1]. st.
    rewrite count_app. cbn. repeat split; lia.
  - destruct (workers m !! i) as [wk|] eqn:Hwk.
    2:{ left. cbn [MigrateSched.step]. rewrite Hwk. auto. }
    destruct (is_done wk) eqn:Hd.
    { left. cbn [MigrateSched.step]. rewrite Hwk.
      destruct wk; try discriminate Hd. auto. }
    right. left. rewrite (step_worker _ _ _ _ _ _ Hwk Hd).
    destruct (worker_step wk m) as [wk' m1] eqn:Hstep.
    destruct (worker_step_frame _ _ _ _ Hstep) as (H1 & H2 & H3 & _ & _ & H6).
    exists i, wk, wk'. split; [reflexivity|].
    split; [first [exact Hwk | reflexivity]|]. split; [exact Hd|].
    assert (Hfst : wk' = fst (worker_step wk m)) by (rewrite Hstep; reflexivity).
    clear Hstep.
    destruct wk' as [| | |[e|]]; st.
    1-3,5: (rewrite ?H1, ?H2, ?H3, ?H6; repeat split; first [reflexivity | exact Hfst]).
    destruct (eg_return_frame e (set_workers (<[i := Done (Some e)]> (workers m1)) m1))
      as (F1 & F2 & F3 & _).
    rewrite F1, F2, F3, eg_return_err. st. rewrite H1, H2, H3, H6.
    repeat split; first [reflexivity | exact Hfst].
  - cbn [MigrateSched.step]. unfold await_step.
    destruct (await m) as [| |a] eqn:Ha; [| |auto].
    + right. right. split; [reflexivity|]. unfold call. st.
      destruct (AwaitIntegration storage sS (world m)) as [[[r|e]|] w1]; st.
      * rewrite count_app. cbn. repeat split; [lia|]. right. left. eauto.
      * destruct (eg_return_frame (ErrMigrationFailed e)
                    (set_await (Answered (inr e))
                       (set_world w1 (emit (EvAwaitIntegration sS) m))))
          as (F1 & F2 & F3 & _).
        rewrite F1, F2, F3, eg_return_err. st.
        rewrite count_app. cbn. repeat split; [lia|]. right. right. eauto.
      * rewrite count_app. cbn. repeat split; [lia|]. auto.
    + right. right. split; [reflexivity|]. unfold call.
      destruct (AwaitIntegration storage sS (world m)) as [[[r|e]|] w1]; st.
      * repeat split. right. left. eauto.
      * destruct (eg_return_frame (ErrMigrationFailed e)
                    (set_await (Answered (inr e)) (set_world w1 m)))
          as (F1 & F2 & F3 & _).
        rewrite F1, F2, F3, eg_return_err. st.
        repeat split. right. right. eauto.
      * repeat split. auto.
Qed.

(** *** Invariants of the group *)

Lemma Recorded_step nW tS sS g m :
  Recorded m -> Recorded (step nW tS sS g m).
Proof.
  intros HR.
  destruct (step_group nW tS sS g m)
    as [(Hw & Ha & He & _)
       |[(i & wk & wk' & _ & Hwk & Hd & Hw & Ha & _ & He & _)
        |(_ & Hw & Hna & _ & Hcase)]];
    unfold Recorded in *.
  - rewrite He, Hw, Ha. exact HR.
  - assert (Hlt : (i < length (workers m))%nat)
      by (eapply lookup_lt_Some; eauto).
    assert (Hkeep : forall j e, workers m !! j = Some (Done (Some e)) ->
              <[i := wk']> (workers m) !! j = Some (Done (Some e))).
    { intros j e Hj. destruct (decide (i = j)) as [<-|Hne].
      - rewrite Hwk in Hj. injection Hj as ->. discriminate Hd.
      - rewrite list_lookup_insert_ne by exact Hne. exact Hj. }
    rewrite He, Hw, Ha.
    destruct (err m) as [e0|] eqn:Herr.
    + assert (Hsame : match wk' with
                      | Done (Some _) => Some e0
                      | _ => Some e0
                      end = Some e0)
        by (destruct wk' as [| | |[?|]]; reflexivity).
      rewrite Hsame. destruct HR as [(j & Hj)|HR]; [left|right; exact HR].
      exists j. apply Hkeep. exact Hj.
    + destruct HR as [HR1 HR2].
      destruct wk' as [|b n log|b n log d|[e|]].
      1-3,5: (split; [|exact HR2]; intros j e Hj;
              destruct (decide (i = j)) as [<-|Hne];
              [rewrite list_lookup_insert_eq in Hj by exact Hlt; discriminate Hj
              |rewrite list_lookup_insert_ne in Hj by exact Hne;
               exact (HR1 j e Hj)]).
      left. exists i. apply list_lookup_insert_eq. exact Hlt.
  - rewrite Hw.
    destruct Hcase as [[Ha He]|[(r & Ha & He)|(e & Ha & He)]];
      rewrite Ha, He.
    + destruct (err m) as [e0|].
      * destruct HR as [HR|(e1 & HR & _)]; [left; exact HR|].
        rewrite HR in Hna. discriminate Hna.
      * destruct HR as [HR1 _]. split; [exact HR1 | discriminate].
    + destruct (err m) as [e0|].
      * destruct HR as [HR|(e1 & HR & _)]; [left; exact HR|].
        rewrite HR in Hna. discriminate Hna.
      * destruct HR as [HR1 _]. split; [exact HR1 | discriminate].
    + destruct (err m) as [e0|].
      * destruct HR as [HR|(e1 & HR & _)]; [left; exact HR|].
        rewrite HR in Hna. discriminate Hna.
      * right. exists e. auto.
Qed.

Lemma CalledOnce_step nW tS sS g m :
  CalledOnce m -> CalledOnce (step nW tS sS g m).
Proof.
  intros HC. unfold CalledOnce in *.
  destruct (step_group nW tS sS g m)
    as [(_ & Ha & _ & Hc)
       |[(i & wk & wk' & _ & _ & _ & _ & Ha & Hc & _ & _)
        |(_ & _ & Hna & Hc & Hcase)]].
  - rewrite Hc, Ha. exact HC.
  - rewrite Hc, Ha. exact HC.
  - rewrite Hc.
    assert (E : match await m with
                | NotCalled => S (count is_await (calls m))
                | _ => count is_await (calls m)
                end = 1%nat).
    { destruct (await m); [rewrite HC; reflexivity | exact HC
                          | discriminate Hna]. }
    rewrite E.
    destruct Hcase as [[-> _]|[(r & -> & _)|(e & -> & _)]]; reflexivity.
Qed.

Lemma workers_length_step nW tS sS g m :
  length (workers (step nW tS sS g m)) = length (workers m).
Proof.
  destruct (step_group nW tS sS g m)
    as [(Hw & _)|[(i & wk & wk' & _ & _ & _ & Hw & _)|(_ & Hw & _)]];
    rewrite Hw; [reflexivity | apply length_insert | reflexivity].
Qed.

Lemma run_invariant (P : copier W -> Prop) nW tS sS :
  (forall g m, P m -> P (step nW tS sS g m)) ->
  forall sched m, P m -> P (run nW tS sS sched m).
Proof.
  intros Hstep. induction sched as [|g gs IH]; intros m HP; [exact HP|].
  cbn [MigrateSched.run]. apply IH, Hstep, HP.
Qed.

(** *** The paths through [Migrate] *)

Lemma Migrate_path sched numWorkers sourceSize sourceRoot w :
  path sched numWorkers sourceSize sourceRoot w
    (fst (Migrate sched numWorkers sourceSize sourceRoot w))
    (snd (Migrate sched numWorkers sourceSize sourceRoot w)).
Proof.
  unfold MigrateSched.Migrate.
  destruct (Z.ltb_spec numWorkers 0) as [Hneg|Hpos]; cbn [orb].
  { apply path_panic. auto. }
  destruct (Z.ltb_spec maxChan numWorkers) as [Hbig|Hok].
  { apply path_panic. auto. }
  unfold call. cbn [world newCopier].
  destruct (IntegratedSize storage w) as [[targetSize|e] w1] eqn:Hsz.
  - destruct (Z.ltb_spec sourceSize targetSize) as [Hlt|Hle].
    + eapply path_ahead; [lia | exact Hsz | exact Hlt].
    + cbv zeta.
      change (emit EvIntegratedSize
                (set_world w1 (mkCopier w [] false [] [] NotCalled None 0 [])))
        with (early w1).
      set (m2 := run numWorkers targetSize sourceSize sched _).
      assert (Hp : path sched numWorkers sourceSize sourceRoot w
                (if eg_done m2 then
                   match err m2 with
                   | Some e => Returns (Some (ErrMigrationFailed e))
                   | None =>
                       if bytes_Equal (root m2) sourceRoot then Returns None
                       else Returns (Some (ErrRootMismatch (root m2) sourceRoot))
                   end
                 else Waits) m2).
      { eapply path_group; [lia | exact Hsz | exact Hle | reflexivity]. }
      destruct (eg_done m2); [|exact Hp].
      destruct (err m2); [exact Hp|].
      destruct (bytes_Equal (root m2) sourceRoot); exact Hp.
  - eapply path_size; [lia | exact Hsz].
Qed.

Lemma started_invariants nW tS sS sched w1 :
  let m := run nW tS sS sched (start nW tS sS (early w1)) in
  Recorded m /\ CalledOnce m /\ length (workers m) = Z.to_nat nW.
Proof.
  cbv zeta. split; [|split].
  - apply run_invariant; [intros; apply Recorded_step; assumption|].
    unfold Recorded. cbn. split; [|discriminate].
    intros i e H. apply lookup_replicate in H as [H _]. discriminate H.
  - apply run_invariant; [intros; apply CalledOnce_step; assumption|].
    reflexivity.
  - apply (run_invariant (fun m => length (workers m) = Z.to_nat nW));
      [intros g m H; rewrite workers_length_step; exact H|].
    cbn. apply length_replicate.
Qed.

Lemma eg_done_spec m :
  eg_done m = true <->
  Forall (fun wk => exists r, wk = Done r) (workers m)
  /\ exists a, await m = Answered a.
Proof.
  unfold eg_done. rewrite andb_true_iff, forallb_forall, Forall_forall.
  split.
  - intros [Hw Ha]. split.
    + intros wk Hin. apply list_elem_of_In in Hin. specialize (Hw wk Hin).
      destruct wk; try discriminate Hw. eauto.
    + destruct (await m); try discriminate Ha. eauto.
  - intros [Hw (a & Ha)]. split.
    + intros wk Hin. apply list_elem_of_In in Hin.
      destruct (Hw wk Hin) as [r ->]. reflexivity.
    + rewrite Ha. reflexivity.
Qed.

Lemma all_nil_spec m :
  Recorded m -> Forall (fun wk => exists r, wk = Done r) (workers m) ->
  (err m = None -> Forall (fun wk => wk = Done None) (workers m)).
Proof.
  intros HR Hd He. unfold Recorded in HR. rewrite He in HR.
  destruct HR as [HR _]. rewrite Forall_forall in *. intros wk Hin.
  destruct (Hd wk Hin) as [[e|] ->]; [|reflexivity].
  apply list_elem_of_lookup in Hin as [i Hi]. exfalso. exact (HR i e Hi).
Qed.

(** What [Migrate] gives once the goroutines have run: nil exactly when
    every worker returned nil and the wait returned the source root. *)
Lemma group_outcome m sourceRoot :
  Recorded m ->
  let out := if eg_done m then
               match err m with
               | Some e => Returns (Some (ErrMigrationFailed e))
               | None =>
                   if bytes_Equal (root m) sourceRoot then Returns None
                   else Returns (Some (ErrRootMismatch (root m) sourceRoot))
               end
             else Waits in
  (out = Returns None <->
   Forall (fun wk => wk = Done None) (workers m)
   /\ await m = Answered (inl sourceRoot))
  /\ (forall root,
        Forall (fun wk => wk = Done None) (workers m) ->
        await m = Answered (inl root) -> root <> sourceRoot ->
        out = Returns (Some (ErrRootMismatch root sourceRoot))).
Proof.
  intros HR. cbv zeta.
  assert (Hdone : Forall (fun wk => wk = Done None) (workers m) ->
            forall r, await m = Answered (inl r) ->
            eg_done m = true /\ err m = None /\ root m = r).
  { intros Hw r Ha. split; [|split].
    - apply eg_done_spec. split; [|eauto].
      eapply Forall_impl; [exact Hw|]. intros wk ->. eauto.
    - destruct (err m) as [e|] eqn:He; [|reflexivity]. exfalso.
      unfold Recorded in HR. rewrite He in HR.
      destruct HR as [(i & Hi)|(e0 & Ha' & _)]; [|congruence].
      rewrite Forall_forall in Hw.
      assert (Hin : Done (Some e) ∈ workers m)
        by (eapply list_elem_of_lookup_2; exact Hi).
      specialize (Hw _ Hin). discriminate Hw.
    - unfold root. rewrite Ha. reflexivity. }
  split; [split|].
  - destruct (eg_done m) eqn:Hd; [|discriminate].
    apply eg_done_spec in Hd as [Hw (a & Ha)].
    destruct (err m) as [e|] eqn:He; [discriminate|].
    destruct (bytes_Equal (root m) sourceRoot) eqn:Heq; [|discriminate].
    intros _. apply bytes_Equal_true in Heq.
    split; [exact (all_nil_spec _ HR Hw He)|].
    unfold Recorded in HR. rewrite He in HR. destruct HR as [_ HR].
    unfold root in Heq. rewrite Ha in Heq |- *.
    destruct a as [r|e]; [congruence|]. exfalso. exact (HR e Ha).
  - intros [Hw Ha]. destruct (Hdone Hw _ Ha) as (-> & -> & ->).
    assert (E : bytes_Equal sourceRoot sourceRoot = true)
      by (apply bytes_Equal_true; reflexivity).
    rewrite E. reflexivity.
  - intros r Hw Ha Hne. destruct (Hdone Hw _ Ha) as (-> & -> & ->).
    destruct (bytes_Equal r sourceRoot) eqn:Heq; [|reflexivity].
    apply bytes_Equal_true in Heq. contradiction.
Qed.

(** *** The claims about the copier *)

(** C4: [Migrate] returns nil exactly when every copy worker has returned
    nil, the wait for the integration has returned a root without error,
    and that root equals [sourceRoot], in whatever order the goroutines have
    taken their steps; when the workers and the wait have returned without
    error and the root differs, [Migrate] returns the mismatch error.  Once
    the wait has returned, the workers are the [numWorkers] workers. *)
Theorem Migrate_nil_iff sched numWorkers sourceSize sourceRoot w out m :
  Migrate sched numWorkers sourceSize sourceRoot w = (out, m) ->
  (out = Returns None <->
   Forall (fun wk => wk = Done None) (workers m)
   /\ await m = Answered (inl sourceRoot))
  /\ (forall root,
        Forall (fun wk => wk = Done None) (workers m) ->
        await m = Answered (inl root) -> root <> sourceRoot ->
        out = Returns (Some (ErrRootMismatch root sourceRoot)))
  /\ (forall a, await m = Answered a ->
        0 <= numWorkers /\ length (workers m) = Z.to_nat numWorkers).
Proof.
  intros H.
  pose proof (Migrate_path sched numWorkers sourceSize sourceRoot w) as Hp.
  rewrite H in Hp. cbn [fst snd] in Hp.
  inversion Hp as [Hbad Ho Hm|e w1 Hok Hsz Ho Hm|tS w1 Hok Hsz Hlt Ho Hm
                  |tS w1 m2 Hok Hsz Hle Hm2 Ho Hm]; subst.
  1-3: (split; [split; [discriminate | intros [_ Ha]; discriminate Ha]|];
        split; [intros r _ Ha; discriminate Ha | intros a Ha; discriminate Ha]).
  destruct (started_invariants numWorkers tS sourceSize sched w1)
    as (HR & _ & Hlen).
  destruct (group_outcome _ sourceRoot HR) as [Hiff Hmis].
  split; [exact Hiff|]. split; [exact Hmis|].
  intros a _. split; [lia | exact Hlen].
Qed.

(** C7, amended: when the channel can be made ([numWorkers] is not negative
    and not beyond what [make] accepts) and the target is already larger
    than the source, [Migrate] returns the error right after reading the
    size: the only call made is [IntegratedSize]; nothing is sent to the
    channel, no goroutine is started, nothing is fetched or stored. *)
Theorem Migrate_target_ahead sched numWorkers sourceSize sourceRoot w
    targetSize w1 :
  0 <= numWorkers <= maxChan ->
  IntegratedSize storage w = (inl targetSize, w1) ->
  sourceSize < targetSize ->
  Migrate sched numWorkers sourceSize sourceRoot w
  = (Returns (Some (ErrTargetSize targetSize sourceSize)),
     mkCopier w1 [] false [] [] NotCalled None 0 [EvIntegratedSize]).
Proof.
  intros Hok Hsz Hlt. unfold MigrateSched.Migrate.
  destruct (Z.ltb_spec numWorkers 0); [lia|].
  destruct (Z.ltb_spec maxChan numWorkers); [lia|]. cbn [orb].
  unfold call. cbn [world newCopier]. rewrite Hsz.
  destruct (Z.ltb_spec sourceSize targetSize); [reflexivity | lia].
Qed.

(** *** Properties of the goroutines *)

(** X17: once the size check has passed, [Migrate] returns only when every
    worker and the call of [AwaitIntegration] have returned, in whatever
    order the goroutines take their steps; [AwaitIntegration] has then been
    called exactly once.  If a goroutine returned an error, [Migrate]
    returns "migration failed" with the error the group kept, which is the
    error of a worker that gave up or of the wait; if none did, every
    worker returned nil and what [Migrate] returns is decided by the
    root. *)
Theorem Migrate_waits_for_group sched numWorkers sourceSize sourceRoot w
    targetSize w1 r m :
  IntegratedSize storage w = (inl targetSize, w1) ->
  targetSize <= sourceSize ->
  Migrate sched numWorkers sourceSize sourceRoot w = (Returns r, m) ->
  length (workers m) = Z.to_nat numWorkers
  /\ Forall (fun wk => exists r0, wk = Done r0) (workers m)
  /\ (exists a, await m = Answered a)
  /\ count is_await (calls m) = 1%nat
  /\ match err m with
     | Some e =>
         r = Some (ErrMigrationFailed e)
         /\ ((exists i, workers m !! i = Some (Done (Some e)))
             \/ exists e0, await m = Answered (inr e0)
                           /\ e = ErrMigrationFailed e0)
     | None =>
         Forall (fun wk => wk = Done None) (workers m)
         /\ exists root,
              await m = Answered (inl root)
              /\ r = if bytes_Equal root sourceRoot then None
                     else Some (ErrRootMismatch root sourceRoot)
     end
  /\ ((Exists gave_up (workers m) \/ exists e0, await m = Answered (inr e0)) ->
      exists e, r = Some (ErrMigrationFailed e)).
Proof.
  intros Hsz Hle H.
  pose proof (Migrate_path sched numWorkers sourceSize sourceRoot w) as Hp.
  rewrite H in Hp. cbn [fst snd] in Hp.
  inversion Hp as [Hbad Ho Hm|e w1' Hok Hsz' Ho Hm|tS w1' Hok Hsz' Hlt Ho Hm
                  |tS w1' m2 Hok Hsz' Hle' Hm2 Ho Hm]; subst;
    rewrite Hsz in Hsz'; try discriminate Hsz';
    injection Hsz' as <- <-; [lia|].
  destruct (started_invariants numWorkers targetSize sourceSize sched w1)
    as (HR & HC & Hlen).
  set (m := run numWorkers targetSize sourceSize sched _) in *.
  destruct (eg_done m) eqn:Hd; [|discriminate Ho].
  apply eg_done_spec in Hd as [Hw (a & Ha)].
  split; [exact Hlen|]. split; [exact Hw|]. split; [eauto|].
  split; [unfold CalledOnce in HC; rewrite Ha in HC; exact HC|].
  assert (Hcase : match err m with
     | Some e =>
         r = Some (ErrMigrationFailed e)
         /\ ((exists i, workers m !! i = Some (Done (Some e)))
             \/ exists e0, await m = Answered (inr e0)
                           /\ e = ErrMigrationFailed e0)
     | None =>
         Forall (fun wk => wk = Done None) (workers m)
         /\ exists root,
              await m = Answered (inl root)
              /\ r = if bytes_Equal root sourceRoot then None
                     else Some (ErrRootMismatch root sourceRoot)
     end).
  { pose proof HR as HR'. unfold Recorded in HR'.
    destruct (err m) as [e|] eqn:He.
    - injection Ho as <-. split; [reflexivity | exact HR'].
    - split; [exact (all_nil_spec _ HR Hw He)|].
      destruct HR' as [_ HR2].
      destruct a as [rt|e]; [|exfalso; exact (HR2 e Ha)].
      exists rt. split; [exact Ha|].
      unfold root in Ho. rewrite Ha in Ho.
      destruct (bytes_Equal rt sourceRoot); injection Ho as <-; reflexivity. }
  split; [exact Hcase|].
  intros Hfail. destruct (err m) as [e|] eqn:He.
  - destruct Hcase as [-> _]. eauto.
  - exfalso. destruct Hcase as [Hnil (rt & Ha' & _)].
    destruct Hfail as [Hex|(e0 & Ha'')]; [|congruence].
    apply Exists_exists in Hex as (wk & Hin & (e & ->)).
    rewrite Forall_forall in Hnil. specialize (Hnil _ Hin). discriminate Hnil.
Qed.

(** *** The attempts of a worker *)

Lemma failed_run_attempts b n log e m :
  (n < 10)%nat -> length log = n -> Forall (attempt_error b) log ->
  attempt_error b e ->
  in_attempts (fst (failed_run b n log e m)).
Proof.
  intros Hn Hlen Hlog He. unfold failed_run.
  assert (Hlog' : Forall (attempt_error b) (log ++ [e]))
    by (apply Forall_app; split; [exact Hlog | repeat constructor; exact He]).
  assert (Hlen' : length (log ++ [e]) = S n)
    by (rewrite length_app; cbn; lia).
  destruct (Nat.eqb_spec (S n) 10) as [E|E]; cbn [fst in_attempts].
  - exists b, (log ++ [e]). split; [reflexivity|]. split; [lia | exact Hlog'].
  - split; [lia|]. split; [exact Hlen' | exact Hlog'].
Qed.

Lemma worker_step_attempts wk m :
  in_attempts wk -> in_attempts (fst (worker_step wk m)).
Proof.
  destruct wk as [|b n log|b n log d|r]; cbn [MigrateSched.worker_step];
    intros H.
  - destruct (todo m) as [|b rest]; [destruct (closed m)|]; cbn;
      repeat split; auto; lia.
  - destruct H as (Hn & Hlen & Hlog). unfold call.
    destruct (getEntries _ _ (world m)) as [[d|e] w1].
    + cbn. auto.
    + apply failed_run_attempts; try assumption. exists e. auto.
  - destruct H as (Hn & Hlen & Hlog). unfold call.
    destruct (SetEntryBundle storage _ _ d (world m)) as [[e|] w1].
    + apply failed_run_attempts; try assumption. exists e. auto.
    + exact I.
  - exact H.
Qed.

Lemma attempts_step nW tS sS g m :
  Forall in_attempts (workers m) ->
  Forall in_attempts (workers (step nW tS sS g m)).
Proof.
  intros H.
  destruct (step_group nW tS sS g m)
    as [(Hw & _)|[(i & wk & wk' & _ & Hwk & _ & Hw & _ & _ & _ & ->)
                 |(_ & Hw & _)]];
    rewrite Hw; [exact H | | exact H].
  apply Forall_insert; [exact H|]. apply worker_step_attempts.
  rewrite Forall_forall in H. apply H.
  eapply list_elem_of_lookup_2. exact Hwk.
Qed.

(** X26: in whatever order the goroutines take their steps, a worker never
    starts an eleventh run for a bundle: inside [retry.Do] it is in one of
    ten runs and has logged one error, a fetch or a store error for its
    bundle, for each run that failed.  A worker that gave up returns ten
    such errors for one bundle, and the error [Migrate] reports for the
    group is such an error of a worker, or the error of the wait for the
    integration. *)
Theorem workers_within_attempts sched numWorkers sourceSize sourceRoot w out m :
  Migrate sched numWorkers sourceSize sourceRoot w = (out, m) ->
  Forall in_attempts (workers m)
  /\ (forall e, err m = Some e ->
        in_attempts (Done (Some e))
        \/ exists e0, await m = Answered (inr e0) /\ e = ErrMigrationFailed e0)
  /\ (forall e, out = Returns (Some (ErrMigrationFailed e)) -> err m = Some e).
Proof.
  intros H.
  pose proof (Migrate_path sched numWorkers sourceSize sourceRoot w) as Hp.
  rewrite H in Hp. cbn [fst snd] in Hp.
  inversion Hp as [Hbad Ho Hm|e w1 Hok Hsz Ho Hm|tS w1 Hok Hsz Hlt Ho Hm
                  |tS w1 m2 Hok Hsz Hle Hm2 Ho Hm]; subst.
  1-3: (split; [constructor|]; split; [intros e0 He0; discriminate He0|];
        intros e0 He0; discriminate He0).
  set (m := run numWorkers tS sourceSize sched _) in *.
  assert (Hatt : Forall in_attempts (workers m)).
  { unfold m. apply (run_invariant (fun m => Forall in_attempts (workers m))).
    - intros g m0. apply attempts_step.
    - cbn. apply Forall_forall. intros wk Hin.
      apply elem_of_replicate in Hin as [-> _]. exact I. }
  destruct (started_invariants numWorkers tS sourceSize sched w1)
    as (HR & _ & _).
  fold m in HR. split; [exact Hatt|]. split.
  - intros e He. unfold Recorded in HR. rewrite He in HR.
    destruct HR as [(i & Hi)|HR]; [left|right; exact HR].
    rewrite Forall_forall in Hatt. apply Hatt.
    eapply list_elem_of_lookup_2. exact Hi.
  - intros e. destruct (eg_done m); [|discriminate].
    destruct (err m) as [e0|]; [intros [= ->]; reflexivity|].
    destruct (bytes_Equal (root m) sourceRoot); discriminate.
Qed.

(** *** Where the bundles are *)

Lemma perm_shuffle {A} (s h r t p : list A) :
  s ++ (h ++ r) ++ t ++ p ≡ₚ (s ++ h ++ t) ++ r ++ p.
Proof.
  rewrite <- !app_assoc. do 2 apply Permutation_app_head.
  rewrite !app_assoc. apply Permutation_app_tail. apply Permutation_app_comm.
Qed.

Lemma holding_insert (ws : list worker) i wk wk' :
  ws !! i = Some wk ->
  exists rest,
    omap holding ws ≡ₚ option_list (holding wk) ++ rest
    /\ omap holding (<[i := wk']> ws) ≡ₚ option_list (holding wk') ++ rest.
Proof.
  intros Hi.
  assert (Hlt : (i < length ws)%nat) by (eapply lookup_lt_Some; eauto).
  exists (omap holding (take i ws) ++ omap holding (drop (S i) ws)).
  assert (Hcons : forall x (l : list worker),
            omap holding (x :: l) = option_list (holding x) ++ omap holding l).
  { intros x l. cbn. destruct (holding x); reflexivity. }
  split.
  - rewrite <- (take_drop_middle ws i wk Hi) at 1.
    rewrite omap_app, Hcons, !app_assoc. apply Permutation_app_tail.
    apply Permutation_app_comm.
  - rewrite insert_take_drop by exact Hlt.
    rewrite omap_app, Hcons, !app_assoc. apply Permutation_app_tail.
    apply Permutation_app_comm.
Qed.

Lemma stored_snoc (evs : list event) ev :
  stored (evs ++ [ev])
  = stored evs ++ match ev with
                  | EvSetEntryBundle i p _ true => [Bundle i p]
                  | _ => []
                  end.
Proof.
  unfold stored. rewrite omap_app. f_equal.
  destruct ev as [|b|i p ok|i p d ok|n|sz]; try reflexivity.
  destruct ok; reflexivity.
Qed.

Lemma counter_next n : u64 (u64 (Z.of_nat n) + 1) = u64 (Z.of_nat (S n)).
Proof.
  unfold u64. rewrite Zplus_mod_idemp_l. f_equal. lia.
Qed.

(** What a step of a worker that has not returned does to the bundles. *)
Lemma worker_move wk m wk' m1 :
  is_done wk = false ->
  worker_step wk m = (wk', m1) ->
  bundlesMigrated m = u64 (Z.of_nat (length (stored (calls m)))) ->
  pending m1 = pending m /\ closed m1 = closed m
  /\ bundlesMigrated m1 = u64 (Z.of_nat (length (stored (calls m1))))
  /\ ((exists e, wk' = Done (Some e))
      \/ stored (calls m1) ++ option_list (holding wk') ++ todo m1
         ≡ₚ stored (calls m) ++ option_list (holding wk) ++ todo m)
  /\ (wk' = Done None -> todo m1 = [] /\ closed m = true)
  /\ (todo m = [] -> todo m1 = [])
  /\ (todo m1 = [] \/ todo m1 = todo m
      \/ exists b, todo m = b :: todo m1 /\ holding wk' = Some b).
Proof.
  intros Hd Hstep Hcnt.
  destruct wk as [|b n log|b n log d|r]; try discriminate Hd;
    cbn [MigrateSched.worker_step] in Hstep.
  - destruct (todo m) as [|b rest] eqn:Ht; [destruct (closed m) eqn:Hcl|];
      injection Hstep as <- <-; st; rewrite ?Ht;
      (split; [reflexivity|]); (split; [first [reflexivity | exact Hcl]|]);
      (split; [exact Hcnt|]).
    + split; [right; reflexivity|]. split; [auto|]. split; [auto|]. auto.
    + split; [right; reflexivity|].
      split; [discriminate|]. split; [auto|]. auto.
    + split.
      { right. cbn [holding option_list app].
        apply Permutation_app_head. apply Permutation_refl. }
      split; [discriminate|]. split; [discriminate|].
      right. right. exists b. auto.
  - unfold call in Hstep.
    destruct (getEntries (Index b) (Partial b) (world m)) as [[d|e] w1].
    + injection Hstep as <- <-. st. rewrite stored_snoc, app_nil_r.
      split; [reflexivity|]. split; [reflexivity|]. split; [exact Hcnt|].
      split; [right; reflexivity|]. split; [discriminate|]. auto.
    + unfold failed_run in Hstep.
      destruct (S n =? 10)%nat; injection Hstep as <- <-; st;
        rewrite ?stored_snoc, ?app_nil_r;
        (split; [reflexivity|]); (split; [reflexivity|]);
        (split; [exact Hcnt|]).
      * split; [left; eauto|]. split; [discriminate|]. auto.
      * split; [right; reflexivity|]. split; [discriminate|]. auto.
  - unfold call in Hstep.
    destruct (SetEntryBundle storage (Index b) (Partial b) d (world m))
      as [[e|] w1].
    + unfold failed_run in Hstep.
      destruct (S n =? 10)%nat; injection Hstep as <- <-; st;
        rewrite ?stored_snoc, ?app_nil_r;
        (split; [reflexivity|]); (split; [reflexivity|]);
        (split; [exact Hcnt|]).
      * split; [left; eauto|]. split; [discriminate|]. auto.
      * split; [right; reflexivity|]. split; [discriminate|]. auto.
    + injection Hstep as <- <-. st. rewrite stored_snoc.
      split; [reflexivity|]. split; [reflexivity|]. split.
      { rewrite Hcnt, length_app. cbn [length is_nil].
        rewrite Nat.add_1_r. apply counter_next. }
      split.
      { right. cbn [holding option_list is_nil app].
        rewrite <- app_assoc. destruct b. reflexivity. }
      split; [discriminate|]. auto.
Qed.

Lemma Copying_step range nW tS sS g m :
  Copying range m -> Copying range (step nW tS sS g m).
Proof.
  intros (Hperm & Hcnt & Hcl & Hdn).
  destruct g as [| |i|].
  - cbn [MigrateSched.step]. unfold populate_step.
    destruct (pending m) as [|b rest] eqn:Hp.
    + destruct (closed m) eqn:Hc; [unfold Copying; rewrite Hp, Hc; auto|].
      unfold Copying. st. rewrite Hp.
      split; [exact Hperm|]. split; [exact Hcnt|]. split; [auto|].
      intros i Hi. destruct (Hdn i Hi) as [Ht _]. auto.
    + destruct (Z.of_nat (length (todo m)) <? nW);
        [|unfold Copying; rewrite Hp; auto].
      assert (Hopen : closed m = false).
      { destruct (closed m); [specialize (Hcl eq_refl); discriminate Hcl|].
        reflexivity. }
      unfold Copying. st. rewrite stored_snoc, app_nil_r, Hopen.
      split.
      { intros He. rewrite <- (Hperm He).
        do 2 apply Permutation_app_head. rewrite <- app_assoc. reflexivity. }
      split; [exact Hcnt|]. split; [discriminate|].
      intros i Hi. destruct (Hdn i Hi) as [_ Hc]. congruence.
  - cbn [MigrateSched.step]. unfold stats_step.
    destruct (_ =? 0); [unfold Copying; auto|]. unfold call.
    destruct (IntegratedSize storage (world m)) as [sz w1].
    unfold Copying. st. rewrite stored_snoc, app_nil_r. auto.
  - destruct (workers m !! i) as [wk|] eqn:Hwk.
    2:{ cbn [MigrateSched.step]. rewrite Hwk. unfold Copying. auto. }
    destruct (is_done wk) eqn:Hd.
    { cbn [MigrateSched.step]. rewrite Hwk.
      destruct wk; try discriminate Hd. unfold Copying. auto. }
    rewrite (step_worker _ _ _ _ _ _ Hwk Hd).
    destruct (worker_step wk m) as [wk' m1] eqn:Hstep.
    destruct (worker_step_frame _ _ _ _ Hstep) as (H1 & _ & H3 & _).
    destruct (worker_move _ _ _ _ Hd Hstep Hcnt)
      as (Hp1 & Hc1 & Hcnt1 & Hmove & Hnil & Hempty & _).
    assert (Hlt : (i < length (workers m))%nat)
      by (eapply lookup_lt_Some; eauto).
    set (m2 := set_workers (<[i := wk']> (workers m1)) m1).
    assert (Hrest : bundlesMigrated m2
                    = u64 (Z.of_nat (length (stored (calls m2))))
              /\ (closed m2 = true -> pending m2 = [])
              /\ (forall j, workers m2 !! j = Some (Done None) ->
                    todo m2 = [] /\ closed m2 = true)).
    { unfold m2. st. rewrite H1, Hp1, Hc1.
      split; [exact Hcnt1|]. split; [exact Hcl|].
      intros j. destruct (decide (i = j)) as [<-|Hne].
      - rewrite list_lookup_insert_eq by exact Hlt. intros [= ->].
        apply Hnil. reflexivity.
      - rewrite list_lookup_insert_ne by exact Hne. intros Hj.
        destruct (Hdn j Hj) as [Ht Hc]. auto. }
    assert (Hperm2 : (forall e, wk' <> Done (Some e)) -> err m2 = None ->
              stored (calls m2) ++ omap holding (workers m2) ++ todo m2
                ++ pending m2 ≡ₚ range).
    { intros Hne He. unfold m2 in He |- *. st. st in He.
      rewrite H3 in He. rewrite H1, Hp1.
      destruct Hmove as [(e & ->)|Hmove]; [exfalso; exact (Hne e eq_refl)|].
      destruct (holding_insert (workers m) i wk wk' Hwk) as (rest & Hh0 & Hh1).
      rewrite <- (Hperm He), Hh0, Hh1, !perm_shuffle.
      apply Permutation_app_tail. exact Hmove. }
    destruct wk' as [| | |[e|]];
      try (split; [apply Hperm2; discriminate | exact Hrest]).
    destruct (eg_return_frame e m2) as (F1 & _ & F3 & _ & F5 & F6 & F7 & F8).
    unfold Copying. rewrite F1, F3, F5, F6, F7, F8, eg_return_err.
    split; [|exact Hrest].
    intros He. destruct (err m2); discriminate He.
  - cbn [MigrateSched.step]. unfold await_step.
    destruct (await m) as [| |a] eqn:Haw; [| |unfold Copying; auto];
      unfold call; st;
      destruct (AwaitIntegration storage sS (world m)) as [[[r|e]|] w1];
      unfold Copying; st; rewrite ?stored_snoc, ?app_nil_r; auto.
    + destruct (eg_return_frame (ErrMigrationFailed e)
                  (set_await (Answered (inr e))
                     (set_world w1 (emit (EvAwaitIntegration sS) m))))
        as (F1 & _ & F3 & _ & F5 & F6 & F7 & F8).
      rewrite F1, F3, F5, F6, F7, F8, eg_return_err. st.
      rewrite stored_snoc, app_nil_r.
      split; [intros He; destruct (err m); discriminate He | auto].
    + destruct (eg_return_frame (ErrMigrationFailed e)
                  (set_await (Answered (inr e)) (set_world w1 m)))
        as (F1 & _ & F3 & _ & F5 & F6 & F7 & F8).
      rewrite F1, F3, F5, F6, F7, F8, eg_return_err. st.
      split; [intros He; destruct (err m); discriminate He | auto].
Qed.

(** X28: with at least one worker, in whatever order the goroutines take
    their steps, [Migrate] returns nil only if every bundle of the range has
    been stored with success, each as often as the range names it; the
    channel is closed and empty, nothing is left to send, and the counter
    has counted the bundles stored. *)
Theorem Migrate_nil_all_copied sched numWorkers sourceSize sourceRoot w
    targetSize w1 m :
  1 <= numWorkers ->
  IntegratedSize storage w = (inl targetSize, w1) ->
  Migrate sched numWorkers sourceSize sourceRoot w = (Returns None, m) ->
  stored (calls m)
  ≡ₚ layout_Range targetSize (u64 (sourceSize - targetSize)) sourceSize
  /\ todo m = [] /\ pending m = [] /\ closed m = true
  /\ bundlesMigrated m = u64 (Z.of_nat (length (stored (calls m)))).
Proof.
  intros Hn Hsz H.
  destruct (Migrate_nil_iff _ _ _ _ _ _ _ H) as ([Hiff _] & _ & Hlen).
  destruct (Hiff eq_refl) as [Hnil Ha].
  destruct (Hlen _ Ha) as [_ Hlen'].
  pose proof (Migrate_path sched numWorkers sourceSize sourceRoot w) as Hp.
  rewrite H in Hp. cbn [fst snd] in Hp.
  inversion Hp as [Hbad Ho Hm|e w1' Hok Hsz' Ho Hm|tS w1' Hok Hsz' Hlt Ho Hm
                  |tS w1' m2 Hok Hsz' Hle Hm2 Ho Hm]; subst;
    try discriminate Ha.
  rewrite Hsz in Hsz'. injection Hsz' as <- <-.
  set (m := run numWorkers targetSize sourceSize sched _) in *.
  set (range := layout_Range targetSize (u64 (sourceSize - targetSize))
                  sourceSize).
  assert (HC : Copying range m).
  { unfold m. apply run_invariant; [intros; apply Copying_step; assumption|].
    assert (Hrep : forall k, omap holding (replicate k Receiving) = [])
      by (induction k as [|k IHk]; [reflexivity | exact IHk]).
    unfold Copying. cbn. rewrite Hrep. cbn. rewrite ?app_nil_r. fold range.
    split; [reflexivity|].
    split; [reflexivity|]. split; [discriminate|].
    intros i Hi. apply lookup_replicate in Hi as [Hi _]. discriminate Hi. }
  destruct HC as (Hperm & Hcnt & Hcl & Hdn).
  assert (Herr : err m = None).
  { destruct (eg_done m); [|discriminate Ho].
    destruct (err m); [discriminate Ho | reflexivity]. }
  assert (H0 : workers m !! 0%nat = Some (Done None)).
  { destruct (workers m) as [|wk ws] eqn:Hws; [cbn in Hlen'; lia|].
    apply Forall_cons in Hnil as [-> _]. reflexivity. }
  destruct (Hdn _ H0) as [Ht Hc]. pose proof (Hcl Hc) as Hpd.
  assert (Hhold : omap holding (workers m) = []).
  { clear -Hnil. induction Hnil as [|wk ws -> _ IH]; [reflexivity | exact IH]. }
  specialize (Hperm Herr). rewrite Hhold, Ht, Hpd, !app_nil_r in Hperm.
  auto.
Qed.

(** *** A worker gives up while the wait goes on *)

(** A worker that is not about to store makes no store. *)
Lemma no_store_step nW tS sS g m :
  Forall (fun wk => is_storing wk = false) (workers m) ->
  count is_store (calls (step nW tS sS g m)) = count is_store (calls m).
Proof.
  intros Hst. destruct g as [| |i|].
  - cbn [MigrateSched.step]. unfold populate_step.
    destruct (pending m) as [|b rest]; [destruct (closed m)|
      destruct (Z.of_nat (length (todo m)) <? nW)]; st; try reflexivity.
    rewrite count_app. cbn. lia.
  - cbn [MigrateSched.step]. unfold stats_step.
    destruct (_ =? 0); [reflexivity|]. unfold call.
    destruct (IntegratedSize storage (world m)) as [sz w1]. st.
    rewrite count_app. cbn. lia.
  - destruct (workers m !! i) as [wk|] eqn:Hwk.
    2:{ cbn [MigrateSched.step]. rewrite Hwk. reflexivity. }
    destruct (is_done wk) eqn:Hd.
    { cbn [MigrateSched.step]. rewrite Hwk.
      destruct wk; try discriminate Hd. reflexivity. }
    rewrite (step_worker _ _ _ _ _ _ Hwk Hd).
    assert (Hns : is_storing wk = false).
    { rewrite Forall_forall in Hst. apply Hst.
      eapply list_elem_of_lookup_2. exact Hwk. }
    assert (Hstep : exists wk' m1,
              worker_step wk m = (wk', m1)
              /\ count is_store (calls m1) = count is_store (calls m)).
    { destruct wk as [|b n log|b n log d|r];
        try discriminate Hd; try discriminate Hns;
        cbn [MigrateSched.worker_step].
      - destruct (todo m) as [|b rest]; [destruct (closed m)|];
          eexists; eexists; (split; [reflexivity|]); reflexivity.
      - unfold call.
        destruct (getEntries (Index b) (Partial b) (world m)) as [[d|e] w1].
        + eexists; eexists; (split; [reflexivity|]). st.
          rewrite count_app. cbn. lia.
        + unfold failed_run. destruct (S n =? 10)%nat;
            eexists; eexists; (split; [reflexivity|]); st;
            rewrite ?count_app; cbn; lia. }
    destruct Hstep as (wk' & m1 & -> & Hc).
    destruct wk' as [| | |[e|]]; st; try exact Hc.
    destruct (eg_return_frame e
                (set_workers (<[i := Done (Some e)]> (workers m1)) m1))
      as (_ & _ & F3 & _).
    rewrite F3. st. exact Hc.
  - cbn [MigrateSched.step]. unfold await_step.
    destruct (await m) as [| |a] eqn:Haw; [| |reflexivity]; unfold call; st;
      destruct (AwaitIntegration storage sS _) as [[[r|e]|] w1]; st;
      rewrite ?count_app; cbn; try lia.
    + destruct (eg_return_frame (ErrMigrationFailed e)
                  (set_await (Answered (inr e))
                     (set_world w1 (emit (EvAwaitIntegration sS) m))))
        as (_ & _ & F3 & _).
      rewrite F3. st. rewrite count_app. cbn. lia.
    + destruct (eg_return_frame (ErrMigrationFailed e)
                  (set_await (Answered (inr e)) (set_world w1 m)))
        as (_ & _ & F3 & _).
      rewrite F3. st. reflexivity.
Qed.

(** While the source does not answer and the wait for the integration goes
    on, nothing is stored and the wait does not return. *)
Lemma stuck_step nW tS sS g m w :
  snd (IntegratedSize storage w) = w ->
  (forall i p, exists e, getEntries i p w = (inr e, w)) ->
  AwaitIntegration storage sS w = (None, w) ->
  world m = w -> is_answered (await m) = false ->
  Forall (fun wk => is_storing wk = false) (workers m) ->
  world (step nW tS sS g m) = w
  /\ is_answered (await (step nW tS sS g m)) = false
  /\ Forall (fun wk => is_storing wk = false) (workers (step nW tS sS g m)).
Proof.
  intros Hsize Hsrc Hwait Hw Ha Hst.
  destruct g as [| |i|].
  - cbn [MigrateSched.step]. unfold populate_step.
    destruct (pending m) as [|b rest]; [destruct (closed m)|
      destruct (Z.of_nat (length (todo m)) <? nW)]; st; auto.
  - cbn [MigrateSched.step]. unfold stats_step.
    destruct (_ =? 0); [auto|]. unfold call. rewrite Hw.
    destruct (IntegratedSize storage w) as [sz w1]. cbn [snd] in Hsize.
    subst w1. st. auto.
  - destruct (workers m !! i) as [wk|] eqn:Hwk.
    2:{ cbn [MigrateSched.step]. rewrite Hwk. auto. }
    destruct (is_done wk) eqn:Hd.
    { cbn [MigrateSched.step]. rewrite Hwk.
      destruct wk; try discriminate Hd. auto. }
    rewrite (step_worker _ _ _ _ _ _ Hwk Hd).
    assert (Hns : is_storing wk = false).
    { rewrite Forall_forall in Hst. apply Hst.
      eapply list_elem_of_lookup_2. exact Hwk. }
    assert (Hstep : exists wk' m1,
              worker_step wk m = (wk', m1) /\ is_storing wk' = false
              /\ world m1 = w /\ workers m1 = workers m
              /\ await m1 = await m).
    { destruct wk as [|b n log|b n log d|r];
        try discriminate Hd; try discriminate Hns;
        cbn [MigrateSched.worker_step].
      - destruct (todo m) as [|b rest]; [destruct (closed m)|];
          eexists; eexists; (split; [reflexivity|]); st; auto.
      - unfold call. rewrite Hw.
        destruct (Hsrc (Index b) (Partial b)) as [e ->].
        unfold failed_run. destruct (S n =? 10)%nat;
          eexists; eexists; (split; [reflexivity|]); st; auto. }
    destruct Hstep as (wk' & m1 & -> & Hns' & Hw1 & Hws1 & Ha1).
    assert (Hgoal :
      world (set_workers (<[i := wk']> (workers m1)) m1) = w
      /\ is_answered (await (set_workers (<[i := wk']> (workers m1)) m1)) = false
      /\ Forall (fun wk => is_storing wk = false)
           (workers (set_workers (<[i := wk']> (workers m1)) m1))).
    { st. rewrite Hws1, Ha1. split; [exact Hw1|]. split; [exact Ha|].
      apply Forall_insert; assumption. }
    destruct wk' as [| | |[e|]]; try exact Hgoal.
    destruct (eg_return_frame e
                (set_workers (<[i := Done (Some e)]> (workers m1)) m1))
      as (F1 & F2 & _ & F4 & _).
    rewrite F1, F2, F4. exact Hgoal.
  - cbn [MigrateSched.step]. unfold await_step.
    destruct (await m) as [| |a] eqn:Haw; [| |discriminate Ha];
      unfold call; st; rewrite Hw, Hwait; st; auto.
Qed.

(** C8: a worker that has used up its ten attempts returns the error of
    [retry.Do] to the group, but [Migrate] does not surface it while the
    call of [AwaitIntegration] goes on.  If, in the world the size check
    leaves, the source does not answer and [AwaitIntegration] does not
    return, then nothing is ever stored, the call never returns, and
    [Migrate] stays in [eg.Wait()] whatever the goroutines do and however
    long: it returns neither the error nor anything else. *)
Theorem Migrate_stuck_after_give_up sched numWorkers sourceSize sourceRoot w
    targetSize :
  0 <= numWorkers <= maxChan ->
  IntegratedSize storage w = (inl targetSize, w) ->
  targetSize <= sourceSize ->
  (forall i p, exists e, getEntries i p w = (inr e, w)) ->
  AwaitIntegration storage sourceSize w = (None, w) ->
  exists m,
    Migrate sched numWorkers sourceSize sourceRoot w = (Waits, m)
    /\ world m = w
    /\ count is_store (calls m) = 0%nat
    /\ is_answered (await m) = false.
Proof.
  intros Hok Hsz Hle Hsrc Hwait.
  pose proof (Migrate_path sched numWorkers sourceSize sourceRoot w) as Hp.
  destruct (Migrate sched numWorkers sourceSize sourceRoot w) as [out m0]
    eqn:HM.
  cbn [fst snd] in Hp.
  inversion Hp as [Hbad Ho Hm|e w1' _ Hsz' Ho Hm|tS w1' _ Hsz' Hlt Ho Hm
                  |tS w1' m2 _ Hsz' Hle' Hm2 Ho Hm];
    try lia; rewrite Hsz in Hsz'; try discriminate Hsz';
    injection Hsz' as <- <-; [lia|].
  subst m0. set (m := run numWorkers targetSize sourceSize sched _) in *.
  assert (HJ : (world m = w /\ is_answered (await m) = false
                /\ Forall (fun wk => is_storing wk = false) (workers m))
               /\ count is_store (calls m) = 0%nat).
  { unfold m.
    apply (run_invariant
             (fun m => (world m = w /\ is_answered (await m) = false
                        /\ Forall (fun wk => is_storing wk = false) (workers m))
                       /\ count is_store (calls m) = 0%nat)).
    - intros g m0 [(Hw0 & Ha0 & Hs0) Hc0].
      split; [apply stuck_step; try assumption; rewrite Hsz; reflexivity|].
      rewrite <- Hc0. apply no_store_step. exact Hs0.
    - split; [|reflexivity]. cbn. split; [reflexivity|]. split; [reflexivity|].
      apply Forall_forall. intros wk Hin.
      apply elem_of_replicate in Hin as [-> _]. reflexivity. }
  destruct HJ as [(Hw & Ha & _) Hc].
  assert (Hd : eg_done m = false).
  { unfold eg_done. rewrite Ha. apply andb_false_r. }
  subst m2. rewrite Hd in Ho. subst out.
  exists m. rewrite Hd. auto.
Qed.

End Facts.

(** *** At sample collaborators *)

(** C7, as stated, fails: called with a negative number of workers,
    [Migrate] panics in [make(chan bundle, numWorkers)], before it reads
    the size of the target, although the target is larger than the
    source. *)
Lemma Migrate_negative_workers_panics :
  IntegratedSize ahead_storage 0%nat = (inl 300, 0%nat)
  /\ 257 < 300
  /\ forall sched,
       Migrate sample_Range 256 sample_maxChan ahead_storage good_source
         sched (-1) 257 sample_root 0%nat
       = (Panics, newCopier 0%nat).
Proof. split; [reflexivity|]. split; [lia|]. intros sched. reflexivity. Qed.

Lemma Migrate_target_ahead_witness :
  Migrate sample_Range 256 sample_maxChan ahead_storage good_source
    sample_sched 2 257 sample_root 0%nat
  = (Returns (Some (ErrTargetSize 300 257)),
     mkCopier 0%nat [] false [] [] NotCalled None 0 [EvIntegratedSize]).
Proof.
  apply (Migrate_target_ahead sample_Range 256 sample_maxChan ahead_storage
           good_source sample_sched 2 257 sample_root 0%nat 300 0%nat);
    [unfold sample_maxChan; lia | reflexivity | lia].
Defined.

Lemma Migrate_nil_iff_witness :
  let m :=
    mkCopier 2%nat [] true [] [Done None; Done None]
      (Answered (inl sample_root)) None 2
      [EvIntegratedSize; EvAwaitIntegration 257;
       EvEnqueue (Bundle 0 0); EvEnqueue (Bundle 1 1);
       EvGetEntries 1 1 true; EvGetEntries 0 0 true;
       EvSetEntryBundle 1 1 [Byte.x01] true; EvIntegratedSize;
       EvSetEntryBundle 0 0 [Byte.x01] true] in
  Migrate sample_Range 256 sample_maxChan patient_storage good_source
    sample_sched 2 257 sample_root 0%nat = (Returns None, m)
  /\ Migrate sample_Range 256 sample_maxChan patient_storage good_source
       sample_sched 2 257 [Byte.x00] 0%nat
     = (Returns (Some (ErrRootMismatch sample_root [Byte.x00])), m).
Proof.
  intros m. split.
  - set (out := fst (Migrate sample_Range 256 sample_maxChan patient_storage
                       good_source sample_sched 2 257 sample_root 0%nat)).
    assert (H : Migrate sample_Range 256 sample_maxChan patient_storage
                  good_source sample_sched 2 257 sample_root 0%nat = (out, m))
      by (vm_compute; reflexivity).
    assert (E : out = Returns None).
    { apply (Migrate_nil_iff sample_Range 256 sample_maxChan patient_storage
               good_source sample_sched 2 257 sample_root 0%nat out m H).
      split; [repeat constructor | reflexivity]. }
    rewrite H, E. reflexivity.
  - set (out := fst (Migrate sample_Range 256 sample_maxChan patient_storage
                       good_source sample_sched 2 257 [Byte.x00] 0%nat)).
    assert (H : Migrate sample_Range 256 sample_maxChan patient_storage
                  good_source sample_sched 2 257 [Byte.x00] 0%nat = (out, m))
      by (vm_compute; reflexivity).
    assert (E : out = Returns (Some (ErrRootMismatch sample_root [Byte.x00]))).
    { destruct (Migrate_nil_iff sample_Range 256 sample_maxChan
                  patient_storage good_source sample_sched 2 257 [Byte.x00]
                  0%nat out m H) as (_ & Hmis & _).
      apply (Hmis sample_root);
        [repeat constructor | reflexivity | discriminate]. }
    rewrite H, E. reflexivity.
Defined.

Lemma Migrate_waits_for_group_witness :
  exists m,
    Migrate sample_Range 256 sample_maxChan patient_storage good_source
      sample_sched 2 257 sample_root 0%nat = (Returns None, m)
    /\ length (workers m) = 2%nat
    /\ (exists a, await m = Answered a)
    /\ count is_await (calls m) = 1%nat.
Proof.
  set (m := snd (Migrate sample_Range 256 sample_maxChan patient_storage
                   good_source sample_sched 2 257 sample_root 0%nat)).
  assert (H : Migrate sample_Range 256 sample_maxChan patient_storage
                good_source sample_sched 2 257 sample_root 0%nat
              = (Returns None, m)) by (vm_compute; reflexivity).
  destruct (Migrate_waits_for_group sample_Range 256 sample_maxChan
              patient_storage good_source sample_sched 2 257 sample_root
              0%nat 0 0%nat None m eq_refl ltac:(lia) H)
    as (Hlen & _ & Ha & Hc & _).
  exists m. split; [exact H|]. split; [exact Hlen|]. split; [exact Ha | exact Hc].
Defined.

Lemma Migrate_stuck_after_give_up_witness :
  let log := repeat (ErrFetch 0 0 (ErrExternal "unreachable")) 10 in
  exists m,
    Migrate sample_Range 256 sample_maxChan patient_storage dead_source
      give_up_sched 1 257 sample_root 0%nat = (Waits, m)
    /\ workers m = [Done (Some (ErrRetry log))]
    /\ err m = Some (ErrRetry log)
    /\ backoffs (calls m) = seq 1 9
    /\ count is_fetch (calls m) = 10%nat
    /\ count is_store (calls m) = 0%nat
    /\ await m = Calling.
Proof.
  intros log.
  destruct (Migrate_stuck_after_give_up sample_Range 256 sample_maxChan
              patient_storage dead_source give_up_sched 1 257 sample_root
              0%nat 0) as (m & H & _ & Hc & _);
    [unfold sample_maxChan; lia | reflexivity | lia
    | intros i p; eexists; reflexivity | reflexivity |].
  set (m0 := snd (Migrate sample_Range 256 sample_maxChan patient_storage
                    dead_source give_up_sched 1 257 sample_root 0%nat)).
  assert (H0 : Migrate sample_Range 256 sample_maxChan patient_storage
                 dead_source give_up_sched 1 257 sample_root 0%nat
               = (Waits, m0)) by (vm_compute; reflexivity).
  rewrite H0 in H. injection H as <-.
  exists m0. split; [exact H0|].
  split; [vm_compute; reflexivity|]. split; [vm_compute; reflexivity|].
  split; [vm_compute; reflexivity|]. split; [vm_compute; reflexivity|].
  split; [exact Hc | vm_compute; reflexivity].
Defined.

Lemma workers_within_attempts_witness :
  exists m e,
    Migrate sample_Range 256 sample_maxChan patient_storage dead_source
      give_up_sched 1 257 sample_root 0%nat = (Waits, m)
    /\ err m = Some e
    /\ in_attempts (Done (Some e)).
Proof.
  set (m := snd (Migrate sample_Range 256 sample_maxChan patient_storage
                   dead_source give_up_sched 1 257 sample_root 0%nat)).
  set (e := ErrRetry (repeat (ErrFetch 0 0 (ErrExternal "unreachable")) 10)).
  assert (H : Migrate sample_Range 256 sample_maxChan patient_storage
                dead_source give_up_sched 1 257 sample_root 0%nat
              = (Waits, m)) by (vm_compute; reflexivity).
  assert (He : err m = Some e) by (vm_compute; reflexivity).
  destruct (workers_within_attempts sample_Range 256 sample_maxChan
              patient_storage dead_source give_up_sched 1 257 sample_root
              0%nat Waits m H) as (_ & Herr & _).
  exists m, e. split; [exact H|]. split; [exact He|].
  destruct (Herr e He) as [Hin|(e0 & Ha & _)]; [exact Hin|].
  exfalso. assert (Ha' : await m = Calling) by (vm_compute; reflexivity).
  rewrite Ha' in Ha. discriminate Ha.
Defined.

Lemma Migrate_nil_all_copied_witness :
  exists m,
    Migrate sample_Range 256 sample_maxChan patient_storage good_source
      sample_sched 2 257 sample_root 0%nat = (Returns None, m)
    /\ stored (calls m) = [Bundle 1 1; Bundle 0 0]
    /\ stored (calls m) ≡ₚ [Bundle 0 0; Bundle 1 1]
    /\ todo m = [] /\ pending m = [] /\ closed m = true
    /\ bundlesMigrated m = 2.
Proof.
  set (m := snd (Migrate sample_Range 256 sample_maxChan patient_storage
                   good_source sample_sched 2 257 sample_root 0%nat)).
  assert (H : Migrate sample_Range 256 sample_maxChan patient_storage
                good_source sample_sched 2 257 sample_root 0%nat
              = (Returns None, m)) by (vm_compute; reflexivity).
  destruct (Migrate_nil_all_copied sample_Range 256 sample_maxChan
              patient_storage good_source sample_sched 2 257 sample_root
              0%nat 0 0%nat m ltac:(lia) eq_refl H)
    as (Hperm & Ht & Hp & Hc & Hbm).
  assert (Hs : stored (calls m) = [Bundle 1 1; Bundle 0 0])
    by (vm_compute; reflexivity).
  exists m. split; [exact H|]. split; [exact Hs|]. split; [exact Hperm|].
  split; [exact Ht|]. split; [exact Hp|]. split; [exact Hc|].
  rewrite Hbm, Hs. reflexivity.
Defined.

End MigrateSchedFacts.


(** ** Tile read API *)

Module TilesAPIFacts.
Import TilesAPI.

(** C6, as stated, fails: the request for a partial tile that the storage
    holds is answered with the immutable cache header. *)
Lemma partial_tile_immutable :
  let w := tileHandler sample_parse sample_ReadTile sample_Error
             "0" "000.p/5" newResponse in
  partialTile 5 /\ status w = Some 200 /\ body w = sample_tile
  /\ sentHeader w !! "Cache-Control" = Some immutable.
Proof. cbv zeta. split; [unfold partialTile; lia|]. vm_compute. auto. Qed.

(** C6, amended: every request whose tile is found is answered with status
    200, the tile, and the immutable cache header, whatever the width. *)
Theorem tileHandler_found parse ReadTile Error levelStr indexStr
    level index width tile :
  parse levelStr indexStr = inl (level, index, width) ->
  ReadTile level index width = inl (Some tile) ->
  let w := tileHandler parse ReadTile Error levelStr indexStr newResponse in
  status w = Some 200 /\ body w = tile
  /\ sentHeader w !! "Cache-Control" = Some immutable.
Proof.
  intros Hp Hr. unfold tileHandler. rewrite Hp, Hr.
  unfold Write, WriteHeader, Header_Set. cbn [status newResponse Header body sentHeader].
  split; [reflexivity|]. split; [reflexivity|]. apply lookup_insert_eq.
Qed.

Lemma tileHandler_found_witness :
  let w := tileHandler sample_parse sample_ReadTile sample_Error
             "0" "000.p/5" newResponse in
  status w = Some 200 /\ body w = sample_tile
  /\ sentHeader w !! "Cache-Control" = Some immutable.
Proof.
  apply (tileHandler_found sample_parse sample_ReadTile sample_Error
           "0" "000.p/5" 0 0 5 sample_tile); reflexivity.
Defined.

(** When the tile is not found, or on an error, no cache header goes out. *)
Lemma tileHandler_not_found parse ReadTile Error levelStr indexStr :
  (forall level index width tile,
     parse levelStr indexStr = inl (level, index, width) ->
     ReadTile level index width <> inl (Some tile)) ->
  sentHeader (tileHandler parse ReadTile Error levelStr indexStr newResponse)
    !! "Cache-Control" = None.
Proof.
  intros H. unfold tileHandler.
  destruct (parse levelStr indexStr) as [[[level index] width]|err] eqn:Hp;
    [|reflexivity].
  destruct (ReadTile level index width) as [[tile|]|err] eqn:Hr;
    [|reflexivity..].
  exfalso. eapply H; eauto.
Qed.

End TilesAPIFacts.

(** ** The other handlers of the conformance server *)

Module ConformanceFacts.
Import TilesAPI Conformance.

Lemma WriteHeader_fresh code w :
  status w = None ->
  WriteHeader code w = mkResponse (Header w) (Some code) (Header w) (body w).
Proof. intros H. unfold WriteHeader. rewrite H. reflexivity. Qed.

Lemma Write_fresh b w :
  status w = None ->
  Write b w = mkResponse (Header w) (Some 200) (Header w) (body w ++ b).
Proof. intros H. unfold Write. rewrite (WriteHeader_fresh _ _ H). reflexivity. Qed.

(** X18: a tile request is answered with the immutable Cache-Control header
    exactly when it is answered with status 200, which is exactly when the
    path parses and the storage has the tile.  The answers 400, 404 and 500
    carry no such header, and 404 and 500 have no body. *)
Theorem tileHandler_cached_iff_found parse ReadTile Error levelStr indexStr w :
  status w = None -> Header w !! "Cache-Control" = None ->
  let w' := tileHandler parse ReadTile Error levelStr indexStr w in
  (sentHeader w' !! "Cache-Control" = Some immutable <-> status w' = Some 200)
  /\ (status w' = Some 200 <->
      exists level index width tile,
        parse levelStr indexStr = inl (level, index, width)
        /\ ReadTile level index width = inl (Some tile))
  /\ (status w' = Some 404 \/ status w' = Some 500 -> body w' = body w).
Proof.
  intros Hs Hc. cbv zeta. unfold tileHandler.
  destruct (parse levelStr indexStr) as [[[level index] width]|err] eqn:Hp.
  - destruct (ReadTile level index width) as [[tile|]|err] eqn:Hr.
    + rewrite Write_fresh by exact Hs.
      cbn [sentHeader status body Header Header_Set].
      split; [split; [reflexivity | intros _; apply lookup_insert_eq]|].
      split; [split; [intros _; exists level, index, width, tile; auto
                     | reflexivity]|].
      intros [H|H]; discriminate H.
    + rewrite (WriteHeader_fresh _ _ Hs).
      cbn [sentHeader status body Header]. rewrite Hc.
      split; [split; intros H; discriminate H|].
      split; [split; [intros H; discriminate H|]|reflexivity].
      intros (l & i & wd & t & [= <- <- <-] & Hr'). congruence.
    + rewrite (WriteHeader_fresh _ _ Hs).
      cbn [sentHeader status body Header]. rewrite Hc.
      split; [split; intros H; discriminate H|].
      split; [split; [intros H; discriminate H|]|reflexivity].
      intros (l & i & wd & t & [= <- <- <-] & Hr'). congruence.
  - rewrite (WriteHeader_fresh _ _ Hs). unfold Write, WriteHeader.
    cbn [sentHeader status body Header]. rewrite Hc.
    split; [split; intros H; discriminate H|].
    split; [split; [intros H; discriminate H|]|].
    + intros (l & i & wd & t & [=] & _).
    + intros [H|H]; discriminate H.
Qed.

Lemma tileHandler_cached_iff_found_witness :
  let w' := tileHandler sample_parse sample_ReadTile sample_Error
              "0" "001" newResponse in
  sentHeader w' !! "Cache-Control" = Some immutable <-> status w' = Some 200.
Proof.
  apply (tileHandler_cached_iff_found sample_parse sample_ReadTile sample_Error
           "0" "001" newResponse); reflexivity.
Defined.

Section Facts.
Variable ReadCheckpoint : option bytes + error.
Variable ParseTileIndexWidth : string -> (Z * Z) + error.
Variable ReadEntryBundle : Z -> option bytes + error.
Variable Add : bytes -> Z * option error.
Variable Error : error -> string.

Local Abbreviation checkpointHandler := (checkpointHandler ReadCheckpoint).
Local Abbreviation entriesHandler :=
  (entriesHandler ParseTileIndexWidth ReadEntryBundle Error).
Local Abbreviation addHandler := (addHandler Add Error).


(** X20: the answer to a request for an entry bundle depends on the index in
    the path alone, not on the width: a request for a partial bundle is
    answered like the request for the whole one.  The status is 200 exactly
    when the storage has the bundle, and the body is then the bundle. *)
Theorem entriesHandler_by_index p1 p2 i width1 width2 w :
  ParseTileIndexWidth p1 = inl (i, width1) ->
  ParseTileIndexWidth p2 = inl (i, width2) ->
  status w = None ->
  entriesHandler p1 w = entriesHandler p2 w
  /\ (status (entriesHandler p1 w) = Some 200 <->
      exists bundle, ReadEntryBundle i = inl (Some bundle))
  /\ (forall bundle, ReadEntryBundle i = inl (Some bundle) ->
        body (entriesHandler p1 w) = body w ++ bundle).
Proof.
  intros H1 H2 Hs. unfold Conformance.entriesHandler. rewrite H1, H2.
  split; [reflexivity|].
  destruct (ReadEntryBundle i) as [[bundle|]|err];
    rewrite ?(Write_fresh _ _ Hs), ?(WriteHeader_fresh _ _ Hs); cbn.
  - split; [split; eauto|]. intros b [= <-]. reflexivity.
  - split; [split; [discriminate | intros [b [=]]]|]. intros b [=].
  - split; [split; [discriminate | intros [b [=]]]|]. intros b [=].
Qed.

End Facts.


Lemma entriesHandler_by_index_witness :
  entriesHandler sample_ParseTileIndexWidth sample_ReadEntryBundle sample_Error
    "000.p/5" newResponse
  = entriesHandler sample_ParseTileIndexWidth sample_ReadEntryBundle
      sample_Error "000" newResponse.
Proof.
  apply (entriesHandler_by_index sample_ParseTileIndexWidth
           sample_ReadEntryBundle sample_Error "000.p/5" "000" 0 5 256
           newResponse); reflexivity.
Defined.

End ConformanceFacts.

(** ** The clients of the load generator *)

Module HammerFacts.
Import Hammer.

(** *** Round robin *)

Section RoundRobin.
Context {A : Type}.
Implicit Types rr : roundRobin A.

Lemma nexts_spec n : forall rr,
  (idx rr < length (f rr))%nat ->
  exists xs,
    nexts n rr
    = Some (xs, RoundRobin ((idx rr + n) mod length (f rr)) (f rr))
    /\ length xs = n
    /\ forall k, (k < n)%nat ->
         xs !! k = f rr !! ((idx rr + k) mod length (f rr))%nat.
Proof.
  induction n as [|n IH]; intros rr Hlt.
  - exists []. cbn [nexts]. rewrite Nat.add_0_r, Nat.mod_small by exact Hlt.
    split; [destruct rr; reflexivity|]. split; [reflexivity|]. intros k Hk. lia.
  - destruct (lookup_lt_is_Some_2 _ _ Hlt) as [x Hx].
    set (len := length (f rr)) in *.
    set (rr1 := RoundRobin ((idx rr + 1) mod len) (f rr)).
    assert (Hnext : next rr = Some (x, rr1)).
    { unfold next. rewrite Hx. reflexivity. }
    assert (Hlt1 : (idx rr1 < length (f rr1))%nat).
    { cbn. apply Nat.mod_upper_bound. fold len. lia. }
    destruct (IH rr1 Hlt1) as (xs & Hrun & Hlen & Hxs).
    exists (x :: xs). cbn [nexts]. rewrite Hnext, Hrun.
    unfold rr1 in Hxs |- *. cbn [idx f] in Hxs |- *. fold len in Hxs |- *.
    split.
    { do 3 f_equal. rewrite Nat.Div0.add_mod_idemp_l. f_equal. lia. }
    split; [cbn [length]; congruence|].
    intros [|k] Hk.
    + cbn [lookup list_lookup]. rewrite Nat.add_0_r, Nat.mod_small by exact Hlt.
      symmetry. exact Hx.
    + cbn [lookup list_lookup]. change (xs !! k = f rr !! ((idx rr + S k) mod len)%nat).
      rewrite (Hxs k) by lia. rewrite Nat.Div0.add_mod_idemp_l.
      do 2 f_equal. lia.
Qed.

Lemma rotate_nat_add_mod (base offset len : nat) :
  rotate_nat_add base offset len = ((base + offset) mod len)%nat.
Proof.
  unfold rotate_nat_add.
  rewrite <- Nat2Z.inj_add, <- Nat2Z.inj_mod. apply Nat2Z.id.
Qed.

(** X21: starting from an index inside the list, [next] never panics, and
    the [k]-th call returns the client at position [(idx + k) mod len]:
    the clients are used in turn, starting again at the first after the
    last. *)
Theorem next_in_turn n rr :
  (idx rr < length (f rr))%nat ->
  exists xs rr',
    nexts n rr = Some (xs, rr')
    /\ length xs = n
    /\ f rr' = f rr
    /\ idx rr' = ((idx rr + n) mod length (f rr))%nat
    /\ (idx rr' < length (f rr'))%nat
    /\ forall k, (k < n)%nat ->
         xs !! k = f rr !! ((idx rr + k) mod length (f rr))%nat.
Proof.
  intros Hlt. destruct (nexts_spec n rr Hlt) as (xs & Hrun & Hlen & Hxs).
  eexists. eexists. split; [exact Hrun|]. cbn [idx f].
  split; [exact Hlen|]. split; [reflexivity|]. split; [reflexivity|].
  split; [apply Nat.mod_upper_bound; lia | exact Hxs].
Qed.

(** X22: as many calls of [next] as there are clients use every client
    exactly once, in the order of the list from the current index on, and
    leave the index where it was. *)
Theorem next_fair rr :
  (idx rr < length (f rr))%nat ->
  nexts (length (f rr)) rr = Some (rotate (idx rr) (f rr), rr)
  /\ rotate (idx rr) (f rr) ≡ₚ f rr.
Proof.
  intros Hlt.
  destruct (nexts_spec (length (f rr)) rr Hlt) as (xs & Hrun & Hlen & Hxs).
  split.
  - rewrite Hrun. f_equal. f_equal.
    + apply list_eq. intros k.
      destruct (decide (k < length (f rr))%nat) as [Hk|Hk].
      * rewrite (Hxs k Hk), lookup_rotate_r by exact Hk.
        rewrite rotate_nat_add_mod. reflexivity.
      * rewrite !lookup_ge_None_2; [reflexivity | |]; rewrite ?length_rotate; lia.
    + destruct rr as [i l]. cbn [idx f] in *. f_equal.
      rewrite <- Nat.Div0.add_mod_idemp_r, Nat.Div0.mod_same, Nat.add_0_r.
      apply Nat.mod_small. exact Hlt.
  - unfold rotate. rewrite Permutation_app_comm. rewrite take_drop.
    reflexivity.
Qed.

End RoundRobin.

Lemma next_in_turn_witness :
  exists xs rr',
    nexts 5 (RoundRobin 1 ["a"; "b"; "c"]) = Some (xs, rr')
    /\ length xs = 5%nat
    /\ f rr' = ["a"; "b"; "c"]
    /\ idx rr' = 0%nat.
Proof.
  destruct (next_in_turn 5 (RoundRobin 1 ["a"; "b"; "c"]))
    as (xs & rr' & Hrun & Hlen & Hf & Hidx & _); [cbn; lia|].
  exists xs, rr'. auto.
Defined.

Lemma next_fair_witness :
  nexts 3 (RoundRobin 1 ["a"; "b"; "c"])
  = Some (["b"; "c"; "a"], RoundRobin 1 ["a"; "b"; "c"]).
Proof.
  apply (next_fair (RoundRobin 1 ["a"; "b"; "c"])). cbn. lia.
Defined.

(** With no client the first call panics. *)
Example next_empty {A} : next (RoundRobin 0 (@nil A)) = None.
Proof. reflexivity. Qed.


(** *** The clients built from the flags *)

Lemma forRange_length {A B} (g : A -> Exit B) l : forall xs,
  forRange g l = Returns xs -> length xs = length l.
Proof.
  induction l as [|s l IH]; intros xs H; cbn [forRange] in H.
  - injection H as <-. reflexivity.
  - destruct (g s) as [x| |]; cbn [andThen] in H; try discriminate.
    destruct (forRange g l) as [xs'| |]; cbn [andThen] in H; try discriminate.
    injection H as <-. cbn [length]. rewrite (IH xs' eq_refl). reflexivity.
Qed.

Lemma forRange_Forall {A B} (g : A -> Exit B) (P : B -> Prop) l :
  (forall s x, g s = Returns x -> P x) ->
  forall xs, forRange g l = Returns xs -> Forall P xs.
Proof.
  intros Hg. induction l as [|s l IH]; intros xs H; cbn [forRange] in H.
  - injection H as <-. constructor.
  - destruct (g s) as [x| |] eqn:Hs; cbn [andThen] in H; try discriminate.
    destruct (forRange g l) as [xs'| |]; cbn [andThen] in H; try discriminate.
    injection H as <-. constructor; [eapply Hg; exact Hs | apply IH; reflexivity].
Qed.

Lemma forRange_fmap {A B C} (g : B -> Exit C) (h : A -> B) l :
  forRange g (h <$> l) = forRange (fun s => g (h s)) l.
Proof.
  induction l as [|s l IH]; [reflexivity|].
  rewrite fmap_cons. cbn [forRange]. rewrite IH. reflexivity.
Qed.

Lemma forRange_ext {A B} (g g' : A -> Exit B) l :
  (forall s, g s = g' s) -> forRange g l = forRange g' l.
Proof.
  intros E. induction l as [|s l IH]; [reflexivity|].
  cbn [forRange]. rewrite E, IH. reflexivity.
Qed.

Lemma substring_last s :
  substring (String.length s) 1 (s ++ "/") = "/"%string.
Proof. induction s as [|ch s IH]; [reflexivity | exact IH]. Qed.

Lemma length_append_slash s :
  String.length (s ++ "/") = S (String.length s).
Proof. induction s as [|ch s IH]; [reflexivity | exact (f_equal S IH)]. Qed.

Lemma HasSuffix_slash s : HasSuffix (s ++ "/") "/" = true.
Proof.
  unfold HasSuffix. rewrite length_append_slash.
  change (String.length "/") with 1%nat.
  replace (S (String.length s) - 1)%nat with (String.length s) by lia.
  rewrite substring_last. reflexivity.
Qed.

Lemma withSlash_idemp s : withSlash (withSlash s) = withSlash s.
Proof.
  unfold withSlash at 2 3. destruct (HasSuffix s "/") eqn:H.
  - unfold withSlash. rewrite H. reflexivity.
  - unfold withSlash. rewrite HasSuffix_slash. reflexivity.
Qed.

Section Flags.
Variable URL : Type.
Variable url_Parse : string -> option URL.
Variable URL_Parse : URL -> string -> option URL.
Variable Scheme : URL -> string.

Local Abbreviation rootUrlOrDie := (rootUrlOrDie URL url_Parse).
Local Abbreviation newFetcher := (newFetcher URL Scheme).
Local Abbreviation newLogClientsFromFlags :=
  (newLogClientsFromFlags URL url_Parse URL_Parse Scheme).

Lemma rootUrlOrDie_withSlash s : rootUrlOrDie (withSlash s) = rootUrlOrDie s.
Proof.
  unfold Hammer.rootUrlOrDie. fold (withSlash (withSlash s)). fold (withSlash s).
  rewrite withSlash_idemp. reflexivity.
Qed.

(** X23: when [newLogClientsFromFlags] returns, there is a fetcher for each
    log URL, in order, each of a supported scheme, and a writer for each
    write URL, or for each log URL when no write URL was given; neither list
    is empty and both indices are 0, so the first [next] of either does not
    panic. *)
Theorem newLogClientsFromFlags_clients logURL writeLogURL rf rw :
  newLogClientsFromFlags logURL writeLogURL = Returns (rf, rw) ->
  logURL <> []
  /\ idx rf = 0%nat /\ idx rw = 0%nat
  /\ length (f rf) = length logURL
  /\ length (f rw)
     = length (match writeLogURL with [] => logURL | _ => writeLogURL end)
  /\ Forall (fun x => match x with
                      | FetcherOf _ root => supportedScheme (Scheme root) = true
                      end) (f rf)
  /\ (exists x rf', next rf = Some (x, rf'))
  /\ (exists x rw', next rw = Some (x, rw')).
Proof.
  unfold Hammer.newLogClientsFromFlags.
  destruct logURL as [|s0 logURL]; [discriminate|].
  set (l := s0 :: logURL).
  set (l' := match writeLogURL with [] => l | _ => writeLogURL end).
  destruct (forRange _ l) as [fetchers| |] eqn:Hf; cbn [andThen];
    try discriminate.
  destruct (forRange _ l') as [writers| |] eqn:Hw; cbn [andThen];
    try discriminate.
  intros [= <- <-]. cbn [idx f].
  pose proof (forRange_length _ _ _ Hf) as Hlf.
  pose proof (forRange_length _ _ _ Hw) as Hlw.
  assert (Hl' : (0 < length l')%nat).
  { unfold l'. destruct writeLogURL; cbn; lia. }
  split; [discriminate|]. split; [reflexivity|]. split; [reflexivity|].
  split; [exact Hlf|]. split; [exact Hlw|]. split; [|split].
  - eapply forRange_Forall; [|exact Hf].
    intros s [root] Hs. unfold Hammer.rootUrlOrDie in Hs.
    destruct (url_Parse _) as [r|]; cbn [andThen] in Hs; [|discriminate].
    unfold Hammer.newFetcher in Hs.
    destruct (supportedScheme (Scheme r)) eqn:Hsch; [|discriminate].
    injection Hs as <-. exact Hsch.
  - unfold next. cbn [idx f].
    destruct fetchers as [|x fetchers]; [cbn in Hlf; discriminate|].
    cbn. eauto.
  - unfold next. cbn [idx f].
    destruct writers as [|x writers]; [cbn in Hlw; lia|].
    cbn. eauto.
Qed.

(** X24: a log URL may be given with or without its final slash: the
    clients built are the same. *)
Theorem newLogClientsFromFlags_slash logURL writeLogURL :
  newLogClientsFromFlags (withSlash <$> logURL) (withSlash <$> writeLogURL)
  = newLogClientsFromFlags logURL writeLogURL.
Proof.
  unfold Hammer.newLogClientsFromFlags.
  destruct logURL as [|s0 logURL]; [reflexivity|].
  rewrite fmap_cons.
  assert (E : match withSlash <$> writeLogURL with
              | [] => withSlash s0 :: (withSlash <$> logURL)
              | _ => withSlash <$> writeLogURL
              end
              = withSlash <$> match writeLogURL with
                              | [] => s0 :: logURL
                              | _ => writeLogURL
                              end).
  { destruct writeLogURL; reflexivity. }
  rewrite E. rewrite <- fmap_cons. rewrite !forRange_fmap.
  erewrite (forRange_ext _ _ (s0 :: logURL));
    [|intros s; rewrite rootUrlOrDie_withSlash; reflexivity].
  destruct (forRange _ (s0 :: logURL)) as [fetchers| |]; cbn [andThen];
    try reflexivity.
  erewrite forRange_ext;
    [|intros s; rewrite rootUrlOrDie_withSlash; reflexivity].
  reflexivity.
Qed.

End Flags.

Lemma newLogClientsFromFlags_clients_witness :
  exists rf rw,
    newLogClientsFromFlags string sample_url_Parse sample_URL_Parse
      sample_Scheme ["http://log.example/"; "https://mirror.example"] []
    = Returns (rf, rw)
    /\ length (f rf) = 2%nat /\ length (f rw) = 2%nat.
Proof.
  eexists. eexists. split; [vm_compute; reflexivity|].
  destruct (newLogClientsFromFlags_clients string sample_url_Parse
              sample_URL_Parse sample_Scheme
              ["http://log.example/"; "https://mirror.example"] [] _ _ eq_refl)
    as (_ & _ & _ & Hf & Hw & _).
  split; [exact Hf | exact Hw].
Defined.

End HammerFacts.

(** ** The index on the wire: [POST /add] and the client that calls it *)

Module WireFacts.

Lemma firstPart_digits d :
  Hammer.firstPart (list_byte_of_string (NilEmpty.string_of_uint d))
  = list_byte_of_string (NilEmpty.string_of_uint d).
Proof.
  induction d as [|d IH|d IH|d IH|d IH|d IH|d IH|d IH|d IH|d IH|d IH];
    [reflexivity|..];
    cbn [NilEmpty.string_of_uint];
    change (list_byte_of_string (String ?ch ?s))
      with (Ascii.byte_of_ascii ch :: list_byte_of_string s);
    cbn [Hammer.firstPart Ascii.byte_of_ascii]; cbn; rewrite IH; reflexivity.
Qed.

Lemma firstPart_Sprintf_d idx :
  Hammer.firstPart (list_byte_of_string (Conformance.Sprintf_d idx))
  = list_byte_of_string (Conformance.Sprintf_d idx).
Proof.
  unfold Conformance.Sprintf_d, NilZero.string_of_uint.
  destruct (N.to_uint (Z.to_N idx)) eqn:E; try apply firstPart_digits.
  reflexivity.
Qed.

Lemma N_to_uint_nonnil n : N.to_uint n <> Decimal.Nil.
Proof.
  destruct n as [|p]; [discriminate|]. apply DecimalPos.Unsigned.to_uint_nonnil.
Qed.

(** What the server prints, the client parses. *)
Lemma ParseUint_Sprintf_d idx :
  is_u64 idx -> Hammer.ParseUint (Conformance.Sprintf_d idx) = Some idx.
Proof.
  intros [H0 H]. unfold Hammer.ParseUint, Conformance.Sprintf_d.
  rewrite NilZero.usu by apply N_to_uint_nonnil.
  rewrite DecimalN.Unsigned.of_to, Z2N.id by exact H0.
  destruct (Z.ltb_spec idx (2 ^ 64)); [reflexivity | lia].
Qed.

(** [Write] on an answer 200 to the [POST] itself. *)
Lemma Write_answered url retryAfter body :
  Hammer.Write None (inl (Hammer.HTTPResponse 200 "POST" url retryAfter body))
    None
  = match Hammer.ParseUint (string_of_list_byte (Hammer.firstPart body)) with
    | None => (0, Some (Hammer.ErrParseResponse body), None)
    | Some index => (index, None, None)
    end.
Proof. reflexivity. Qed.

Section Wire.
Variable Add : bytes -> Z * option error.
Variable Error : error -> string.

Lemma addHandler_added leaf idx :
  Add leaf = (idx, None) ->
  Conformance.addHandler Add Error (inl leaf) TilesAPI.newResponse
  = TilesAPI.mkResponse ∅ (Some 200) ∅
      (list_byte_of_string (Conformance.Sprintf_d idx)).
Proof.
  intros HAdd. unfold Conformance.addHandler. rewrite HAdd. reflexivity.
Qed.

(** X25: the client and the server agree on the index.  When the handler of
    [POST /add] has added the leaf, [Write] of the client, given the response
    as the handler made it, returns the index the storage assigned and no
    error.  When the storage failed, [Write] returns an error that carries
    status 500 and the text of the storage's error, and that is not a
    retry: the client does not sleep. *)
Theorem add_Write_roundtrip leaf url :
  (forall idx, Add leaf = (idx, None) -> is_u64 idx ->
     Hammer.Write None
       (inl (Hammer.delivered url
               (Conformance.addHandler Add Error (inl leaf) TilesAPI.newResponse)))
       None
     = (idx, None, None))
  /\ (forall i err, Add leaf = (i, Some err) ->
        Hammer.Write None
          (inl (Hammer.delivered url
                  (Conformance.addHandler Add Error (inl leaf)
                     TilesAPI.newResponse)))
          None
        = (0, Some (Hammer.ErrNotOK 500 (list_byte_of_string (Error err))), None)
        /\ Hammer.Is_ErrRetry
             (Hammer.ErrNotOK 500 (list_byte_of_string (Error err))) = false).
Proof.
  split.
  - intros idx HAdd Hu. rewrite (addHandler_added _ _ HAdd).
    change (Hammer.delivered url _)
      with (Hammer.HTTPResponse 200 "POST" url ""
              (list_byte_of_string (Conformance.Sprintf_d idx))).
    rewrite Write_answered.
    rewrite firstPart_Sprintf_d, string_of_list_byte_of_string.
    rewrite (ParseUint_Sprintf_d _ Hu). reflexivity.
  - intros i err HAdd. unfold Conformance.addHandler. rewrite HAdd.
    split; reflexivity.
Qed.

End Wire.

Lemma add_Write_roundtrip_witness :
  Hammer.Write None
    (inl (Hammer.delivered "http://log.example/add"
            (Conformance.addHandler Conformance.sample_Add TilesAPI.sample_Error
               (inl [Byte.x68]) TilesAPI.newResponse)))
    None
  = (42, None, None).
Proof.
  apply (add_Write_roundtrip Conformance.sample_Add TilesAPI.sample_Error
           [Byte.x68] "http://log.example/add");
    [reflexivity | unfold is_u64; lia].
Defined.

End WireFacts.
